(** * urkel: the Patricia Merkle trie engine of lib/trie.js

    A shallow embedding of [lib/trie.js] and [lib/errors.js].  Nodes are an
    inductive type, the trie object is a record threaded through every
    operation, exceptions are an outcome monad, and the walks that may
    resolve a hash from the store recurse on a fuel counter.  The
    collaborators that live in other files (codec, Hasher) are parameters of
    the engine. *)

From stdpp Require Import base list option strings sets.
From Stdlib Require Import Strings.Byte Strings.Ascii ZArith Lia.

Set Warnings "-register-all,-clear-no-such-hyp".

Local Open Scope Z_scope.
Local Open Scope nat_scope.

(** ** Values shared by all files *)

Abbreviation Buffer := (list byte) (only parsing).

(** A nibble path is a Buffer whose entries are the nibbles 0..15 and the
    terminator 16. *)
Abbreviation nibbles := (list nat) (only parsing).

#[global] Instance byte_eq_decision : EqDecision byte := Byte.byte_eq_dec.

(** The JavaScript values the error constructor can be handed. *)
Inductive jsval :=
| JUndefined
| JNull
| JNumber (z : Z)
| JBuffer (b : Buffer)
| JNibbles (k : nibbles)
| JObject (props : list (string * jsval)).

(** ** Exceptions and the outcome of a call *)

Module errors.

(** The fields the [MissingNodeError] constructor assigns. *)
Record MissingNode := {
  type : string;
  name : string;
  code : string;
  rootHash : jsval;
  nodeHash : jsval;
  key : jsval;
  pos : Z;
  message : string
}.

End errors.

Inductive exn :=
| AssertionError
| TypeError
| RangeError
| Error (msg : string)
| MissingNodeError (e : errors.MissingNode).

(** [OutOfFuel] is not a JavaScript outcome: it marks a walk cut short by
    the fuel counter of the embedding. *)
Inductive outcome (A : Type) :=
| Ret (a : A)
| Throw (e : exn)
| OutOfFuel.
Arguments Ret {A} a.
Arguments Throw {A} e.
Arguments OutOfFuel {A}.

#[global] Instance outcome_ret : MRet outcome := @Ret.
#[global] Instance outcome_bind : MBind outcome := λ A B f m,
  match m with
  | Ret a => f a
  | Throw e => Throw e
  | OutOfFuel => OutOfFuel
  end.

#[global] Instance outcome_fmap : FMap outcome := λ A B f m,
  match m with
  | Ret a => Ret (f a)
  | Throw e => Throw e
  | OutOfFuel => OutOfFuel
  end.

Definition assert (b : bool) : outcome unit :=
  if b then Ret tt else Throw AssertionError.

(** ** JavaScript primitives used by errors.js *)

Definition truthy (v : jsval) : bool :=
  match v with
  | JUndefined | JNull => false
  | JNumber z => negb (z =? 0)%Z
  | JBuffer _ | JNibbles _ | JObject _ => true
  end.

(** [a || b] *)
Definition js_or (a b : jsval) : jsval := if truthy a then a else b.

Fixpoint assoc (p : string) (props : list (string * jsval)) : jsval :=
  match props with
  | [] => JUndefined
  | (q, v) :: rest => if String.eqb p q then v else assoc p rest
  end.

(** [o.p]: reading a property of undefined or null throws; the properties
    read in errors.js ([size], [rootHash], [nodeHash], [key], [pos]) are not
    properties of a number or of a Buffer. *)
Definition prop (o : jsval) (p : string) : outcome jsval :=
  match o with
  | JUndefined | JNull => Throw TypeError
  | JObject props => Ret (assoc p props)
  | JNumber _ | JBuffer _ | JNibbles _ => Ret JUndefined
  end.

(** [v >>> 0] *)
Definition to_uint32 (v : jsval) : Z :=
  match v with
  | JNumber z => (z mod 2 ^ 32)%Z
  | _ => 0%Z
  end.

Definition hex_digit (n : nat) : ascii :=
  default "0"%char (String.list_ascii_of_string "0123456789abcdef" !! n).

Definition byte_of_nat (n : nat) : byte :=
  default x00 (Byte.of_nat (n mod 256)).

Fixpoint to_hex (b : Buffer) : string :=
  match b with
  | [] => EmptyString
  | x :: rest =>
      String (hex_digit (Byte.to_nat x / 16))
        (String (hex_digit (Byte.to_nat x mod 16)) (to_hex rest))
  end.

Definition hex_value (c : ascii) : option nat :=
  let n := nat_of_ascii c in
  if (48 <=? n) && (n <=? 57) then Some (n - 48)
  else if (97 <=? n) && (n <=? 102) then Some (n - 87)
  else if (65 <=? n) && (n <=? 70) then Some (n - 55)
  else None.

(** [Buffer.from(s, 'hex')]: pairs of hex digits, cut at the first pair
    that is not one. *)
Fixpoint from_hex (s : string) : Buffer :=
  match s with
  | String a (String b rest) =>
      match hex_value a, hex_value b with
      | Some h, Some l => byte_of_nat (16 * h + l) :: from_hex rest
      | _, _ => []
      end
  | _ => []
  end.

(** [v.toString('hex')] *)
Definition toString_hex (v : jsval) : outcome string :=
  match v with
  | JUndefined | JNull => Throw TypeError
  | JNumber _ => Throw RangeError
  | JBuffer b => Ret (to_hex b)
  | JNibbles k => Ret (to_hex (byte_of_nat <$> k))
  | JObject _ => Ret "[object Object]"%string
  end.

(** ** common.js *)

Module common.

(** Modelled from the spec: common.js is not among the sources.  Section
    4.1 gives two nibbles per byte, high nibble first; section 3 and the
    scenarios S2 to S4 give the terminator nibble 16 that closes every key
    path (the leaf that [insert] builds carries the key's remaining
    nibbles, and the leaf of S2 ends in 16). *)
Definition toNibbles (str : Buffer) : nibbles :=
  flat_map (λ b, [Byte.to_nat b / 16; Byte.to_nat b mod 16]) str ++ [16].

Fixpoint pack (k : nibbles) : Buffer :=
  match k with
  | h :: l :: rest => byte_of_nat (16 * h + l) :: pack rest
  | _ => []
  end.

(** Modelled from the spec: section 4.1, the inverse of [toNibbles]; a
    final terminator is dropped before packing and an odd length is
    illegal. *)
Definition fromNibbles (k : nibbles) : outcome Buffer :=
  let body := if bool_decide (last k = Some 16)
              then take (length k - 1) k
              else k in
  assert (Nat.even (length body));;
  Ret (pack body).

Fixpoint common_len (a b : nibbles) : nat :=
  match a, b with
  | x :: a', y :: b' => if bool_decide (x = y) then S (common_len a' b') else 0
  | _, _ => 0
  end.

(** Modelled from the spec: section 4.1, the length of the longest common
    prefix of [a[off:]] and [b]. *)
Definition prefixLen (a b : nibbles) (off : nat) : nat :=
  common_len (drop off a) b.

(** Modelled from the spec: section 4.1, true iff
    [len(key) - off >= len(prefix)] and the next [len(prefix)] nibbles
    match. *)
Definition startsWith (key prefix : nibbles) (off : nat) : bool :=
  bool_decide (length prefix ≤ length key - off)
  && bool_decide (take (length prefix) (drop off key) = prefix).

Definition concat (a b : nibbles) : nibbles := a ++ b.

Definition byte (i : nat) : nibbles := [i].

(** [key.slice(from, to)] and [key.slice(from)] of a Buffer. *)
Definition slice (k : nibbles) (from to : nat) : nibbles :=
  take (to - from) (drop from k).
Definition slice_from (k : nibbles) (from : nat) : nibbles := drop from k.

End common.

(** ** errors.js *)

Module MissingNodeError.

(** [constructor(hash, options = {})].  The default value of [options]
    is taken when the second argument is undefined. *)
Definition constructor (hash options : jsval) : outcome errors.MissingNode :=
  let options := match options with
                 | JUndefined => JObject []
                 | o => o
                 end in
  o_rootHash ← prop options "rootHash";
  h_size ← (if truthy o_rootHash then Ret JUndefined else prop hash "size");
  let rootHash := js_or o_rootHash h_size in
  o_nodeHash ← prop options "nodeHash";
  h_size' ← (if truthy o_nodeHash then Ret JUndefined else prop hash "size");
  let nodeHash := js_or o_nodeHash h_size' in
  o_key ← prop options "key";
  key ← (if truthy o_key
         then match o_key with
              | JNibbles k => JBuffer <$> common.fromNibbles k
              | _ => Throw AssertionError
              end
         else Ret JNull);
  o_pos ← prop options "pos";
  let pos := to_uint32 o_pos in
  hex ← toString_hex nodeHash;
  Ret {| errors.type := "MissingNodeError";
         errors.name := "MissingNodeError";
         errors.code := "ERR_MISSING_NODE";
         errors.rootHash := rootHash;
         errors.nodeHash := nodeHash;
         errors.key := key;
         errors.pos := pos;
         errors.message := "Missing node: " +:+ hex +:+ "." |}.

End MissingNodeError.

(** ** nodes.js *)

Module nodes.

(** Modelled from the spec: nodes.js is not among the sources.  Section 3
    gives the flags [{hash, dirty, gen}] of a Short or Full node; trie.js
    builds them with [new NodeFlags(cacheGen, true)]. *)
Record NodeFlags := {
  gen : nat;
  dirty : bool;
  hash : option Buffer
}.

Definition new_NodeFlags (gen : nat) (dirty : bool) : NodeFlags :=
  {| gen := gen; dirty := dirty; hash := None |}.

(** Modelled from the spec: section 3, the node variants.  [NIL] is the
    singleton of type NULLNODE; a Full node has 17 slots. *)
Inductive node :=
| NIL
| HashNode (data : Buffer)
| ShortNode (key : nibbles) (value : node) (flags : NodeFlags)
| FullNode (children : list node) (flags : NodeFlags)
| ValueNode (data : Buffer).

Definition isNull (n : node) : bool :=
  match n with NIL => true | _ => false end.
Definition isHash (n : node) : bool :=
  match n with HashNode _ => true | _ => false end.
Definition isShort (n : node) : bool :=
  match n with ShortNode _ _ _ => true | _ => false end.
Definition isValue (n : node) : bool :=
  match n with ValueNode _ => true | _ => false end.

(** [n.data]: only Hash and Value nodes have the property. *)
Definition data_of (n : node) : option Buffer :=
  match n with
  | HashNode d | ValueNode d => Some d
  | _ => None
  end.

(** [new FullNode(flags)]: 17 empty slots. *)
Definition new_FullNode (flags : NodeFlags) : node :=
  FullNode (replicate 17 NIL) flags.

(** [n.children[i] = c] on a Full node, [i] being what indexing a nibble
    Buffer gave.  The model tracks the 17 slots: an index that is
    undefined or beyond them leaves them as they are (the JavaScript
    array gains a property that no walk over the slots reads). *)
Definition set_child (n : node) (i : option nat) (c : node) : node :=
  match n, i with
  | FullNode cs fl, Some i => FullNode (<[i := c]> cs) fl
  | _, _ => n
  end.

(** [n.flags.hash = null; n.flags.dirty = true] *)
Definition touch (fl : NodeFlags) : NodeFlags :=
  {| gen := gen fl; dirty := true; hash := None |}.

End nodes.
Export nodes.

(** ** The collaborators of the engine *)

Module Hash.
(** The hash object: [hash.size] and [hash.digest(data)]. *)
Record t := { size : nat; digest : Buffer → Buffer }.
End Hash.

Module DB.
(** The store: [db.get(key)] (absent is [None]) and [db.has(key)]. *)
Record t := { get : Buffer → option Buffer; has : Buffer → bool }.
End DB.

Module Batch.
(** A write batch: the [put]s it received, oldest first. *)
Definition t := list (Buffer * Buffer).
Definition put (b : t) (k v : Buffer) : t := b ++ [(k, v)].
End Batch.

Definition STATE_KEY : Buffer := [x73].

(** ** trie.js *)

Record Trie := {
  hash : Hash.t;
  emptyRoot : Buffer;
  db : option DB.t;
  originalRoot : Buffer;
  root : node;
  cacheGen : nat;
  cacheLimit : nat
}.

Definition set_root (t : Trie) (r : node) : Trie :=
  {| hash := hash t; emptyRoot := emptyRoot t; db := db t;
     originalRoot := originalRoot t; root := r;
     cacheGen := cacheGen t; cacheLimit := cacheLimit t |}.

(** The argument of [open]: absent, a hex string or a Buffer. *)
Inductive root_arg :=
| RootAbsent
| RootHex (s : string)
| RootBuffer (b : Buffer).

(** What [rootHash] and [commit] return: the digest, or its hex string
    when [enc === 'hex']. *)
Inductive digest_out :=
| Raw (b : Buffer)
| Hex (s : string).

Section engine.

(** The codec of nodes.js: [encode] is only used for the empty root,
    [decodeNode(raw, hash)] may throw on bytes that are no node. *)
Variable encode : node → Buffer.
Variable decodeNode : Buffer → Hash.t → outcome node.

(** [new Hasher(hash, cacheGen, cacheLimit).hashRoot(root, batch, force)]
    of hasher.js: the data of the HashNode it returns, the cached tree and
    the writes it puts into the batch it was given. *)
Variable Hasher_hashRoot :
  Hash.t → nat → nat → node → option Batch.t → bool → Buffer * node * Batch.t.

(** Modelled from the spec: [common.emptyRoot(hash)] is not among the
    sources; section 6 gives the empty root as [hash(encode(Null))]. *)
Definition common_emptyRoot (h : Hash.t) : Buffer :=
  Hash.digest h (encode NIL).

(** [new Trie(hash, db, limit)] *)
Definition new_Trie (h : Hash.t) (d : option DB.t) (limit : option nat) : Trie :=
  let limit := default 4 limit in
  {| hash := h;
     emptyRoot := common_emptyRoot h;
     db := d;
     originalRoot := common_emptyRoot h;
     root := NIL;
     cacheGen := 0;
     cacheLimit := limit |}.

Definition flags (t : Trie) : NodeFlags := new_NodeFlags (cacheGen t) true.
Definition hashNode (t : Trie) (r : Buffer) : node := HashNode r.
Definition shortNode (t : Trie) (key : nibbles) (value : node) : node :=
  ShortNode key value (flags t).
Definition fullNode (t : Trie) : node := new_FullNode (flags t).
Definition valueNode (t : Trie) (value : Buffer) : node := ValueNode value.

(** [throw new MissingNodeError(options)]: the call sites pass one
    argument, so the constructor's second parameter is undefined. *)
Definition throw_MissingNodeError {A} (options : jsval) : outcome A :=
  e ← MissingNodeError.constructor options JUndefined;
  Throw (MissingNodeError e).

(** [resolveHash(n, key, pos)]; every caller has checked that [n] is a
    Hash node, [data] is its [n.data]. *)
Definition resolveHash (t : Trie) (data : Buffer) (key : nibbles) (pos : nat)
  : outcome node :=
  match db t with
  | None => Throw (Error "Cannot resolve hash without database.")
  | Some store =>
      match DB.get store data with
      | None =>
          throw_MissingNodeError
            (JObject [("rootHash", JBuffer (originalRoot t));
                      ("nodeHash", JBuffer data);
                      ("key", JNibbles key);
                      ("pos", JNumber (Z.of_nat pos))]%string)
      | Some raw => decodeNode raw (hash t)
      end
  end.

Definition resolve (t : Trie) (n : node) (key : nibbles) (index : nat)
  : outcome node :=
  match n with
  | HashNode data =>
      let k := common.concat key (common.byte index) in
      let p := length key in
      resolveHash t data k p
  | _ => Ret n
  end.

(** A callee handed [undefined] for its node: the assertion on [pos]
    comes first, then reading [n.type] (or [n.isValue()]) throws. *)
Definition undefined_node {A} (key : nibbles) (pos : nat) : outcome A :=
  assert (bool_decide (pos ≤ length key));; Throw TypeError.

Fixpoint _get (fuel : nat) (t : Trie) (n : node) (key : nibbles) (pos : nat)
  : outcome (option Buffer * node * bool) :=
  match fuel with
  | 0 => OutOfFuel
  | S fuel =>
      assert (bool_decide (pos ≤ length key));;
      match n with
      | NIL => Ret (None, NIL, false)
      | ValueNode data => Ret (Some data, n, false)
      | ShortNode k v fl =>
          if negb (common.startsWith key k pos) then Ret (None, n, false)
          else
            '(val, nn, res) ← _get fuel t v key (pos + length k);
            Ret (val, if res : bool then ShortNode k nn fl else n, res)
      | FullNode cs fl =>
          match key !! pos ≫= λ i, pair i <$> cs !! i with
          | None => undefined_node key (pos + 1)
          | Some (i, c) =>
              '(val, nn, res) ← _get fuel t c key (pos + 1);
              Ret (val, if res : bool then FullNode (<[i := nn]> cs) fl else n, res)
          end
      | HashNode data =>
          child ← resolveHash t data key pos;
          '(val, nn, _) ← _get fuel t child key pos;
          Ret (val, nn, true)
      end
  end.

Definition get (fuel : nat) (t : Trie) (key : Buffer)
  : outcome (option Buffer * Trie) :=
  let k := common.toNibbles key in
  '(val, r, res) ← _get fuel t (root t) k 0;
  Ret (val, if res : bool then set_root t r else t).

Fixpoint _insert (fuel : nat) (t : Trie) (n : node) (key : nibbles)
    (pos : nat) (value : node) : outcome (bool * node) :=
  match fuel with
  | 0 => OutOfFuel
  | S fuel =>
      assert (bool_decide (pos ≤ length key));;
      if bool_decide (length key - pos = 0) then
        match n with
        | ValueNode data =>
            (* [n.data.equals(value.data)] throws on a non-Buffer *)
            match data_of value with
            | Some vd => Ret (negb (bool_decide (data = vd)), value)
            | None => Throw TypeError
            end
        | _ => Ret (true, value)
        end
      else
        match n with
        | ShortNode k v fl =>
            let ml := common.prefixLen key k pos in
            if bool_decide (ml = length k) then
              '(d, nn) ← _insert fuel t v key (pos + ml) value;
              if negb d then Ret (false, n)
              else Ret (true, shortNode t k nn)
            else
              let branch := fullNode t in
              '(_, n1) ← _insert fuel t NIL k (ml + 1) v;
              '(_, n2) ← _insert fuel t NIL key (pos + ml + 1) value;
              let branch := set_child branch (k !! ml) n1 in
              let branch := set_child branch (key !! (pos + ml)) n2 in
              if bool_decide (ml = 0) then Ret (true, branch)
              else Ret (true, shortNode t (common.slice key pos (pos + ml)) branch)
        | FullNode cs fl =>
            match key !! pos ≫= λ i, pair i <$> cs !! i with
            | None => undefined_node key (pos + 1)
            | Some (i, c) =>
                '(d, nn) ← _insert fuel t c key (pos + 1) value;
                if negb d then Ret (false, n)
                else Ret (true, FullNode (<[i := nn]> cs) (touch fl))
            end
        | NIL => Ret (true, shortNode t (common.slice_from key pos) value)
        | HashNode data =>
            rn ← resolveHash t data key pos;
            '(d, nn) ← _insert fuel t rn key pos value;
            if negb d then Ret (false, rn)
            else Ret (true, nn)
        | ValueNode _ => Throw (Error "Invalid node type.")
        end
  end.

Definition insert (fuel : nat) (t : Trie) (key value : Buffer) : outcome Trie :=
  let k := common.toNibbles key in
  let node := valueNode t value in
  '(_, r) ← _insert fuel t (root t) k 0 node;
  Ret (set_root t r).

(** The scan of the 17 slots in [_remove]: [index] is -1 while no slot
    is occupied, the slot while one is, and -2 (with a break) at the
    second. *)
Fixpoint scan (cs : list node) (slots : list nat) (index : Z) : outcome Z :=
  match slots with
  | [] => Ret index
  | i :: rest =>
      match cs !! i with
      | None => Throw TypeError
      | Some child =>
          if negb (isNull child) then
            if bool_decide (index = (-1)%Z) then scan cs rest (Z.of_nat i)
            else Ret (-2)%Z
          else scan cs rest index
      end
  end.

Fixpoint _remove (fuel : nat) (t : Trie) (n : node) (key : nibbles) (pos : nat)
  : outcome (bool * node) :=
  match fuel with
  | 0 => OutOfFuel
  | S fuel =>
      assert (bool_decide (pos ≤ length key));;
      match n with
      | ShortNode k v fl =>
          let ml := common.prefixLen key k pos in
          if bool_decide (ml < length k) then Ret (false, n)
          else if bool_decide (ml = length key - pos) then Ret (true, NIL)
          else
            '(d, nn) ← _remove fuel t v key (pos + length k);
            if negb d then Ret (false, n)
            else
              match nn with
              | ShortNode nk nv _ =>
                  Ret (true, shortNode t (common.concat k nk) nv)
              | _ => Ret (true, shortNode t k nn)
              end
      | FullNode cs fl =>
          match key !! pos ≫= λ i, pair i <$> cs !! i with
          | None => undefined_node key (pos + 1)
          | Some (i, c) =>
              '(d, nn) ← _remove fuel t c key (pos + 1);
              if negb d then Ret (false, n)
              else
                let cs := <[i := nn]> cs in
                let fl := touch fl in
                index ← scan cs (seq 0 17) (-1)%Z;
                if bool_decide (0 ≤ index)%Z then
                  let index := Z.to_nat index in
                  match cs !! index with
                  | None => Throw TypeError
                  | Some slot =>
                      let collapse := Ret (true, shortNode t (common.byte index) slot) in
                      if negb (bool_decide (index = 16)) then
                        child ← resolve t slot key index;
                        match child with
                        | ShortNode ck cv _ =>
                            Ret (true, shortNode t (common.concat (common.byte index) ck) cv)
                        | _ => collapse
                        end
                      else collapse
                  end
                else Ret (true, FullNode cs fl)
          end
      | ValueNode _ => Ret (true, NIL)
      | NIL => Ret (false, NIL)
      | HashNode data =>
          rn ← resolveHash t data key pos;
          '(d, nn) ← _remove fuel t rn key pos;
          if negb d then Ret (false, rn)
          else Ret (true, nn)
      end
  end.

Definition remove (fuel : nat) (t : Trie) (key : Buffer) : outcome Trie :=
  let k := common.toNibbles key in
  '(_, r) ← _remove fuel t (root t) k 0;
  Ret (set_root t r).

(** [open(root)].  A Buffer is truthy whatever its length, so [!root]
    holds of the absent argument only. *)
Definition open (t : Trie) (arg : root_arg) : outcome Trie :=
  let r := match arg with
           | RootAbsent => None
           | RootHex s => Some (from_hex s)
           | RootBuffer b => Some b
           end in
  let r := match r, db t with
           | None, Some store => DB.get store STATE_KEY
           | _, _ => r
           end in
  match r with
  | None => Ret t
  | Some r =>
      if negb (bool_decide (r = emptyRoot t)) then
        assert (bool_decide (length r = Hash.size (hash t)));;
        match db t with
        | None => Throw (Error "Cannot use root without database.")
        | Some store =>
            if negb (DB.has store r) then
              throw_MissingNodeError
                (JObject [("rootHash", JBuffer r); ("nodeHash", JBuffer r)]%string)
            else
              Ret {| hash := hash t; emptyRoot := emptyRoot t; db := db t;
                     originalRoot := r; root := hashNode t r;
                     cacheGen := cacheGen t; cacheLimit := cacheLimit t |}
        end
      else Ret t
  end.

Definition close (t : Trie) : Trie :=
  {| hash := hash t; emptyRoot := emptyRoot t; db := db t;
     originalRoot := emptyRoot t; root := NIL;
     cacheGen := 0; cacheLimit := cacheLimit t |}.

(** [hashRoot(batch)]: the HashNode's data, the cached tree and the
    writes put into [batch]. *)
Definition hashRoot (t : Trie) (batch : option Batch.t) : Buffer * node * Batch.t :=
  if isNull (root t) then (emptyRoot t, NIL, [])
  else Hasher_hashRoot (hash t) (cacheGen t) (cacheLimit t) (root t) batch true.

Definition encode_digest (enc : option string) (d : Buffer) : digest_out :=
  if bool_decide (enc = Some "hex"%string) then Hex (to_hex d) else Raw d.

Definition rootHash (t : Trie) (enc : option string) : digest_out * Trie :=
  let '(h, cached, _) := hashRoot t None in
  (encode_digest enc h, set_root t cached).

Definition commit (t : Trie) (batch : Batch.t) (enc : option string)
  : digest_out * Trie * Batch.t :=
  let '(h, cached, writes) := hashRoot t (Some batch) in
  let batch := Batch.put (batch ++ writes) STATE_KEY h in
  (encode_digest enc h,
   {| hash := hash t; emptyRoot := emptyRoot t; db := db t;
      originalRoot := h; root := cached;
      cacheGen := cacheGen t + 1; cacheLimit := cacheLimit t |},
   batch).

End engine.

(** ** Sequences of operations and what a map would answer *)

Inductive op :=
| Insert (key value : Buffer)
| Remove (key : Buffer).

Definition op_key (o : op) : Buffer :=
  match o with
  | Insert k _ => k
  | Remove k => k
  end.

Section run.

Variable decodeNode : Buffer → Hash.t → outcome node.

Definition apply_op (fuel : nat) (t : Trie) (o : op) : outcome Trie :=
  match o with
  | Insert k v => insert decodeNode fuel t k v
  | Remove k => remove decodeNode fuel t k
  end.

Fixpoint run (fuel : nat) (t : Trie) (ops : list op) : outcome Trie :=
  match ops with
  | [] => Ret t
  | o :: rest => t' ← apply_op fuel t o; run fuel t' rest
  end.

End run.

(** The value of the last [Insert] of [k] that no later [Remove] of [k]
    follows, starting from the answer [now]. *)
Definition last_write (k : Buffer) (ops : list op) (now : option Buffer)
  : option Buffer :=
  fold_left
    (λ cur o,
       match o with
       | Insert k' v => if bool_decide (k' = k) then Some v else cur
       | Remove k' => if bool_decide (k' = k) then None else cur
       end)
    ops now.

(** Fuel that covers a walk along the nibbles of [key] and the node below
    the last of them. *)
Definition walk_fuel (key : Buffer) : nat := 2 * length key + 2.

(** ** The shape of the trees the engine builds *)

(** A key path as [toNibbles] produces them: nibbles below 16 closed by
    the terminator. *)
Definition key_path (s : nibbles) : Prop :=
  ∃ body, s = body ++ [16] ∧ Forall (λ x, x < 16) body.

(** The suffixes of key paths a subtree answers, and with what. *)
Inductive maps : node → nibbles → Buffer → Prop :=
| maps_value d : maps (ValueNode d) [] d
| maps_short k c fl s d :
    maps c s d → maps (ShortNode k c fl) (k ++ s) d
| maps_full l fl i c s d :
    l !! i = Some c → maps c s d → maps (FullNode l fl) (i :: s) d.

Section shape.

Variable decodeNode : Buffer → Hash.t → outcome node.
Variable t : Trie.

(** [n] is a Hash node and [nn] is what the store decodes for it. *)
Definition decoded_from_store (n nn : node) : Prop :=
  ∃ data store raw,
    n = HashNode data ∧ db t = Some store ∧ DB.get store data = Some raw
    ∧ decodeNode raw (hash t) = Ret nn.

(** [nn] is the same subtree as [n]: the very node, or the node a Hash
    placeholder stands for. *)
Definition same_subtree (n nn : node) : Prop :=
  nn = n ∨ decoded_from_store n nn.

(** Subtrees below a position that the terminator has not passed: a
    Value sits right after a terminator and nowhere else, the terminator
    closes a leaf's key or selects slot 16 of a Full node, keys of Short
    nodes are not empty, and a Hash node resolves to such a subtree. *)
Inductive wf : node → Prop :=
| wf_nil : wf NIL
| wf_leaf body d fl :
    Forall (λ x, x < 16) body →
    wf (ShortNode (body ++ [16]) (ValueNode d) fl)
| wf_ext k c fl :
    k ≠ [] → Forall (λ x, x < 16) k → wf c → wf (ShortNode k c fl)
| wf_full l fl :
    length l = 17 →
    (∀ i c, i < 16 → l !! i = Some c → wf c) →
    (∀ c, l !! 16 = Some c → c = NIL ∨ isValue c = true) →
    wf (FullNode l fl)
| wf_hash data rn :
    decoded_from_store (HashNode data) rn → wf rn → wf (HashNode data).

(** The logical map read through a Hash root and through the node [nn]
    it resolves to is the same: a lookup that starts at [nn] answers what
    the lookup through the placeholder answers one resolution later. *)
Definition same_answers (nn : node) : Prop :=
  ∀ fuel key,
    fst <$> get decodeNode fuel (set_root t nn) key
    = fst <$> get decodeNode (S fuel) t key.

(** Below a terminator the subtree is a Value or nothing and the key is
    exhausted; elsewhere the subtree is [wf] and a key path remains. *)
Definition wf_at (terminated : bool) (n : node) : Prop :=
  if terminated then n = NIL ∨ isValue n = true else wf n.

Definition path_at (terminated : bool) (s : nibbles) : Prop :=
  if terminated then s = [] else key_path s.

End shape.

(** Slot [j] holds a node that is not Null. *)
Definition occupied (l : list node) (j : nat) : Prop :=
  ∃ c, l !! j = Some c ∧ isNull c = false.

(** Of the 17 slots exactly the one at [j] is not Null. *)
Definition sole_occupant (l : list node) (j : nat) : Prop :=
  j < 17 ∧ occupied l j ∧ ∀ i, i < 17 → i ≠ j → l !! i = Some NIL.

(** Two or more of the 17 slots are not Null. *)
Definition several_occupants (l : list node) : Prop :=
  ∃ a b, a < 17 ∧ b < 17 ∧ a ≠ b ∧ occupied l a ∧ occupied l b.

(** ** [open] and [commit] as the specification words them *)

Definition given_root (arg : root_arg) : option Buffer :=
  match arg with
  | RootAbsent => None
  | RootHex s => Some (from_hex s)
  | RootBuffer b => Some b
  end.

(** The root [open] goes on with: the argument, or, when it is absent and
    a store is configured, what the store holds at the state key. *)
Definition resulting_root (t : Trie) (arg : root_arg) : option Buffer :=
  match given_root arg with
  | Some r => Some r
  | None => db t ≫= λ store, DB.get store STATE_KEY
  end.

Definition in_store (t : Trie) (r : Buffer) : bool :=
  match db t with
  | Some store => DB.has store r
  | None => false
  end.

Definition opened (t : Trie) (r : Buffer) : Trie :=
  {| hash := hash t; emptyRoot := emptyRoot t; db := db t;
     originalRoot := r; root := HashNode r;
     cacheGen := cacheGen t; cacheLimit := cacheLimit t |}.

(** Section 4.5 on [open]: a resulting root other than the empty root must
    exist in the store, else MissingNode citing the root; on success
    [originalRoot = root] and [root = Hash(root)]. *)
Definition open_as_specified : Prop :=
  ∀ (t : Trie) (arg : root_arg) (r : Buffer),
    resulting_root t arg = Some r → r ≠ emptyRoot t →
    if in_store t r then open t arg = Ret (opened t r)
    else ∃ e, open t arg = Throw (MissingNodeError e)
              ∧ errors.rootHash e = JBuffer r ∧ errors.nodeHash e = JBuffer r.

Definition committed (t : Trie) (h : Buffer) (cached : node) : Trie :=
  {| hash := hash t; emptyRoot := emptyRoot t; db := db t;
     originalRoot := h; root := cached;
     cacheGen := cacheGen t + 1; cacheLimit := cacheLimit t |}.

(** Section 4.5 on [commit]: invoke the Hasher with the batch, write
    [(STATE_KEY, digest)], set [originalRoot], [root] and [cacheGen]. *)
Definition commit_through_Hasher
    (Hasher_hashRoot :
       Hash.t → nat → nat → node → option Batch.t → bool → Buffer * node * Batch.t)
    (t : Trie) (batch : Batch.t) : digest_out * Trie * Batch.t :=
  let '(h, cached, writes) :=
    Hasher_hashRoot (hash t) (cacheGen t) (cacheLimit t) (root t) (Some batch) true in
  (Raw h, committed t h cached, batch ++ writes ++ [(STATE_KEY, h)]).

Definition commit_as_specified : Prop :=
  ∀ Hasher_hashRoot t batch,
    commit Hasher_hashRoot t batch None
    = commit_through_Hasher Hasher_hashRoot t batch.

(** ** Small collaborators to run the engine on *)

Module demo.

Definition h : Hash.t :=
  {| Hash.size := 1; Hash.digest := λ b, [byte_of_nat (length b)] |}.

Definition encode (n : node) : Buffer :=
  match n with
  | NIL => [x80]
  | _ => [xc0]
  end.

(** A leaf for the key 0x12 holding 0x2a. *)
Definition leaf : node :=
  ShortNode (common.toNibbles [x12]) (ValueNode [x2a]) (new_NodeFlags 0 false).

(** A codec that knows one encoding, [0x01] for [leaf]. *)
Definition decodeNode (raw : Buffer) (_ : Hash.t) : outcome node :=
  if bool_decide (raw = [x01]) then Ret leaf
  else Throw (Error "Invalid node.").

(** A store that holds [leaf] under the digest [0xaa]. *)
Definition store : DB.t :=
  {| DB.get := λ k, if bool_decide (k = [xaa]) then Some [x01] else None;
     DB.has := λ k, bool_decide (k = [xaa]) |}.

Definition empty_store : DB.t :=
  {| DB.get := λ _, None; DB.has := λ _, false |}.

(** A Hasher that hashes the encoding of the root and, given a batch,
    writes the encoding under its digest. *)
Definition Hasher_hashRoot (hash : Hash.t) (cacheGen cacheLimit : nat)
    (n : node) (batch : option Batch.t) (force : bool)
  : Buffer * node * Batch.t :=
  let raw := encode n in
  let d := Hash.digest hash raw in
  (d, n, if batch is Some _ then [(d, raw)] else []).

(** A fresh trie without a store, and one over [store]. *)
Definition fresh : Trie := new_Trie encode h None None.
Definition stored : Trie := new_Trie encode h (Some store) None.

(** [stored] after [open(0xaa)]. *)
Definition loaded : Trie := opened stored [xaa].

(** A trie without a store whose root is [leaf]. *)
Definition planted : Trie := set_root fresh leaf.

(** The 17 slots of scenario S3: a leaf under nibble 3 and one under
    nibble 5. *)
Definition leaf_a : node :=
  ShortNode [4; 16] (ValueNode [x61]) (new_NodeFlags 0 true).
Definition leaf_b : node :=
  ShortNode [6; 16] (ValueNode [x62]) (new_NodeFlags 0 true).
Definition slots : list node :=
  <[5 := leaf_b]> (<[3 := leaf_a]> (replicate 17 NIL)).

End demo.

(** ** Snapshots, and the canonical shape *)

Section snapshots.

Variable encode : node → Buffer.

(** [inject(root)]: the absent root is [originalRoot]; the store is not
    consulted. *)
Definition inject (t : Trie) (arg : root_arg) : outcome Trie :=
  let r := match arg with
           | RootAbsent => originalRoot t
           | RootHex s => from_hex s
           | RootBuffer b => b
           end in
  assert (bool_decide (length r = Hash.size (hash t)));;
  let originalRoot0 := emptyRoot t in
  let root0 := NIL in
  let cacheGen0 := 0 in
  if negb (bool_decide (r = emptyRoot t)) then
    Ret {| hash := hash t; emptyRoot := emptyRoot t; db := db t;
           originalRoot := r; root := hashNode t r;
           cacheGen := cacheGen0; cacheLimit := cacheLimit t |}
  else
    Ret {| hash := hash t; emptyRoot := emptyRoot t; db := db t;
           originalRoot := originalRoot0; root := root0;
           cacheGen := cacheGen0; cacheLimit := cacheLimit t |}.

(** [snapshot(root)]: a new trie over the same hash, store and cache
    limit, injected with the root. *)
Definition snapshot (t : Trie) (arg : root_arg) : outcome Trie :=
  let arg := match arg with
             | RootAbsent => RootBuffer (originalRoot t)
             | a => a
             end in
  match db t with
  | None => Throw (Error "Cannot snapshot without database.")
  | Some _ =>
      let trie := new_Trie encode (hash t) (db t) (Some (cacheLimit t)) in
      inject trie arg
  end.

End snapshots.
(** The in-memory root stands for [originalRoot] and nothing else: the
    empty tree for the empty root, the Hash placeholder of the root
    otherwise. *)
Definition rooted (t : Trie) : Prop :=
  (originalRoot t = emptyRoot t ∧ root t = NIL)
  ∨ (originalRoot t ≠ emptyRoot t ∧ root t = HashNode (originalRoot t)).

(** The canonical shape of a subtree that is not empty: keys of Short
    nodes are not empty, the child of a Short node is a Value or a Full
    node (two Short nodes are never chained), a Full node has 17 slots of
    which two or more are occupied, and Values sit in slot 16 only. *)
Inductive shaped : node → Prop :=
| shaped_leaf k d fl :
    k ≠ [] → shaped (ShortNode k (ValueNode d) fl)
| shaped_ext k l fl' fl :
    k ≠ [] → shaped (FullNode l fl') → shaped (ShortNode k (FullNode l fl') fl)
| shaped_full l fl :
    length l = 17 →
    several_occupants l →
    (∀ i c, i < 16 → l !! i = Some c → c ≠ NIL → shaped c) →
    (∀ c, l !! 16 = Some c → c = NIL ∨ isValue c = true) →
    shaped (FullNode l fl).

Definition canonical (n : node) : Prop := n = NIL ∨ shaped n.

(** The node without its cache flags: keys, slots and values, and the
    flags of every Short and Full node reset to those of a new node of
    generation 0. *)
Fixpoint content (n : node) : node :=
  match n with
  | ShortNode k c _ => ShortNode k (content c) (new_NodeFlags 0 true)
  | FullNode l _ => FullNode (content <$> l) (new_NodeFlags 0 true)
  | _ => n
  end.

(** ** What a lookup answers *)

Section answers.

Variable decodeNode : Buffer → Hash.t → outcome node.

(** The walk [_get(n, key, pos)] returns, with the value [o] (null is
    [None]). *)
Definition answers (fuel : nat) (t : Trie) (n : node) (key : nibbles)
    (pos : nat) (o : option Buffer) : Prop :=
  ∃ nn res, _get decodeNode fuel t n key pos = Ret (o, nn, res).

(** [n'] is [n] with some of its Hash placeholders replaced by the
    nodes the store decodes for them. *)
Inductive resolved (t : Trie) : node → node → Prop :=
| resolved_refl n : resolved t n n
| resolved_hash data rn n' :
    decoded_from_store decodeNode t (HashNode data) rn → resolved t rn n' →
    resolved t (HashNode data) n'
| resolved_short k c c' fl :
    resolved t c c' → resolved t (ShortNode k c fl) (ShortNode k c' fl)
| resolved_full l i c c' fl :
    l !! i = Some c → resolved t c c' →
    resolved t (FullNode l fl) (FullNode (<[i := c']> l) fl).

End answers.

(** Neither of the two remainders is the start of the other. *)
Definition apart (s s2 : nibbles) : Prop :=
  (¬ ∃ r, s2 = s ++ r) ∧ (¬ ∃ r, s = s2 ++ r).

(** ** Flags on a path *)

(** Along the walk of [key] from position [pos], every Short and Full
    node is flagged dirty and has no cached hash, and no Hash placeholder
    stands on the way. *)
Inductive dirty_path (key : nibbles) : nat → node → Prop :=
| dirty_nil pos : dirty_path key pos NIL
| dirty_value pos d : dirty_path key pos (ValueNode d)
| dirty_short pos k c fl :
    nodes.dirty fl = true → nodes.hash fl = None →
    (common.startsWith key k pos = true → dirty_path key (pos + length k) c) →
    dirty_path key pos (ShortNode k c fl)
| dirty_full pos l fl :
    nodes.dirty fl = true → nodes.hash fl = None →
    (∀ i c, key !! pos = Some i → l !! i = Some c → dirty_path key (pos + 1) c) →
    dirty_path key pos (FullNode l fl).

(** * Theorems *)

(** ** Hash resolution and the MissingNodeError constructor *)

Section resolution.

Variable decodeNode : Buffer → Hash.t → outcome node.

(** The constructor reads the fields from its second parameter; handed
    the option object as its first, it finds no [nodeHash] to print. *)
Lemma constructor_one_argument props :
  assoc "size" props = JUndefined →
  MissingNodeError.constructor (JObject props) JUndefined = Throw TypeError.
Proof. intros Hsize. cbn. rewrite Hsize. reflexivity. Qed.

(** Handed the options where it reads them, the constructor builds the
    error with the four fields. *)
Lemma constructor_two_arguments hash (r d : Buffer) (k : nibbles) (p : nat) body :
  common.fromNibbles k = Ret body →
  ∃ e,
    MissingNodeError.constructor hash
      (JObject [("rootHash", JBuffer r); ("nodeHash", JBuffer d);
                ("key", JNibbles k); ("pos", JNumber (Z.of_nat p))]%string)
    = Ret e
    ∧ errors.rootHash e = JBuffer r ∧ errors.nodeHash e = JBuffer d
    ∧ errors.key e = JBuffer body
    ∧ errors.pos e = (Z.of_nat p mod 2 ^ 32)%Z.
Proof.
  intros Hk. eexists. split.
  - unfold MissingNodeError.constructor. cbn -[Z.pow Z.modulo common.fromNibbles].
    rewrite Hk. cbn -[Z.pow Z.modulo]. reflexivity.
  - cbn -[Z.pow Z.modulo]. auto.
Qed.

(** C2, at the code: with a store that lacks the digest, [resolveHash]
    does not surface a MissingNodeError carrying [rootHash], [nodeHash],
    [key] and [pos]; building the error throws a TypeError. *)
Theorem resolveHash_missing_digest (t : Trie) store data key pos :
  db t = Some store →
  DB.get store data = None →
  resolveHash decodeNode t data key pos = Throw TypeError.
Proof.
  intros Hdb Hget. unfold resolveHash. rewrite Hdb, Hget. reflexivity.
Qed.

End resolution.

Lemma resolveHash_missing_digest_witness :
  resolveHash demo.decodeNode demo.stored [xbb] [1; 2; 16] 0 = Throw TypeError.
Proof.
  apply (resolveHash_missing_digest demo.decodeNode demo.stored demo.store);
    reflexivity.
Defined.

(** ** The root lifecycle: [open], [rootHash], [commit] *)

(** Without a store, a root other than the empty root is refused with
    the database error, not with MissingNode. *)
Lemma open_without_store :
  open demo.fresh (RootBuffer [xaa])
  = Throw (Error "Cannot use root without database.").
Proof. reflexivity. Qed.

(** A root of the wrong length fails the length assertion before the
    store is asked. *)
Lemma open_wrong_length :
  open demo.stored (RootBuffer [xaa; xaa]) = Throw AssertionError.
Proof. reflexivity. Qed.

(** C5, as stated, fails: a trie without a store, opened at a root that
    is not the empty root, does not fail with MissingNode. *)
Lemma open_as_specified_fails : ¬ open_as_specified.
Proof.
  intros H.
  specialize (H demo.fresh (RootBuffer [xaa]) [xaa] eq_refl).
  assert (Hne : [xaa] ≠ emptyRoot demo.fresh) by (vm_compute; discriminate).
  specialize (H Hne). cbn in H.
  destruct H as (e & He & _). discriminate He.
Qed.

(** C5, amended: when the root is absent and a store is configured,
    [open] goes on with what the store holds at the state key 0x73.  A
    resulting root that is absent or equal to the empty root changes
    nothing.  Any other resulting root must have the digest length of the
    hash (assertion failure otherwise), then a store must be configured
    (database error otherwise); when the store has the root, [open] sets
    [originalRoot = root] and [root = Hash(root)]. *)
Theorem open_by_cases (t : Trie) (arg : root_arg) :
  (resulting_root t arg = None ∨ resulting_root t arg = Some (emptyRoot t) →
   open t arg = Ret t)
  ∧ (∀ r, resulting_root t arg = Some r → r ≠ emptyRoot t →
       (length r ≠ Hash.size (hash t) → open t arg = Throw AssertionError)
       ∧ (length r = Hash.size (hash t) → db t = None →
          open t arg = Throw (Error "Cannot use root without database."))
       ∧ (length r = Hash.size (hash t) → in_store t r = true →
          open t arg = Ret (opened t r))).
Proof.
  assert (Hopen : open t arg =
    match resulting_root t arg with
    | None => Ret t
    | Some r =>
        if negb (bool_decide (r = emptyRoot t)) then
          assert (bool_decide (length r = Hash.size (hash t)));;
          match db t with
          | None => Throw (Error "Cannot use root without database.")
          | Some store =>
              if negb (DB.has store r) then
                throw_MissingNodeError
                  (JObject [("rootHash", JBuffer r); ("nodeHash", JBuffer r)]%string)
              else Ret (opened t r)
          end
        else Ret t
    end).
  { unfold open, resulting_root, given_root, opened, hashNode.
    destruct arg; [destruct (db t) as [store|]; [cbn; destruct (DB.get store STATE_KEY)|] | |];
      reflexivity. }
  rewrite Hopen. split.
  - intros [-> | ->]; [done|]. by rewrite bool_decide_true.
  - intros r -> Hne. rewrite bool_decide_false by done. cbn [negb].
    repeat split.
    + intros Hlen. by rewrite bool_decide_false.
    + intros Hlen ->. by rewrite bool_decide_true.
    + intros Hlen. unfold in_store. rewrite bool_decide_true by done.
      destruct (db t); [|done]. by intros ->.
Qed.

Lemma open_by_cases_witness :
  open demo.stored (RootBuffer [xaa]) = Ret demo.loaded.
Proof.
  destruct (open_by_cases demo.stored (RootBuffer [xaa])) as [_ H].
  destruct (H [xaa]) as (_ & _ & Hok).
  - reflexivity.
  - vm_compute. discriminate.
  - apply Hok; reflexivity.
Defined.

(** C10: [open()] on a trie without a store, and [open(root)] with the
    empty root (as a Buffer or as its hex string), return without an error
    and leave the trie, [root], [originalRoot] and [cacheGen] included, as
    it was. *)
Theorem open_nothing_to_open (t : Trie) :
  (db t = None → open t RootAbsent = Ret t)
  ∧ open t (RootBuffer (emptyRoot t)) = Ret t
  ∧ (∀ s, from_hex s = emptyRoot t → open t (RootHex s) = Ret t).
Proof.
  repeat split.
  - intros Hdb. unfold open. by rewrite Hdb.
  - unfold open. by rewrite bool_decide_true.
  - intros s Hs. unfold open. rewrite Hs. by rewrite bool_decide_true.
Qed.

Lemma open_nothing_to_open_witness :
  open demo.fresh RootAbsent = Ret demo.fresh
  ∧ open demo.fresh (RootHex "01") = Ret demo.fresh.
Proof.
  destruct (open_nothing_to_open demo.fresh) as (H1 & _ & H3).
  split; [apply H1 | apply H3]; reflexivity.
Defined.

Section hashing.

Variable encode : node → Buffer.
Variable Hasher_hashRoot :
  Hash.t → nat → nat → node → option Batch.t → bool → Buffer * node * Batch.t.

(** C8: on a freshly constructed trie [rootHash()] returns the empty
    root, which is [hash(encode(Null))], and leaves the trie as it was;
    the answer does not involve the Hasher. *)
Theorem rootHash_fresh (h : Hash.t) (d : option DB.t) (limit : option nat) :
  let t := new_Trie encode h d limit in
  rootHash Hasher_hashRoot t None = (Raw (emptyRoot t), t)
  ∧ emptyRoot t = Hash.digest h (encode NIL).
Proof. split; reflexivity. Qed.

(** C6, amended: [commit(batch)] hashes the root with the batch, through
    the Hasher when the root is not Null and by the shortcut (the empty
    root, the Null tree, no write, no Hasher) when it is; it then writes
    [(STATE_KEY, digest)] into the batch, sets [originalRoot] to the
    digest, [root] to the cached tree, adds 1 to [cacheGen] and returns the
    digest. *)
Theorem commit_by_cases (t : Trie) (batch : Batch.t) :
  ∃ h cached writes t',
    (h, cached, writes)
    = (if isNull (root t) then (emptyRoot t, NIL, [])
       else Hasher_hashRoot (hash t) (cacheGen t) (cacheLimit t) (root t)
              (Some batch) true)
    ∧ commit Hasher_hashRoot t batch None
      = (Raw h, t', batch ++ writes ++ [(STATE_KEY, h)])
    ∧ originalRoot t' = h ∧ root t' = cached ∧ cacheGen t' = cacheGen t + 1
    ∧ hash t' = hash t ∧ emptyRoot t' = emptyRoot t ∧ db t' = db t
    ∧ cacheLimit t' = cacheLimit t.
Proof.
  unfold commit, hashRoot.
  destruct (isNull (root t)).
  - eexists _, _, _, _. split; [reflexivity|].
    unfold Batch.put. rewrite <- (assoc_L (++)). repeat split.
  - destruct (Hasher_hashRoot _ _ _ _ _ _) as [[h cached] writes].
    eexists _, _, _, _. split; [reflexivity|].
    unfold Batch.put. rewrite <- (assoc_L (++)). repeat split.
Qed.

End hashing.

(** C6, as stated, fails: committing the empty trie does not go through
    the Hasher, so the writes the Hasher would put into the batch are not
    there. *)
Lemma commit_as_specified_fails : ¬ commit_as_specified.
Proof.
  intros H. specialize (H demo.Hasher_hashRoot demo.fresh []).
  vm_compute in H. discriminate H.
Qed.

(** ** Reading outcomes *)

Lemma bind_Ret {A B} (m : outcome A) (f : A → outcome B) (b : B) :
  m ≫= f = Ret b → ∃ a, m = Ret a ∧ f a = Ret b.
Proof. destruct m; cbn; [eauto | discriminate | discriminate]. Qed.

Lemma assert_Ret (b : bool) (u : unit) : assert b = Ret u → b = true.
Proof. destruct b; [done | discriminate]. Qed.

Lemma assert_true (P : Prop) `{Decision P} :
  P → assert (bool_decide P) = Ret tt.
Proof. intros HP. by rewrite bool_decide_true. Qed.

Lemma isNull_true (n : node) : isNull n = true → n = NIL.
Proof. by destruct n. Qed.

(** Splits a hypothesis [m ≫= f = Ret b] into the two steps. *)
Ltac bind_inv H :=
  let a := fresh "a" in
  let H1 := fresh H in
  apply bind_Ret in H; destruct H as (a & H1 & H); cbv beta in H.

(** ** The scan of the slots *)

Lemma scan_all_null l slots idx :
  (∀ i, i ∈ slots → l !! i = Some NIL) → scan l slots idx = Ret idx.
Proof.
  induction slots as [|h rest IH]; intros Hall; [done|].
  cbn. rewrite (Hall h) by set_solver. cbn.
  apply IH. intros i Hi. apply Hall. set_solver.
Qed.

Lemma scan_after_first l slots (j : nat) :
  (∀ i, i ∈ slots → is_Some (l !! i)) →
  ∃ r, scan l slots (Z.of_nat j) = Ret r
       ∧ ((r = (-2)%Z ∧ ∃ a, a ∈ slots ∧ occupied l a)
          ∨ (r = Z.of_nat j ∧ ∀ i, i ∈ slots → l !! i = Some NIL)).
Proof.
  induction slots as [|h rest IH]; intros Hdef.
  - eexists; split; [done|]. right. split; [done|]. set_solver.
  - destruct (Hdef h) as [c Hc]; [set_solver|].
    cbn. rewrite Hc. destruct (isNull c) eqn:Hnull; cbn.
    + apply isNull_true in Hnull as ->.
      destruct IH as (r & Hr & Hcase); [set_solver|].
      exists r. split; [done|].
      destruct Hcase as [(-> & a & Ha & Hocc) | (-> & Hall)].
      * left. split; [done|]. exists a. set_solver.
      * right. split; [done|]. intros i [->|Hi]%elem_of_cons; auto.
    + rewrite bool_decide_false by lia.
      eexists; split; [done|]. left. split; [done|].
      exists h. split; [set_solver|]. by exists c.
Qed.

Lemma scan_from_start l slots :
  NoDup slots →
  (∀ i, i ∈ slots → is_Some (l !! i)) →
  ∃ r, scan l slots (-1)%Z = Ret r
       ∧ ((r = (-1)%Z ∧ ∀ i, i ∈ slots → l !! i = Some NIL)
          ∨ (r = (-2)%Z ∧ ∃ a b, a ∈ slots ∧ b ∈ slots ∧ a ≠ b
                               ∧ occupied l a ∧ occupied l b)
          ∨ (∃ j, r = Z.of_nat j ∧ j ∈ slots ∧ occupied l j
                  ∧ ∀ i, i ∈ slots → i ≠ j → l !! i = Some NIL)).
Proof.
  induction slots as [|h rest IH]; intros Hnd Hdef.
  - eexists; split; [done|]. left. split; [done|]. set_solver.
  - apply NoDup_cons in Hnd as [Hh Hnd].
    destruct (Hdef h) as [c Hc]; [set_solver|].
    cbn. rewrite Hc. destruct (isNull c) eqn:Hnull; cbn.
    + apply isNull_true in Hnull as ->.
      destruct IH as (r & Hr & Hcase); [done|set_solver|].
      exists r. split; [done|].
      destruct Hcase as [(-> & Hall) | [(-> & a & b & ?) | (j & -> & Hj & Hocc & Hall)]].
      * left. split; [done|]. intros i [->|Hi]%elem_of_cons; auto.
      * right; left. split; [done|]. exists a, b. set_solver.
      * right; right. exists j. repeat split; [set_solver|done|].
        intros i [->|Hi]%elem_of_cons ?; auto.
    + destruct (scan_after_first l rest h) as (r & Hr & Hcase); [set_solver|].
      exists r. split; [done|].
      destruct Hcase as [(-> & a & Ha & Hocc) | (-> & Hall)].
      * right; left. split; [done|]. exists h, a.
        repeat split; [set_solver|set_solver|set_solver|by exists c|done].
      * right; right. exists h. repeat split; [set_solver|by exists c|].
        intros i [->|Hi]%elem_of_cons ?; [done|auto].
Qed.

Lemma occupied_not_null l j : occupied l j → l !! j ≠ Some NIL.
Proof. intros (c & Hc & Hnull) Hj. rewrite Hj in Hc. by simplify_eq. Qed.

(** On 17 slots the scan finds none (-1), the one (its index) or more
    than one (-2). *)
Lemma scan_slots l :
  length l = 17 →
  ∃ r, scan l (seq 0 17) (-1)%Z = Ret r
       ∧ ((r = (-1)%Z ∧ ∀ i, i < 17 → l !! i = Some NIL)
          ∨ (r = (-2)%Z ∧ several_occupants l)
          ∨ (∃ j, r = Z.of_nat j ∧ sole_occupant l j)).
Proof.
  intros Hlen.
  destruct (scan_from_start l (seq 0 17)) as (r & Hr & Hcase).
  - apply NoDup_seq.
  - intros i [_ Hi]%elem_of_seq. apply lookup_lt_is_Some. lia.
  - exists r. split; [done|].
    destruct Hcase as [(-> & Hall) | [(-> & a & b & Ha & Hb & ?) | (j & -> & Hj & Hocc & Hall)]].
    + left. split; [done|]. intros i Hi. apply Hall, elem_of_seq. lia.
    + right; left. split; [done|]. exists a, b.
      apply elem_of_seq in Ha, Hb. naive_solver lia.
    + right; right. exists j. split; [done|].
      apply elem_of_seq in Hj. repeat split; [lia|done|].
      intros i Hi Hne. apply Hall; [|done]. apply elem_of_seq. lia.
Qed.

Lemma scan_sole_occupant l j :
  length l = 17 → sole_occupant l j → scan l (seq 0 17) (-1)%Z = Ret (Z.of_nat j).
Proof.
  intros Hlen (Hj & Hocc & Hall).
  destruct (scan_slots l Hlen) as (r & Hr & Hcase). rewrite Hr. f_equal.
  destruct Hcase as [(-> & Hnull) | [(-> & a & b & Ha & Hb & Hab & Hoa & Hob) | (j' & -> & Hj' & Hocc' & Hall')]].
  - by apply occupied_not_null in Hocc; rewrite Hnull in Hocc.
  - apply occupied_not_null in Hoa, Hob.
    destruct (decide (a = j)) as [->|]; [|by rewrite Hall in Hoa].
    by rewrite Hall in Hob.
  - destruct (decide (j' = j)) as [->|]; [done|].
    apply occupied_not_null in Hocc'. by rewrite Hall in Hocc'.
Qed.

Lemma scan_several_occupants l :
  length l = 17 → several_occupants l → scan l (seq 0 17) (-1)%Z = Ret (-2)%Z.
Proof.
  intros Hlen (a & b & Ha & Hb & Hab & Hoa & Hob).
  destruct (scan_slots l Hlen) as (r & Hr & Hcase). rewrite Hr. f_equal.
  apply occupied_not_null in Hoa, Hob.
  destruct Hcase as [(-> & Hnull) | [(-> & _) | (j & -> & Hj & Hocc & Hall)]].
  - by rewrite Hnull in Hoa.
  - done.
  - destruct (decide (a = j)) as [->|]; [|by rewrite Hall in Hoa].
    by rewrite Hall in Hob.
Qed.

(** The scan is reasoned about through the lemmas above, never unrolled. *)
#[local] Arguments scan : simpl never.
#[local] Arguments seq : simpl never.

(** ** Frames of the recursive walks *)

Section walks.

Variable decodeNode : Buffer → Hash.t → outcome node.

Lemma resolveHash_Ret (t : Trie) data key pos rn :
  resolveHash decodeNode t data key pos = Ret rn
  ↔ decoded_from_store decodeNode t (HashNode data) rn.
Proof.
  unfold resolveHash, decoded_from_store. split.
  - destruct (db t) as [store|]; [|discriminate].
    destruct (DB.get store data) as [raw|] eqn:Hraw; [|discriminate].
    intros Hdec. by exists data, store, raw.
  - intros (data' & store & raw & [= <-] & -> & -> & Hdec). done.
Qed.

Lemma resolveHash_set_root (t : Trie) r data key pos :
  resolveHash decodeNode (set_root t r) data key pos
  = resolveHash decodeNode t data key pos.
Proof. reflexivity. Qed.

(** The store and the hash decide what a lookup walks through, the
    in-memory root does not. *)
Lemma _get_set_root fuel (t : Trie) r n key pos :
  _get decodeNode fuel (set_root t r) n key pos = _get decodeNode fuel t n key pos.
Proof.
  revert n pos. induction fuel as [|fuel IH]; intros n pos; [done|].
  cbn [_get]. destruct (assert _) as [[]| |]; cbn; [|done|done].
  destruct n as [|data|k v fl|cs fl|data]; try done.
  - rewrite resolveHash_set_root.
    destruct (resolveHash _ _ _ _ _); cbn; [|done|done]. by rewrite IH.
  - destruct (negb _); [done|]. by rewrite IH.
  - destruct (key !! pos ≫= _) as [[i c]|]; [|done]. by rewrite IH.
Qed.

(** C7: when the remove walk reports [found = false] the node it returns
    is the node it was given, and for a Hash node the node the store
    decodes for its digest: no slot is reassigned, no key rewritten and no
    node collapsed. *)
Theorem remove_not_found_same_subtree fuel (t : Trie) n key pos nn :
  _remove decodeNode fuel t n key pos = Ret (false, nn) →
  same_subtree decodeNode t n nn.
Proof.
  destruct fuel as [|fuel]; [discriminate|].
  cbn [_remove]. intros H. bind_inv H. clear H0.
  destruct n as [|data|k v fl|cs fl|data].
  - injection H as <-. by left.
  - bind_inv H. destruct (_remove _ _ _ _ _ _) as [[[] nn']| |]; cbn in H;
      [discriminate| |discriminate|discriminate].
    injection H as <-. right. by apply (resolveHash_Ret t data key pos).
  - case_bool_decide; [by injection H as <-; left|].
    case_bool_decide; [discriminate|].
    destruct (_remove _ _ _ _ _ _) as [[[] nn']| |]; cbn in H;
      [|by injection H as <-; left|discriminate|discriminate].
    destruct nn'; discriminate.
  - destruct (key !! pos ≫= _) as [[i c]|].
    + destruct (_remove _ _ _ _ _ _) as [[[] nn']| |]; cbn in H;
        [|by injection H as <-; left|discriminate|discriminate].
      bind_inv H. case_bool_decide; [|discriminate].
      destruct (_ !! Z.to_nat a0) as [slot|]; [|discriminate].
      case_bool_decide; cbn in H; [discriminate|].
      bind_inv H. destruct a1; discriminate.
    + unfold undefined_node in H. bind_inv H. discriminate.
  - discriminate.
Qed.

Lemma same_answers_decoded (t : Trie) data nn :
  root t = HashNode data →
  decoded_from_store decodeNode t (HashNode data) nn →
  same_answers decodeNode t nn.
Proof.
  intros Hroot Hdec fuel key. unfold get.
  rewrite Hroot. cbn [root set_root _get].
  rewrite _get_set_root.
  rewrite assert_true by lia. cbn.
  apply (resolveHash_Ret t data (common.toNibbles key) 0) in Hdec.
  rewrite Hdec. cbn.
  destruct (_get _ _ _ _ _ _) as [[[val r] res]| |]; done.
Qed.

Lemma _insert_hash_unchanged fuel (t : Trie) data key pos value nn :
  length key - pos ≠ 0 →
  _insert decodeNode fuel t (HashNode data) key pos value = Ret (false, nn) →
  decoded_from_store decodeNode t (HashNode data) nn.
Proof.
  intros Hlen H. destruct fuel as [|fuel]; [discriminate|].
  cbn [_insert] in H. bind_inv H. clear H0.
  rewrite bool_decide_false in H by done.
  bind_inv H. apply resolveHash_Ret in H0.
  destruct (_insert _ _ _ _ _ _ _) as [[[] nn']| |]; cbn in H;
    [discriminate| |discriminate|discriminate].
  by injection H as <-.
Qed.

Lemma _remove_hash_not_found fuel (t : Trie) data key pos nn :
  _remove decodeNode fuel t (HashNode data) key pos = Ret (false, nn) →
  decoded_from_store decodeNode t (HashNode data) nn.
Proof.
  intros H. destruct fuel as [|fuel]; [discriminate|].
  cbn [_remove] in H. bind_inv H. clear H0. bind_inv H.
  apply resolveHash_Ret in H0.
  destruct (_remove _ _ _ _ _ _) as [[[] nn']| |]; cbn in H;
    [discriminate| |discriminate|discriminate].
  by injection H as <-.
Qed.

(** C9: through a Hash root, an [insert] that changes nothing and a
    [remove] that finds nothing still set [root] to the node decoded from
    the store for that digest, and lookups answer as before. *)
Theorem hash_root_materialized fuel (t : Trie) data key value nn :
  root t = HashNode data →
  (_insert decodeNode fuel t (root t) (common.toNibbles key) 0 (ValueNode value)
   = Ret (false, nn) →
   decoded_from_store decodeNode t (root t) nn
   ∧ insert decodeNode fuel t key value = Ret (set_root t nn)
   ∧ same_answers decodeNode t nn)
  ∧ (_remove decodeNode fuel t (root t) (common.toNibbles key) 0 = Ret (false, nn) →
     decoded_from_store decodeNode t (root t) nn
     ∧ remove decodeNode fuel t key = Ret (set_root t nn)
     ∧ same_answers decodeNode t nn).
Proof.
  intros Hroot.
  assert (Hlen : length (common.toNibbles key) - 0 ≠ 0).
  { unfold common.toNibbles. rewrite length_app. cbn. lia. }
  split; intros H.
  - assert (Hdec : decoded_from_store decodeNode t (HashNode data) nn).
    { rewrite Hroot in H. by eapply _insert_hash_unchanged. }
    rewrite Hroot at 1. split; [done|]. split.
    + unfold insert, valueNode. by rewrite H.
    + by eapply same_answers_decoded.
  - assert (Hdec : decoded_from_store decodeNode t (HashNode data) nn).
    { rewrite Hroot in H. by eapply _remove_hash_not_found. }
    rewrite Hroot at 1. split; [done|]. split.
    + unfold remove. by rewrite H.
    + by eapply same_answers_decoded.
Qed.

End walks.

Section collapse.

Variable decodeNode : Buffer → Hash.t → outcome node.

(** The Full frame of [_remove] once the child reported [found]: the
    slot is reassigned on the clone and the scan decides. *)
Lemma _remove_full_found fuel (t : Trie) cs fl key pos i c nn :
  key !! pos = Some i →
  cs !! i = Some c →
  _remove decodeNode fuel t c key (pos + 1) = Ret (true, nn) →
  _remove decodeNode (S fuel) t (FullNode cs fl) key pos
  = (index ← scan (<[i := nn]> cs) (seq 0 17) (-1)%Z;
     if bool_decide (0 ≤ index)%Z then
       match <[i := nn]> cs !! Z.to_nat index with
       | None => Throw TypeError
       | Some slot =>
           if negb (bool_decide (Z.to_nat index = 16)) then
             child ← resolve decodeNode t slot key (Z.to_nat index);
             match child with
             | ShortNode ck cv _ =>
                 Ret (true, shortNode t (common.concat (common.byte (Z.to_nat index)) ck) cv)
             | _ => Ret (true, shortNode t (common.byte (Z.to_nat index)) slot)
             end
           else Ret (true, shortNode t (common.byte (Z.to_nat index)) slot)
       end
     else Ret (true, FullNode (<[i := nn]> cs) (touch fl))).
Proof.
  intros Hkey Hc Hrem. cbn [_remove].
  rewrite assert_true by (apply lookup_lt_Some in Hkey; lia).
  cbn. rewrite Hkey. cbn. rewrite Hc. cbn. rewrite Hrem. reflexivity.
Qed.

(** C3: in the Full frame of [_remove], after the child reported
    [found] and its slot was reassigned: if slot 16 is the only one that
    is not Null the node collapses to [Short([16], children[16])]; if a
    slot [j < 16] is the only one, the child is the slot itself or, for a
    Hash slot, the node that the store holds and decodes for its digest,
    and the node collapses to [Short([j] ++ child.key, child.value)] when
    the child is a Short and to [Short([j], children[j])] otherwise; the
    Short node carries new flags: the generation of the trie, dirty, no
    cached hash.  If two or more slots are not Null the clone is returned
    with the slot reassigned, its generation kept, its cached hash cleared
    and marked dirty. *)
Theorem remove_full_collapse fuel (t : Trie) cs fl key pos i c nn :
  key !! pos = Some i →
  cs !! i = Some c →
  length cs = 17 →
  _remove decodeNode fuel t c key (pos + 1) = Ret (true, nn) →
  let cs' := <[i := nn]> cs in
  let result := _remove decodeNode (S fuel) t (FullNode cs fl) key pos in
  let made := Build_NodeFlags (cacheGen t) true None in
  (sole_occupant cs' 16 →
   ∃ slot, cs' !! 16 = Some slot ∧ result = Ret (true, ShortNode [16] slot made))
  ∧ (∀ j slot child,
       sole_occupant cs' j → j < 16 → cs' !! j = Some slot →
       ((∀ data, slot ≠ HashNode data) ∧ child = slot)
       ∨ (∃ data store raw,
            slot = HashNode data ∧ db t = Some store
            ∧ DB.get store data = Some raw
            ∧ decodeNode raw (hash t) = Ret child) →
       (∀ ck cv cfl,
          child = ShortNode ck cv cfl →
          result = Ret (true, ShortNode (j :: ck) cv made))
       ∧ ((∀ ck cv cfl, child ≠ ShortNode ck cv cfl) →
          result = Ret (true, ShortNode [j] slot made)))
  ∧ (several_occupants cs' →
     result = Ret (true, FullNode cs' (Build_NodeFlags (gen fl) true None))).
Proof.
  intros Hkey Hc Hlen Hrem cs' result made.
  assert (Hlen' : length cs' = 17) by (unfold cs'; by rewrite length_insert).
  assert (Hres := _remove_full_found fuel t cs fl key pos i c nn Hkey Hc Hrem).
  fold cs' result in Hres.
  assert (Hsole : ∀ j slot, sole_occupant cs' j → cs' !! j = Some slot →
            result
            = if negb (bool_decide (j = 16)) then
                child ← resolve decodeNode t slot key j;
                match child with
                | ShortNode ck cv _ => Ret (true, ShortNode (j :: ck) cv made)
                | _ => Ret (true, ShortNode [j] slot made)
                end
              else Ret (true, ShortNode [j] slot made)).
  { intros j slot Hj Hslot.
    rewrite Hres, (scan_sole_occupant cs' j Hlen' Hj). cbn -[Z.of_nat Z.to_nat].
    rewrite bool_decide_true by lia. by rewrite Nat2Z.id, Hslot. }
  split; [|split].
  - intros Hj. pose proof Hj as (_ & (slot & Hslot & _) & _).
    exists slot. split; [done|]. by rewrite (Hsole 16 slot Hj Hslot).
  - intros j slot child Hj Hlt Hslot Hchild. rewrite (Hsole j slot Hj Hslot).
    rewrite bool_decide_false by lia. cbn -[resolve].
    assert (Hresolve : resolve decodeNode t slot key j = Ret child).
    { destruct Hchild as [[Hnot ->]|(data & store & raw & -> & Hdb & Hget & Hdec)].
      - destruct slot; try done. by destruct (Hnot data).
      - unfold resolve, resolveHash. by rewrite Hdb, Hget. }
    rewrite Hresolve. cbn. split.
    + by intros ck cv cfl ->.
    + intros Hnot. destruct child; try done. by destruct (Hnot key0 child flags0).
  - intros Hseveral.
    by rewrite Hres, (scan_several_occupants cs' Hlen' Hseveral).
Qed.

End collapse.

(** ** Nibble paths *)

Lemma key_path_cons x s :
  key_path (x :: s) → (x = 16 ∧ s = []) ∨ (x < 16 ∧ key_path s).
Proof.
  intros (body & Hs & Hbody). destruct body as [|y body]; cbn in Hs.
  - injection Hs as -> ->. by left.
  - injection Hs as -> ->. apply Forall_cons in Hbody as [Hy Hbody].
    right. split; [done|]. by exists body.
Qed.

Lemma key_path_nonempty s : key_path s → s ≠ [].
Proof. intros (body & -> & _). by destruct body. Qed.

Lemma key_path_app k s : key_path (k ++ s) → Forall (λ x, x < 16) k → key_path s.
Proof.
  induction k as [|x k IH]; cbn; [done|].
  intros [[-> _]|[_ Hks]]%key_path_cons [Hx Hk]%Forall_cons; [lia|auto].
Qed.

Lemma key_path_leaf body s : key_path ((body ++ [16]) ++ s) → s = [].
Proof.
  induction body as [|x body IH]; cbn.
  - by intros [[_ ->]|[? _]]%key_path_cons; [|lia].
  - intros [[_ Hnil]|[_ Hks]]%key_path_cons; [|auto].
    by destruct body.
Qed.

Lemma key_path_ext k : key_path k → Forall (λ x, x < 16) k → False.
Proof.
  intros (body & -> & _) Hk. apply Forall_app in Hk as [_ Hk].
  apply Forall_cons in Hk as [Hk _]. lia.
Qed.

Lemma key_path_of_leaf body : Forall (λ x, x < 16) body → key_path (body ++ [16]).
Proof. intros Hbody. by exists body. Qed.

Lemma drop_cons_inv (key : nibbles) pos x s :
  drop pos key = x :: s →
  key !! pos = Some x ∧ drop (pos + 1) key = s ∧ pos < length key
  ∧ length key - pos = S (length s).
Proof.
  intros Hs. repeat split.
  - rewrite <- (Nat.add_0_r pos), <- lookup_drop. by rewrite Hs.
  - by rewrite <- drop_drop, Hs.
  - destruct (decide (pos < length key)); [done|].
    rewrite drop_ge in Hs by lia. done.
  - by rewrite <- length_drop, Hs.
Qed.

Lemma drop_app_inv (key : nibbles) pos k s :
  pos ≤ length key →
  drop pos key = k ++ s →
  drop (pos + length k) key = s ∧ pos + length k ≤ length key.
Proof.
  intros Hpos Hs. split.
  - by rewrite <- drop_drop, Hs, drop_app_length.
  - assert (length (drop pos key) = length k + length s) as Hlen
      by (by rewrite Hs, length_app).
    rewrite length_drop in Hlen. lia.
Qed.

Lemma startsWith_true key k pos :
  common.startsWith key k pos = true ↔ ∃ r, drop pos key = k ++ r.
Proof.
  unfold common.startsWith. rewrite andb_true_iff, !bool_decide_eq_true. split.
  - intros [_ Htake]. exists (drop (length k) (drop pos key)).
    by rewrite <- Htake at 1; rewrite take_drop.
  - intros [r Hr]. rewrite Hr, take_app_length. split; [|done].
    rewrite <- length_drop, Hr, length_app. lia.
Qed.

Lemma common_len_spec a b :
  ∃ p a' b',
    a = p ++ a' ∧ b = p ++ b' ∧ common.common_len a b = length p
    ∧ match a', b' with
      | x :: _, y :: _ => x ≠ y
      | _, _ => True
      end.
Proof.
  revert b. induction a as [|x a IH]; intros b.
  - by exists [], [], b.
  - destruct b as [|y b]; [by exists [], (x :: a), []|].
    cbn. case_bool_decide as Hxy.
    + subst y. destruct (IH b) as (p & a' & b' & -> & -> & -> & Hdiff).
      by exists (x :: p), a', b'.
    + by exists [], (x :: a), (y :: b).
Qed.

Lemma common_len_prefix k r : common.common_len (k ++ r) k = length k.
Proof.
  induction k as [|x k IH]; cbn; [by destruct r|].
  by rewrite bool_decide_true, IH.
Qed.

(** The remainder of a key, or of a Short node's key, below the branch
    that a split builds: the node itself when nothing remains. *)
Lemma _insert_NIL decodeNode fuel (t : Trie) key pos value :
  pos ≤ length key →
  _insert decodeNode (S fuel) t NIL key pos value
  = Ret (true, if bool_decide (length key - pos = 0) then value
               else shortNode t (drop pos key) value).
Proof.
  intros Hpos. cbn [_insert]. rewrite assert_true by done. cbn.
  by case_bool_decide.
Qed.

(** ** What a subtree answers *)

Lemma maps_NIL s d : maps NIL s d ↔ False.
Proof. split; [inversion 1 | done]. Qed.

Lemma maps_value_iff x s d : maps (ValueNode x) s d ↔ s = [] ∧ d = x.
Proof.
  split; [by inversion 1 | intros [-> ->]; constructor].
Qed.

Lemma maps_short_iff k c fl s d :
  maps (ShortNode k c fl) s d ↔ ∃ r, s = k ++ r ∧ maps c r d.
Proof.
  split; [inversion 1; eauto | intros (r & -> & Hr); by constructor].
Qed.

Lemma maps_full_iff l fl s d :
  maps (FullNode l fl) s d ↔ ∃ i c r, s = i :: r ∧ l !! i = Some c ∧ maps c r d.
Proof.
  split; [inversion 1; eauto 6 | intros (i & c & r & -> & Hc & Hr); by econstructor].
Qed.

(** ** The engine without a store *)

Section no_store.

Variable decodeNode : Buffer → Hash.t → outcome node.
Variable t : Trie.
Hypothesis no_db : db t = None.

#[local] Abbreviation wf := (wf decodeNode t).
#[local] Abbreviation wf_at := (wf_at decodeNode t).

Lemma wf_not_hash data : ¬ wf (HashNode data).
Proof.
  inversion 1 as [| | | |? ? (? & store & ? & _ & Hdb & _)]. congruence.
Qed.

Lemma wf_not_value data : ¬ wf (ValueNode data).
Proof. inversion 1. Qed.

Lemma wf_short_inv k c fl :
  wf (ShortNode k c fl) →
  (∃ body d, k = body ++ [16] ∧ Forall (λ x, x < 16) body ∧ c = ValueNode d)
  ∨ (k ≠ [] ∧ Forall (λ x, x < 16) k ∧ wf c).
Proof. inversion 1; subst; [left; eauto | right; eauto]. Qed.

Lemma wf_full_inv l fl :
  wf (FullNode l fl) →
  length l = 17
  ∧ ∀ i, i ≤ 16 → ∃ c, l !! i = Some c ∧ wf_at (bool_decide (i = 16)) c.
Proof.
  inversion 1 as [| | |? ? Hlen Hslots Hlast|]; subst. split; [done|].
  intros i Hi. destruct (lookup_lt_is_Some_2 l i) as [c Hc]; [lia|].
  exists c. split; [done|]. case_bool_decide as Hi16; cbn.
  - subst i. by apply Hlast.
  - apply (Hslots i); [lia|done].
Qed.

Lemma wf_full_intro l fl :
  length l = 17 →
  (∀ i c, i ≤ 16 → l !! i = Some c → wf_at (bool_decide (i = 16)) c) →
  wf (FullNode l fl).
Proof.
  intros Hlen Hslots. constructor; [done| |].
  - intros i c Hi Hc. specialize (Hslots i c). rewrite bool_decide_false in Hslots by lia.
    apply Hslots; [lia|done].
  - intros c Hc. by apply (Hslots 16 c).
Qed.

(** The child of a Full node that a key path selects, and what remains
    of the path below it. *)
Lemma path_at_child x s :
  key_path (x :: s) → x ≤ 16 ∧ path_at (bool_decide (x = 16)) s.
Proof.
  intros [[-> ->]|[Hx Hs]]%key_path_cons.
  - by rewrite bool_decide_true.
  - rewrite bool_decide_false by lia. split; [lia|done].
Qed.

(** A lookup along a key path finds what the subtree answers for it,
    and leaves the tree as it is. *)
Lemma _get_spec fuel :
  ∀ b n key pos s,
    wf_at b n → path_at b s → drop pos key = s → pos ≤ length key →
    length s < fuel →
    ∃ o, _get decodeNode fuel t n key pos = Ret (o, n, false)
         ∧ ∀ d, o = Some d ↔ maps n s d.
Proof.
  induction fuel as [|fuel IH]; intros b n key pos s Hwf Hpath Hs Hpos Hfuel; [lia|].
  cbn [_get]. rewrite assert_true by done. cbn.
  destruct b; cbn in Hwf, Hpath.
  - subst s. destruct Hwf as [->|Hv].
    + exists None. split; [done|]. intros d. rewrite maps_NIL. naive_solver.
    + destruct n; try done. exists (Some data). split; [done|].
      intros d. rewrite maps_value_iff. naive_solver.
  - destruct n as [|data|k c fl|l fl|data].
    + exists None. split; [done|]. intros d. rewrite maps_NIL. naive_solver.
    + by apply wf_not_hash in Hwf.
    + destruct (common.startsWith key k pos) eqn:Hsw; cbn.
      * apply startsWith_true in Hsw as [r Hr].
        assert (s = k ++ r) as -> by congruence. clear Hr.
        destruct (drop_app_inv _ _ _ _ Hpos Hs) as [Hdrop Hle].
        assert (∃ b', wf_at b' c ∧ path_at b' r ∧ k ≠ []) as (b' & Hc & Hr & Hk).
        { apply wf_short_inv in Hwf
            as [(body & d0 & -> & Hbody & ->) | (Hk & Hall & Hc)].
          - exists true. apply key_path_leaf in Hpath as ->.
            cbn. split; [by right|]. split; [done|]. by destruct body.
          - exists false. split; [done|]. split; [|done].
            by eapply key_path_app. }
        destruct (IH b' c key (pos + length k) r) as (o & Ho & Hmaps); try done.
        { rewrite length_app in Hfuel. destruct k; [done|]. cbn in Hfuel. lia. }
        rewrite Ho. cbn. exists o. split; [done|].
        intros d. rewrite Hmaps, maps_short_iff. split; [eauto|].
        by intros (r' & ->%app_inv_head & ?).
      * exists None. split; [done|]. intros d. split; [done|].
        rewrite maps_short_iff. intros (r & Hr & _). rewrite <- Hs in Hr.
        assert (common.startsWith key k pos = true) by (apply startsWith_true; eauto).
        congruence.
    + destruct s as [|x s]; [by apply key_path_nonempty in Hpath|].
      destruct (drop_cons_inv _ _ _ _ Hs) as (Hx & Hdrop & Hlt & Hlen).
      apply wf_full_inv in Hwf as [Hl Hslots].
      apply path_at_child in Hpath as [Hx16 Hpath].
      destruct (Hslots x Hx16) as (c & Hc & Hcwf).
      rewrite Hx. cbn. rewrite Hc. cbn.
      destruct (IH _ c key (pos + 1) s Hcwf Hpath) as (o & Ho & Hmaps);
        [done|lia|cbn in Hfuel; lia|].
      rewrite Ho. cbn. exists o. split; [done|].
      intros d. rewrite Hmaps, maps_full_iff. split; [eauto 6|].
      intros (i & c' & r & [= <- <-] & Hc' & ?). by simplify_eq.
    + by apply wf_not_value in Hwf.
Qed.

Lemma wf_at_NIL b : wf_at b NIL.
Proof. destruct b; [by left | constructor]. Qed.

(** The leaf a split or an insert into the empty subtree builds for the
    rest [r] of the key below the nibble [x]. *)
Lemma tail_value x r v :
  key_path (x :: r) →
  let n2 := if bool_decide (length r = 0) then ValueNode v
            else shortNode t r (ValueNode v) in
  wf_at (bool_decide (x = 16)) n2 ∧ ∀ s d, maps n2 s d ↔ s = r ∧ d = v.
Proof.
  intros [[-> ->]|[Hx Hr]]%key_path_cons; cbn.
  - split; [by right|]. intros s d. apply maps_value_iff.
  - rewrite !bool_decide_false by (try lia; by destruct r; [apply key_path_nonempty in Hr|]).
    split.
    + destruct Hr as (body & -> & Hbody). by constructor.
    + intros s d. unfold shortNode. rewrite maps_short_iff.
      setoid_rewrite maps_value_iff. split.
      * intros (r' & -> & -> & ->). by rewrite app_nil_r.
      * intros [-> ->]. exists []. by rewrite app_nil_r.
Qed.

(** What a split keeps of a Short node below the nibble [y] of its key. *)
Lemma tail_child k1 y k2 c fl :
  wf (ShortNode (k1 ++ y :: k2) c fl) →
  let n1 := if bool_decide (length k2 = 0) then c else shortNode t k2 c in
  y ≤ 16 ∧ wf_at (bool_decide (y = 16)) n1
  ∧ (∀ s d, maps n1 s d ↔ ∃ r, s = k2 ++ r ∧ maps c r d)
  ∧ Forall (λ x, x < 16) k1 ∧ (k2 ≠ [] → y < 16).
Proof.
  intros Hwf n1.
  assert (Hmaps : ∀ s d, maps n1 s d ↔ ∃ r, s = k2 ++ r ∧ maps c r d).
  { intros s d. unfold n1. case_bool_decide as Hk2.
    - destruct k2; [|done]. cbn. naive_solver.
    - unfold shortNode. apply maps_short_iff. }
  assert (y ≤ 16 ∧ wf_at (bool_decide (y = 16)) n1
          ∧ Forall (λ x, x < 16) k1 ∧ (k2 ≠ [] → y < 16)); [|naive_solver].
  apply wf_short_inv in Hwf as [(body & d0 & Hk & Hbody & ->) | (Hk & Hall & Hc)].
  - destruct (decide (k2 = [])) as [->|Hk2].
    + apply app_inj_tail in Hk as [-> ->]. unfold n1. cbn.
      split; [lia|]. split; [by right|done].
    + destruct (exists_last Hk2) as (k2' & z & ->).
      change (k1 ++ y :: k2' ++ [z]) with (k1 ++ (y :: k2') ++ [z]) in Hk.
      rewrite app_assoc in Hk. apply app_inj_tail in Hk as [<- ->].
      apply Forall_app in Hbody as [Hk1 [Hy Hk2']%Forall_cons].
      rewrite bool_decide_false by lia. split; [lia|]. split; [|done].
      unfold n1. rewrite bool_decide_false by (rewrite length_app; cbn; lia).
      by constructor.
  - apply Forall_app in Hall as [Hk1 [Hy Hk2]%Forall_cons].
    rewrite bool_decide_false by lia. split; [lia|]. split; [|done].
    unfold n1. case_bool_decide as Hlen; [done|].
    constructor; [by destruct k2|done|done].
Qed.

(** The branch a split builds: two slots of 17 empty ones. *)
Lemma branch_lookup x y n1 n2 i c :
  <[x := n2]> (<[y := n1]> (replicate 17 NIL)) !! i = Some c →
  (i = x ∧ c = n2) ∨ (i = y ∧ c = n1) ∨ c = NIL.
Proof.
  intros Hc. apply list_lookup_insert_Some in Hc as [(-> & -> & _)|[Hix Hc]]; [by left|].
  apply list_lookup_insert_Some in Hc as [(-> & -> & _)|[Hiy Hc]]; [right; by left|].
  apply lookup_replicate in Hc as [-> _]. by right; right.
Qed.

Lemma branch_wf x y n1 n2 fl :
  wf_at (bool_decide (x = 16)) n2 → wf_at (bool_decide (y = 16)) n1 →
  wf (FullNode (<[x := n2]> (<[y := n1]> (replicate 17 NIL))) fl).
Proof.
  intros H2 H1. apply wf_full_intro.
  - by rewrite !length_insert, length_replicate.
  - intros i c _ [(-> & ->)|[(-> & ->)| ->]]%branch_lookup; [done|done|].
    apply wf_at_NIL.
Qed.

Lemma branch_maps x y n1 n2 fl s d :
  x ≠ y → x < 17 → y < 17 →
  maps (FullNode (<[x := n2]> (<[y := n1]> (replicate 17 NIL))) fl) s d
  ↔ (∃ r, s = x :: r ∧ maps n2 r d) ∨ (∃ r, s = y :: r ∧ maps n1 r d).
Proof.
  intros Hxy Hx Hy. rewrite maps_full_iff. split.
  - intros (i & c & r & -> & [(-> & ->)|[(-> & ->)| ->]]%branch_lookup & Hr);
      [left; eauto | right; eauto | by apply maps_NIL in Hr].
  - intros [(r & -> & Hr)|(r & -> & Hr)].
    + exists x, n2, r. split; [done|]. split; [|done].
      apply list_lookup_insert_eq. by rewrite length_insert, length_replicate.
    + exists y, n1, r. split; [done|]. split; [|done].
      rewrite list_lookup_insert_ne by done.
      apply list_lookup_insert_eq. by rewrite length_replicate.
Qed.

(** A Full node with one slot reassigned. *)
Lemma full_update_wf l fl fl' x nn :
  wf (FullNode l fl) → x ≤ 16 → wf_at (bool_decide (x = 16)) nn →
  wf (FullNode (<[x := nn]> l) fl').
Proof.
  intros [Hlen Hslots]%wf_full_inv Hx Hnn. apply wf_full_intro.
  - by rewrite length_insert.
  - intros i c Hi Hc.
    apply list_lookup_insert_Some in Hc as [(-> & -> & _)|[Hix Hc]]; [done|].
    destruct (Hslots i Hi) as (c' & Hc' & Hwf). by simplify_eq.
Qed.

Lemma full_update_maps l fl x nn s d :
  x < length l →
  maps (FullNode (<[x := nn]> l) fl) s d
  ↔ (∃ r, s = x :: r ∧ maps nn r d)
    ∨ (∃ i c r, s = i :: r ∧ i ≠ x ∧ l !! i = Some c ∧ maps c r d).
Proof.
  intros Hx. rewrite maps_full_iff. split.
  - intros (i & c & r & -> & Hc & Hr).
    apply list_lookup_insert_Some in Hc as [(-> & -> & _)|[Hix Hc]]; [left; eauto|].
    right. exists i, c, r. eauto.
  - intros [(r & -> & Hr)|(i & c & r & -> & Hix & Hc & Hr)].
    + exists x, nn, r. split; [done|]. split; [|done]. by apply list_lookup_insert_eq.
    + exists i, c, r. split; [done|]. split; [|done]. by rewrite list_lookup_insert_ne.
Qed.

(** The child of a Short node whose key a key path runs through. *)
Lemma short_child k c fl r :
  wf (ShortNode k c fl) → key_path (k ++ r) →
  ∃ b', wf_at b' c ∧ path_at b' r ∧ k ≠ []
        ∧ ∀ nn fl', wf_at b' nn → (b' = true → isValue nn = true) →
                    wf (ShortNode k nn fl').
Proof.
  intros [(body & d0 & -> & Hbody & ->) | (Hk & Hall & Hc)]%wf_short_inv Hpath.
  - exists true. apply key_path_leaf in Hpath as ->. cbn.
    split; [by right|]. split; [done|]. split; [by destruct body|].
    intros nn fl' _ Hnn. destruct nn; try by discriminate Hnn. by constructor.
  - exists false. split; [done|]. split; [by eapply key_path_app|]. split; [done|].
    intros nn fl' Hnn _. by constructor.
Qed.

(** An insert along a key path sets the answer for that path and no
    other, and keeps the shape. *)
Lemma _insert_spec fuel :
  ∀ b n key pos s v,
    wf_at b n → path_at b s → drop pos key = s → pos ≤ length key →
    length s < fuel →
    ∃ d n',
      _insert decodeNode fuel t n key pos (ValueNode v) = Ret (d, n')
      ∧ wf_at b n' ∧ (b = true → n' = ValueNode v) ∧ (d = false → n' = n)
      ∧ ∀ s' d', maps n' s' d' ↔ (s' = s ∧ d' = v) ∨ (s' ≠ s ∧ maps n s' d').
Proof.
  induction fuel as [|fuel IH]; intros b n key pos s v Hwf Hpath Hs Hpos Hfuel; [lia|].
  assert (Hlen : length key - pos = length s) by (by rewrite <- Hs, length_drop).
  cbn [_insert]. rewrite assert_true by done. cbn. rewrite Hlen.
  destruct b; cbn in Hwf, Hpath.
  - rewrite Hpath in *. cbn. destruct Hwf as [->|Hv].
    + exists true, (ValueNode v). split; [done|]. split; [by right|].
      split; [done|]. split; [done|].
      intros s' d'. rewrite maps_value_iff, maps_NIL. naive_solver.
    + destruct n; try done. cbn.
      exists (negb (bool_decide (data = v))), (ValueNode v).
      split; [done|]. split; [by right|]. split; [done|]. split.
      * intros Hd. apply negb_false_iff, bool_decide_eq_true in Hd. by subst.
      * intros s' d'. rewrite !maps_value_iff. naive_solver.
  - rewrite bool_decide_false
      by (destruct s; [by apply key_path_nonempty in Hpath | done]).
    destruct n as [|data|k c fl|l fl|data].
    + (* Null *)
      exists true, (shortNode t s (ValueNode v)).
      split; [by rewrite <- Hs|]. split.
      { destruct Hpath as (body & -> & Hbody). by constructor. }
      split; [done|]. split; [done|].
      intros s' d'. unfold shortNode. rewrite maps_short_iff, maps_NIL.
      setoid_rewrite maps_value_iff. split.
      * intros (r & -> & -> & ->). left. by rewrite app_nil_r.
      * intros [[-> ->]|[_ []]]. exists []. by rewrite app_nil_r.
    + by apply wf_not_hash in Hwf.
    + (* Short *)
      unfold common.prefixLen. rewrite Hs.
      destruct (common_len_spec s k) as (p & s2 & k2 & Hsp & Hkp & Hml & Hdiff).
      revert Hs; subst s; intros Hs.
      rewrite Hml. case_bool_decide as Hfull.
      * (* the key runs through the node's key *)
        assert (k2 = []) as ->.
        { subst k. rewrite length_app in Hfull. destruct k2; [done|cbn in Hfull; lia]. }
        rewrite app_nil_r in Hkp. subst p.
        destruct (short_child k c fl s2 Hwf Hpath) as (b' & Hc & Hr & Hk & Hback).
        destruct (drop_app_inv key pos k s2 Hpos Hs) as [Hdrop Hle].
        destruct (IH b' c key (pos + length k) s2 v Hc Hr Hdrop Hle)
          as (d & nn & Hins & Hnn & Hval & Hsame & Hmaps).
        { rewrite length_app in Hfuel. destruct k; [done|]. cbn in Hfuel. lia. }
        rewrite Hins. cbn.
        exists d, (if d then shortNode t k nn else ShortNode k c fl).
        split; [by destruct d|].
        assert (∃ fl', (if d then shortNode t k nn else ShortNode k c fl)
                       = ShortNode k nn fl') as [fl' Heq].
        { destruct d; [by eexists|]. rewrite Hsame by done. by eexists. }
        split.
        { rewrite Heq. apply Hback; [done|]. intros ->. by rewrite Hval. }
        split; [done|]. split; [by intros ->|].
        intros s' d'. rewrite Heq, !maps_short_iff. setoid_rewrite Hmaps.
        split.
        -- intros (r & -> & [[-> ->]|[Hne Hr']]); [by left|].
           right. split; [by intros ?%app_inv_head|eauto].
        -- intros [[-> ->]|[Hne (r & -> & Hr')]]; [eauto|].
           exists r. split; [done|]. right. split; [|done]. by intros ->.
      * (* the key leaves the node's key: split *)
        destruct k2 as [|y k2].
        { rewrite app_nil_r in Hkp. by subst. }
        subst k.
        destruct (tail_child p y k2 c fl Hwf) as (Hy & Hn1 & Hmaps1 & Hp & Hinner).
        destruct s2 as [|x s2].
        { (* a key path cannot end inside the node's key *)
          rewrite app_nil_r in Hpath. destruct Hpath as (body & -> & _).
          rewrite <- app_assoc in Hwf. cbn in Hwf.
          destruct (tail_child body 16 (y :: k2) c fl Hwf) as (_ & _ & _ & _ & Hlt).
          specialize (Hlt ltac:(done)). lia. }
        apply key_path_app in Hpath; [|done].
        destruct (tail_value x s2 v Hpath) as (Hn2 & Hmaps2).
        apply path_at_child in Hpath as [Hx _].
        destruct (drop_app_inv (p ++ y :: k2) 0 p (y :: k2) (Nat.le_0_l _) eq_refl) as [Hd1 _].
        cbn [Nat.add] in Hd1.
        destruct (drop_cons_inv _ _ _ _ Hd1) as (Hky & Hkdrop & Hklt & Hklen).
        destruct (drop_app_inv key pos p (x :: s2) Hpos Hs) as [Hd2 _].
        destruct (drop_cons_inv _ _ _ _ Hd2) as (Hkx & Hsdrop & Hslt & Hslen).
        destruct fuel as [|fuel']; [rewrite length_app in Hfuel; cbn in Hfuel; lia|].
        rewrite !_insert_NIL by lia. cbn.
        rewrite Hky, Hkx, Hkdrop, Hsdrop. cbn.
        replace (length (p ++ y :: k2) - (length p + 1)) with (length k2) by lia.
        replace (length key - (pos + length p + 1)) with (length s2) by lia.
        unfold common.slice. replace (pos + length p - pos) with (length p) by lia.
        rewrite Hs, take_app_length.
        set (n1 := if bool_decide (length k2 = 0) then c else shortNode t k2 c) in *.
        set (n2 := if bool_decide (length s2 = 0) then ValueNode v
                   else shortNode t s2 (ValueNode v)) in *.
        set (branch := FullNode (<[x := n2]> (<[y := n1]> (replicate 17 NIL))) (flags t)).
        assert (Hbranch : wf branch) by (by apply branch_wf).
        assert (Hres : ∃ n',
                   (if bool_decide (length p = 0) then Ret (true, branch)
                    else Ret (true, shortNode t p branch)) = Ret (true, n')
                   ∧ wf n'
                   ∧ ∀ s' d', maps n' s' d' ↔ ∃ r, s' = p ++ r ∧ maps branch r d').
        { destruct (decide (length p = 0)) as [Hp0|Hp0].
          - rewrite bool_decide_true by done. exists branch.
            split; [done|]. split; [done|]. destruct p; [|done]. cbn. naive_solver.
          - rewrite bool_decide_false by done. exists (shortNode t p branch).
            split; [done|]. split; [constructor; [by destruct p|done|done]|].
            intros s' d'. apply maps_short_iff. }
        destruct Hres as (n' & Hn' & Hwf' & Hmaps').
        exists true, n'. split; [exact Hn'|].
        split; [done|]. split; [done|]. split; [done|].
        intros s' d'. rewrite Hmaps'.
        rewrite maps_short_iff. unfold branch.
        setoid_rewrite branch_maps; [|done|lia|lia].
        setoid_rewrite Hmaps1. setoid_rewrite Hmaps2. split.
        -- intros (r & -> & [(r' & -> & -> & ->)|(r' & -> & r'' & -> & Hc)]); [by left|].
           right. split; [intros [=]%app_inv_head; done|].
           exists r''. split; [|done]. by rewrite <- app_assoc.
        -- intros [[-> ->]|[Hne (r & -> & Hc)]].
           ++ exists (x :: s2). split; [done|]. left. eauto.
           ++ exists (y :: k2 ++ r). split; [by rewrite <- app_assoc|].
              right. eauto.
    + (* Full *)
      destruct s as [|x s']; [by apply key_path_nonempty in Hpath|].
      destruct (drop_cons_inv _ _ _ _ Hs) as (Hx & Hdrop & Hlt & Hlen').
      pose proof Hwf as [Hl Hslots]%wf_full_inv.
      apply path_at_child in Hpath as [Hx16 Hpath'].
      destruct (Hslots x Hx16) as (c & Hc & Hcwf).
      rewrite Hx. cbn. rewrite Hc. cbn.
      destruct (IH _ c key (pos + 1) s' v Hcwf Hpath')
        as (d & nn & Hins & Hnn & _ & Hsame & Hmaps); [done|lia|cbn in Hfuel; lia|].
      rewrite Hins. cbn.
      exists d, (if d then FullNode (<[x := nn]> l) (touch fl) else FullNode l fl).
      split; [by destruct d|].
      assert (∃ fl', (if d then FullNode (<[x := nn]> l) (touch fl) else FullNode l fl)
                     = FullNode (<[x := nn]> l) fl') as [fl' Heq].
      { destruct d; [by eexists|]. rewrite Hsame by done.
        rewrite list_insert_id by done. by eexists. }
      split; [rewrite Heq; by eapply full_update_wf|].
      split; [done|]. split; [by intros ->|].
      intros s0 d0. rewrite Heq, full_update_maps by lia. rewrite maps_full_iff.
      setoid_rewrite Hmaps. split.
      * intros [(r & -> & [[-> ->]|[Hne Hr]])|(i & c' & r & -> & Hix & Hc' & Hr)].
        -- by left.
        -- right. split; [by intros [=]|]. eauto 6.
        -- right. split; [by intros [=]|]. eauto 6.
      * intros [[-> ->]|[Hne (i & c' & r & -> & Hc' & Hr)]]; [left; eauto|].
        destruct (decide (i = x)) as [->|Hix].
        -- simplify_eq. left. exists r. split; [done|]. right. split; [|done].
           by intros ->.
        -- right. eauto 8.
    + by apply wf_not_value in Hwf.
Qed.

(** A Short node put above [nn], merged with it when [nn] is a Short. *)
Lemma merge_wf k nn :
  k ≠ [] → Forall (λ x, x < 16) k → wf nn →
  wf (match nn with
      | ShortNode nk nv _ => shortNode t (common.concat k nk) nv
      | _ => shortNode t k nn
      end).
Proof.
  intros Hk Hall Hnn. unfold shortNode, common.concat.
  destruct nn as [|data|nk nv nfl|l nfl|data]; try by constructor.
  apply wf_short_inv in Hnn as [(body & d0 & -> & Hbody & ->) | (Hnk & Hnall & Hnv)].
  - rewrite app_assoc. constructor. by apply Forall_app.
  - constructor; [by destruct k|by apply Forall_app|done].
Qed.

Lemma merge_maps k nn s d :
  maps (match nn with
        | ShortNode nk nv _ => shortNode t (common.concat k nk) nv
        | _ => shortNode t k nn
        end) s d
  ↔ ∃ r, s = k ++ r ∧ maps nn r d.
Proof.
  unfold shortNode, common.concat.
  destruct nn as [|data|nk nv nfl|l nfl|data]; try apply maps_short_iff.
  rewrite maps_short_iff. setoid_rewrite maps_short_iff. split.
  - intros (r & -> & Hr). exists (nk ++ r). rewrite <- app_assoc. eauto.
  - intros (r & -> & r' & -> & Hr). exists r'. by rewrite <- app_assoc.
Qed.

(** A Full node whose only occupied slot is [j] answers what a Short
    node with key [[j]] above that slot answers. *)
Lemma sole_occupant_maps l fl j slot s d :
  length l = 17 → sole_occupant l j → l !! j = Some slot →
  maps (FullNode l fl) s d ↔ ∃ r, s = [j] ++ r ∧ maps slot r d.
Proof.
  intros Hlen (Hj & _ & Hall) Hslot. rewrite maps_full_iff. split.
  - intros (i & c & r & -> & Hc & Hr).
    destruct (decide (i = j)) as [->|Hij]; [simplify_eq; eauto|].
    pose proof (lookup_lt_Some _ _ _ Hc) as Hi.
    rewrite Hall in Hc by lia. simplify_eq. by apply maps_NIL in Hr.
  - intros (r & -> & Hr). by exists j, slot, r.
Qed.

(** A remove along a key path withdraws the answer for that path and no
    other, and keeps the shape. *)
Lemma _remove_spec fuel :
  ∀ b n key pos s,
    wf_at b n → path_at b s → drop pos key = s → pos ≤ length key →
    length s < fuel →
    ∃ d n',
      _remove decodeNode fuel t n key pos = Ret (d, n')
      ∧ wf_at b n' ∧ (d = false → n' = n)
      ∧ ∀ s' d', maps n' s' d' ↔ s' ≠ s ∧ maps n s' d'.
Proof.
  induction fuel as [|fuel IH]; intros b n key pos s Hwf Hpath Hs Hpos Hfuel; [lia|].
  assert (Hlen : length key - pos = length s) by (by rewrite <- Hs, length_drop).
  cbn [_remove]. rewrite assert_true by done. cbn.
  destruct b; cbn in Hwf, Hpath.
  - destruct Hwf as [->|Hv].
    + exists false, NIL. split; [done|]. split; [by left|]. split; [done|].
      intros s' d'. rewrite maps_NIL. naive_solver.
    + destruct n; try done. exists true, NIL.
      split; [done|]. split; [by left|]. split; [done|].
      intros s' d'. rewrite maps_NIL, maps_value_iff. naive_solver.
  - destruct n as [|data|k c fl|l fl|data].
    + exists false, NIL. split; [done|]. split; [constructor|]. split; [done|].
      intros s' d'. rewrite maps_NIL. naive_solver.
    + by apply wf_not_hash in Hwf.
    + (* Short *)
      unfold common.prefixLen. rewrite Hs, Hlen.
      destruct (common_len_spec s k) as (p & s2 & k2 & Hsp & Hkp & Hml & Hdiff).
      revert Hs; subst s; intros Hs.
      rewrite Hml. case_bool_decide as Hshort.
      * (* the key leaves the node's key *)
        exists false, (ShortNode k c fl). split; [done|]. split; [done|].
        split; [done|]. intros s' d'. split; [|naive_solver].
        intros Hmaps. split; [|done]. intros ->.
        apply maps_short_iff in Hmaps as (r & Heq & _).
        rewrite Heq, common_len_prefix in Hml. lia.
      * assert (k2 = []) as ->.
        { subst k. rewrite length_app in Hshort. destruct k2; [done|cbn in Hshort; lia]. }
        rewrite app_nil_r in Hkp. subst p.
        destruct (short_child k c fl s2 Hwf Hpath) as (b' & Hc & Hr & Hk & _).
        case_bool_decide as Hexact.
        -- (* the key ends with the node's key *)
           assert (s2 = []) as ->.
           { rewrite length_app in Hexact. destruct s2; [done|cbn in Hexact; lia]. }
           exists true, NIL. split; [done|]. split; [constructor|]. split; [done|].
           intros s' d'. rewrite maps_NIL, maps_short_iff. split; [done|].
           intros (Hne & r & -> & Hmaps). destruct b'; cbn in Hc, Hr.
           ++ destruct Hc as [->|Hv]; [by apply maps_NIL in Hmaps|].
              destruct c; try done. by apply maps_value_iff in Hmaps as [-> _].
           ++ by apply key_path_nonempty in Hr.
        -- destruct b'; cbn in Hc, Hr.
           { subst s2. by rewrite app_nil_r in Hexact. }
           assert (Hall : Forall (λ x, x < 16) k).
           { apply wf_short_inv in Hwf as [(body & d0 & -> & _ & _)|(_ & ? & _)]; [|done].
             by apply key_path_leaf, key_path_nonempty in Hpath. }
           destruct (drop_app_inv key pos k s2 Hpos Hs) as [Hdrop Hle].
           destruct (IH false c key (pos + length k) s2 Hc Hr Hdrop Hle)
             as (d & nn & Hrem & Hnn & Hsame & Hmaps).
           { rewrite length_app in Hfuel. destruct k; [done|]. cbn in Hfuel. lia. }
           rewrite Hrem. cbn. destruct d; cbn.
           ++ exists true, (match nn with
                            | ShortNode nk nv _ => shortNode t (common.concat k nk) nv
                            | _ => shortNode t k nn
                            end).
              split; [by destruct nn|]. split; [by apply merge_wf|]. split; [done|].
              intros s' d'. rewrite merge_maps, maps_short_iff.
              setoid_rewrite Hmaps. split.
              ** intros (r & -> & Hne & Hr'). split; [by intros ?%app_inv_head|eauto].
              ** intros (Hne & r & -> & Hr'). exists r. split; [done|].
                 split; [by intros ->|done].
           ++ exists false, (ShortNode k c fl). split; [done|]. split; [done|].
              split; [done|]. rewrite Hsame in Hmaps by done.
              intros s' d'. split; [|naive_solver].
              intros Hm. split; [|done]. intros ->.
              apply maps_short_iff in Hm as (r & ->%app_inv_head & Hm).
              by apply Hmaps in Hm as [? _].
    + (* Full *)
      destruct s as [|x s']; [by apply key_path_nonempty in Hpath|].
      destruct (drop_cons_inv _ _ _ _ Hs) as (Hx & Hdrop & Hlt & Hlen').
      pose proof Hwf as [Hl Hslots]%wf_full_inv.
      apply path_at_child in Hpath as [Hx16 Hpath'].
      destruct (Hslots x Hx16) as (c & Hc & Hcwf).
      rewrite Hx. cbn. rewrite Hc. cbn.
      destruct (IH _ c key (pos + 1) s' Hcwf Hpath')
        as (d & nn & Hrem & Hnn & Hsame & Hmaps); [done|lia|cbn in Hfuel; lia|].
      rewrite Hrem. cbn. destruct d; cbn.
      2: { exists false, (FullNode l fl). split; [done|]. split; [done|].
           split; [done|]. rewrite Hsame in Hmaps by done.
           intros s0 d0. split; [|naive_solver].
           intros Hm. split; [|done]. intros ->.
           apply maps_full_iff in Hm as (i & c' & r & [= <- <-] & Hc' & Hm).
           simplify_eq. by apply Hmaps in Hm as [? _]. }
      set (cs := <[x := nn]> l).
      assert (Hcs : wf (FullNode cs (touch fl))) by (by eapply full_update_wf).
      assert (Hcslen : length cs = 17) by (unfold cs; by rewrite length_insert).
      assert (Hcsmaps : ∀ fl' s0 d0,
                 maps (FullNode cs fl') s0 d0 ↔ s0 ≠ x :: s' ∧ maps (FullNode l fl) s0 d0).
      { intros fl' s0 d0. unfold cs. rewrite full_update_maps by lia.
        rewrite maps_full_iff. setoid_rewrite Hmaps. split.
        - intros [(r & -> & Hne & Hr)|(i & c' & r & -> & Hix & Hc' & Hr)].
          + split; [by intros [=]|]. eauto 6.
          + split; [by intros [=]|]. eauto 6.
        - intros (Hne & i & c' & r & -> & Hc' & Hr).
          destruct (decide (i = x)) as [->|Hix]; [|right; eauto 8].
          simplify_eq. left. exists r. split; [done|]. split; [by intros ->|done]. }
      destruct (scan_slots cs Hcslen) as (r & Hscan & Hcase). rewrite Hscan. cbn.
      destruct Hcase as [[-> _]|[[-> _]|(j & -> & Hsole)]].
      * exists true, (FullNode cs (touch fl)). by rewrite bool_decide_false by lia.
      * exists true, (FullNode cs (touch fl)). by rewrite bool_decide_false by lia.
      * rewrite bool_decide_true by lia. rewrite Nat2Z.id.
        pose proof Hsole as (Hj & (slot & Hslot & Hnull) & _).
        rewrite Hslot.
        pose proof Hcs as [_ Hcsslots]%wf_full_inv.
        destruct (Hcsslots j) as (slot' & Hslot' & Hslotwf); [lia|]. simplify_eq.
        assert (Hkind : (j = 16 ∧ ∃ d0, slot = ValueNode d0) ∨ (j ≠ 16 ∧ wf slot)).
        { destruct (decide (j = 16)) as [->|Hj16].
          - left. split; [done|]. cbn in Hslotwf.
            destruct Hslotwf as [->|Hv]; [done|]. destruct slot; try done. eauto.
          - right. split; [done|]. by rewrite bool_decide_false in Hslotwf. }
        destruct Hkind as [(-> & d0 & ->)|(Hj16 & Hslotwf')].
        -- exists true, (shortNode t [16] (ValueNode d0)).
           split; [done|]. split; [apply (wf_leaf _ _ []); constructor|].
           split; [done|].
           intros s0 d1. rewrite <- (Hcsmaps (touch fl)). unfold shortNode.
           rewrite maps_short_iff. symmetry. by apply sole_occupant_maps.
        -- rewrite bool_decide_false by done. cbn.
           exists true,
             (match slot with
              | ShortNode nk nv _ => shortNode t (common.concat [j] nk) nv
              | _ => shortNode t [j] slot
              end).
           split.
           { destruct slot; try done. by apply wf_not_hash in Hslotwf'. }
           split.
           { apply merge_wf; [done| |done]. constructor; [lia|done]. }
           split; [done|].
           intros s0 d0. rewrite merge_maps, <- (Hcsmaps (touch fl)).
           symmetry. by apply sole_occupant_maps.
    + by apply wf_not_value in Hwf.
Qed.

End no_store.

(** ** Key paths of byte keys *)

Lemma toNibbles_length key : length (common.toNibbles key) = 2 * length key + 1.
Proof.
  unfold common.toNibbles. rewrite length_app. cbn.
  induction key as [|b key IH]; cbn in *; lia.
Qed.

Lemma toNibbles_key_path key : key_path (common.toNibbles key).
Proof.
  eexists. split; [reflexivity|].
  induction key as [|b key IH]; cbn [flat_map app]; [constructor|].
  pose proof (Byte.to_nat_bounded b).
  constructor; [apply Nat.Div0.div_lt_upper_bound; lia|].
  constructor; [apply Nat.mod_upper_bound; lia|done].
Qed.

Lemma to_nat_inj (a b : byte) : Byte.to_nat a = Byte.to_nat b → a = b.
Proof.
  intros H. pose proof (Byte.of_to_nat a) as Ha.
  rewrite H, Byte.of_to_nat in Ha. by injection Ha.
Qed.

Lemma toNibbles_inj a b : common.toNibbles a = common.toNibbles b → a = b.
Proof.
  unfold common.toNibbles. intros [H _]%app_inj_tail.
  revert b H. induction a as [|x a IH]; intros [|y b] H; cbn [flat_map app] in H;
    try done.
  injection H as Hhi Hlo H.
  f_equal; [|by apply IH].
  apply to_nat_inj.
  change (Byte.to_nat x / 16 = Byte.to_nat y / 16) in Hhi.
  change (Byte.to_nat x mod 16 = Byte.to_nat y mod 16) in Hlo.
  rewrite (Nat.div_mod_eq (Byte.to_nat x) 16), (Nat.div_mod_eq (Byte.to_nat y) 16).
  by rewrite Hhi, Hlo.
Qed.

(** ** Tries that agree on the store *)

Lemma wf_agree decodeNode (t t' : Trie) n :
  db t' = db t → hash t' = hash t →
  wf decodeNode t n → wf decodeNode t' n.
Proof.
  intros Hdb Hhash. induction 1 as [| | | |data rn Hdec _ IH]; try by constructor.
  apply (wf_hash _ _ data rn); [|done].
  destruct Hdec as (data' & store & raw & ? & ? & ? & ?).
  exists data', store, raw. by rewrite Hdb, Hhash.
Qed.

Lemma set_root_root (t : Trie) : set_root t (root t) = t.
Proof. by destruct t. Qed.

(** ** Inserts and removes answer like a map *)

Section map_semantics.

Variable decodeNode : Buffer → Hash.t → outcome node.

(** Running operations on a trie without a store keeps the shape and
    moves the answers as the operations say. *)
Lemma run_spec fuel ops :
  ∀ (t : Trie) (m : Buffer → option Buffer),
    db t = None →
    wf decodeNode t (root t) →
    (∀ k d, maps (root t) (common.toNibbles k) d ↔ m k = Some d) →
    Forall (λ o, walk_fuel (op_key o) ≤ fuel) ops →
    ∃ t', run decodeNode fuel t ops = Ret t'
          ∧ db t' = None
          ∧ wf decodeNode t' (root t')
          ∧ ∀ k d, maps (root t') (common.toNibbles k) d
                   ↔ last_write k ops (m k) = Some d.
Proof.
  induction ops as [|o ops IH]; intros t m Hdb Hwf Hm Hfuel.
  - exists t. split; [done|]. split; [done|]. split; [done|]. exact Hm.
  - apply Forall_cons in Hfuel as [Ho Hfuel]. unfold walk_fuel in Ho.
    destruct o as [k0 v|k0]; cbn [run apply_op op_key] in *.
    + destruct (_insert_spec decodeNode t Hdb fuel false (root t)
                  (common.toNibbles k0) 0 (common.toNibbles k0) v)
        as (d & n' & Hins & Hn' & _ & _ & Hmaps);
        [done|apply toNibbles_key_path|done|lia|rewrite toNibbles_length; lia|].
      unfold insert, valueNode. rewrite Hins. cbn.
      destruct (IH (set_root t n')
                  (λ k, if bool_decide (k0 = k) then Some v else m k))
        as (t' & Hrun & Hdb' & Hwf' & Hm'); [done| | |done|].
      * by apply (wf_agree decodeNode t).
      * intros k d'. cbn. rewrite Hmaps, Hm. case_bool_decide as Hk.
        -- subst k. naive_solver.
        -- split; [intros [[?%toNibbles_inj _]|[_ ?]]; by subst|].
           intros ?. right. split; [|done]. by intros ?%toNibbles_inj.
      * exists t'. split; [done|]. split; [done|]. split; [done|]. exact Hm'.
    + destruct (_remove_spec decodeNode t Hdb fuel false (root t)
                  (common.toNibbles k0) 0 (common.toNibbles k0))
        as (d & n' & Hrem & Hn' & _ & Hmaps);
        [done|apply toNibbles_key_path|done|lia|rewrite toNibbles_length; lia|].
      unfold remove. rewrite Hrem. cbn.
      destruct (IH (set_root t n')
                  (λ k, if bool_decide (k0 = k) then None else m k))
        as (t' & Hrun & Hdb' & Hwf' & Hm'); [done| | |done|].
      * by apply (wf_agree decodeNode t).
      * intros k d'. cbn. rewrite Hmaps, Hm. case_bool_decide as Hk.
        -- subst k. naive_solver.
        -- split; [by intros [_ ?]|].
           intros ?. split; [|done]. by intros ?%toNibbles_inj.
      * exists t'. split; [done|]. split; [done|]. split; [done|]. exact Hm'.
Qed.

(** C1: after any sequence of inserts and removes on an empty trie
    without a store, [get(k)] returns the value of the last insert of [k]
    that no later remove of [k] follows, and null when there is none;
    fuel for the longest key involved is enough for every walk. *)
Theorem map_semantics encode (h : Hash.t) (limit : option nat)
    (ops : list op) (k : Buffer) (fuel : nat) :
  Forall (λ o, walk_fuel (op_key o) ≤ fuel) ops →
  walk_fuel k ≤ fuel →
  ∃ t', run decodeNode fuel (new_Trie encode h None limit) ops = Ret t'
        ∧ get decodeNode fuel t' k = Ret (last_write k ops None, t').
Proof.
  intros Hops Hk. unfold walk_fuel in Hk.
  destruct (run_spec fuel ops (new_Trie encode h None limit) (λ _, None))
    as (t' & Hrun & Hdb & Hwf & Hm); [done|constructor| |done|].
  { intros k' d. cbn. rewrite maps_NIL. naive_solver. }
  exists t'. split; [done|].
  destruct (_get_spec decodeNode t' Hdb fuel false (root t')
              (common.toNibbles k) 0 (common.toNibbles k))
    as (o & Hget & Ho);
    [done|apply toNibbles_key_path|done|lia|rewrite toNibbles_length; lia|].
  unfold get. rewrite Hget. cbn. do 2 f_equal.
  destruct o as [d|].
  - symmetry. apply Hm, Ho. done.
  - destruct (last_write k ops None) as [d|] eqn:Hlast; [|done].
    apply Hm, Ho in Hlast. done.
Qed.

End map_semantics.

(** ** Inserting what is already there *)

Section same_value.

Variable decodeNode : Buffer → Hash.t → outcome node.
Variable t : Trie.

Lemma decoded_from_store_fun n a b :
  decoded_from_store decodeNode t n a →
  decoded_from_store decodeNode t n b → a = b.
Proof.
  intros (d1 & s1 & r1 & -> & Hdb1 & Hget1 & Hdec1)
         (d2 & s2 & r2 & [= <-] & Hdb2 & Hget2 & Hdec2).
  congruence.
Qed.

(** Where a lookup finds [v], inserting [v] reports no change in every
    frame and hands the subtree back. *)
Lemma _insert_found fuel :
  ∀ b n key pos s v nn res,
    wf_at decodeNode t b n → path_at b s → drop pos key = s →
    pos ≤ length key →
    _get decodeNode fuel t n key pos = Ret (Some v, nn, res) →
    ∃ n', _insert decodeNode fuel t n key pos (ValueNode v) = Ret (false, n')
          ∧ same_subtree decodeNode t n n'
          ∧ (isHash n = false → n' = n).
Proof.
  induction fuel as [|fuel IH]; intros b n key pos s v nn res Hwf Hpath Hs Hpos Hget;
    [discriminate|].
  assert (Hlen : length key - pos = length s) by (by rewrite <- Hs, length_drop).
  cbn [_get] in Hget. cbn [_insert].
  rewrite assert_true in Hget |- * by done. cbn in Hget |- *. rewrite Hlen.
  destruct b; cbn in Hwf, Hpath.
  - rewrite Hpath. cbn. destruct Hwf as [->|Hv]; [discriminate|].
    destruct n; try done. injection Hget as -> _ _. cbn.
    rewrite bool_decide_true by done. cbn.
    rewrite (bool_decide_true (v = v)) by done. cbn.
    exists (ValueNode v). split; [done|]. split; [by left|done].
  - rewrite bool_decide_false
      by (destruct s; [by apply key_path_nonempty in Hpath | done]).
    destruct n as [|data|k c fl|l fl|data].
    + discriminate.
    + (* Hash *)
      bind_inv Hget. rename a into rn. rewrite Hget0. cbn.
      inversion_clear Hwf as [| | | |? rn' Hdec Hrn].
      apply resolveHash_Ret in Hget0.
      assert (rn' = rn) as -> by (by eapply decoded_from_store_fun).
      destruct (_get decodeNode fuel t rn key pos) as [[[val nn'] res']| |] eqn:Hget';
        try discriminate.
      cbn in Hget. injection Hget as -> _ _.
      destruct (IH false rn key pos s v nn' res' Hrn Hpath Hs Hpos Hget')
        as (n' & Hins & _).
      rewrite Hins. cbn. exists rn. split; [done|]. split; [by right|done].
    + (* Short *)
      destruct (common.startsWith key k pos) eqn:Hsw; cbn in Hget; [|discriminate].
      apply startsWith_true in Hsw as [r Hr].
      assert (s = k ++ r) as -> by congruence. clear Hr.
      destruct (drop_app_inv _ _ _ _ Hpos Hs) as [Hdrop Hle].
      destruct (short_child decodeNode t k c fl r Hwf Hpath) as (b' & Hc & Hr & _).
      unfold common.prefixLen. rewrite Hs, common_len_prefix.
      rewrite bool_decide_true by done.
      destruct (_get decodeNode fuel t c key (pos + length k))
        as [[[val nn'] res']| |] eqn:Hget'; try discriminate.
      cbn in Hget. injection Hget as -> _ _.
      destruct (IH b' c key (pos + length k) r v nn' res' Hc Hr Hdrop Hle Hget')
        as (n' & Hins & _).
      rewrite Hins. cbn. eexists. split; [done|]. split; [by left|done].
    + (* Full *)
      destruct s as [|x s]; [by apply key_path_nonempty in Hpath|].
      destruct (drop_cons_inv _ _ _ _ Hs) as (Hx & Hdrop & Hlt & Hlen').
      apply wf_full_inv in Hwf as [Hl Hslots].
      apply path_at_child in Hpath as [Hx16 Hpath].
      destruct (Hslots x Hx16) as (c & Hc & Hcwf).
      rewrite Hx in Hget |- *. cbn in Hget |- *. rewrite Hc in Hget |- *.
      cbn in Hget |- *.
      destruct (_get decodeNode fuel t c key (pos + 1))
        as [[[val nn'] res']| |] eqn:Hget'; try discriminate.
      cbn in Hget. injection Hget as -> _ _.
      destruct (IH _ c key (pos + 1) s v nn' res' Hcwf Hpath Hdrop ltac:(lia) Hget')
        as (n' & Hins & _).
      rewrite Hins. cbn. eexists. split; [done|]. split; [by left|done].
    + inversion Hwf.
Qed.

(** C4: at key exhaustion over a Value node, [_insert] produces the
    Value node with the new data and reports [changed] iff the stored data
    differs from it; so where [get(k)] answers [v] on a well-formed tree,
    [insert(k, v)] reports no change through the Short and Full frames, the
    walk hands back the same subtree, and unless the root is a Hash
    placeholder [root] is the same tree afterwards. *)
Theorem insert_same_value fuel key v t' :
  wf decodeNode t (root t) →
  get decodeNode fuel t key = Ret (Some v, t') →
  (∀ f data nibs v',
     _insert decodeNode (S f) t (ValueNode data) nibs (length nibs) (ValueNode v')
     = Ret (negb (bool_decide (data = v')), ValueNode v'))
  ∧ ∃ n',
      _insert decodeNode fuel t (root t) (common.toNibbles key) 0 (ValueNode v)
      = Ret (false, n')
      ∧ same_subtree decodeNode t (root t) n'
      ∧ (isHash (root t) = false →
         n' = root t ∧ insert decodeNode fuel t key v = Ret t).
Proof.
  intros Hwf Hget. split.
  - intros f data nibs v'. cbn [_insert]. rewrite assert_true by done. cbn.
    by rewrite Nat.sub_diag.
  - unfold get in Hget. bind_inv Hget. destruct a as [[val r] res].
    injection Hget as -> _.
    destruct (_insert_found fuel false (root t) (common.toNibbles key) 0
                (common.toNibbles key) v r res)
      as (n' & Hins & Hsame & Hroot);
      [done|apply toNibbles_key_path|done|lia|done|].
    exists n'. split; [done|]. split; [done|].
    intros Hhash. specialize (Hroot Hhash). subst n'. split; [done|].
    unfold insert, valueNode. rewrite Hins. cbn. by rewrite set_root_root.
Qed.

End same_value.

(** ** The theorems at work on small tries *)

Lemma map_semantics_witness :
  ∃ t',
    run demo.decodeNode 6 demo.fresh
      [Insert [x12] [x01]; Insert [x12; x34] [x02]; Remove [x12]] = Ret t'
    ∧ get demo.decodeNode 6 t' [x12; x34] = Ret (Some [x02], t').
Proof.
  apply (map_semantics demo.decodeNode demo.encode demo.h None
           [Insert [x12] [x01]; Insert [x12; x34] [x02]; Remove [x12]]
           [x12; x34] 6).
  - repeat constructor; cbn; lia.
  - cbn; lia.
Defined.

Lemma planted_wf : wf demo.decodeNode demo.planted (root demo.planted).
Proof. apply (wf_leaf _ _ [1; 2]). repeat constructor; lia. Qed.

Lemma insert_same_value_witness :
  insert demo.decodeNode 4 demo.planted [x12] [x2a] = Ret demo.planted.
Proof.
  destruct (insert_same_value demo.decodeNode demo.planted 4 [x12] [x2a]
              demo.planted planted_wf)
    as [_ (n' & _ & _ & H)].
  - reflexivity.
  - apply H. reflexivity.
Defined.

Lemma remove_not_found_same_subtree_witness :
  same_subtree demo.decodeNode demo.planted demo.leaf demo.leaf.
Proof.
  apply (remove_not_found_same_subtree demo.decodeNode 3 demo.planted demo.leaf
           (common.toNibbles [x34]) 0 demo.leaf).
  reflexivity.
Defined.

Lemma hash_root_materialized_witness :
  insert demo.decodeNode 3 demo.loaded [x12] [x2a]
  = Ret (set_root demo.loaded demo.leaf)
  ∧ remove demo.decodeNode 3 demo.loaded [x34]
    = Ret (set_root demo.loaded demo.leaf).
Proof.
  split.
  - destruct (hash_root_materialized demo.decodeNode 3 demo.loaded [xaa]
                [x12] [x2a] demo.leaf eq_refl) as [H _].
    destruct H as (_ & H & _); [reflexivity|exact H].
  - destruct (hash_root_materialized demo.decodeNode 3 demo.loaded [xaa]
                [x34] [] demo.leaf eq_refl) as [_ H].
    destruct H as (_ & H & _); [reflexivity|exact H].
Defined.

Lemma remove_full_collapse_witness :
  _remove demo.decodeNode 3 demo.fresh
    (FullNode demo.slots (new_NodeFlags 0 false)) [3; 4; 16] 0
  = Ret (true, ShortNode [5; 6; 16] (ValueNode [x62]) (Build_NodeFlags 0 true None))
  ∧ _remove demo.decodeNode 3 demo.stored
      (FullNode (<[5 := HashNode [xaa]]> (<[3 := demo.leaf_a]> (replicate 17 NIL)))
         (new_NodeFlags 0 false)) [3; 4; 16] 0
    = Ret (true, ShortNode [5; 1; 2; 16] (ValueNode [x2a]) (Build_NodeFlags 0 true None)).
Proof.
  split.
  - destruct (remove_full_collapse demo.decodeNode 2 demo.fresh demo.slots
                (new_NodeFlags 0 false) [3; 4; 16] 0 3 demo.leaf_a NIL)
      as (_ & H & _); [reflexivity..|].
    destruct (H 5 demo.leaf_b demo.leaf_b) as [H' _].
    + split; [lia|]. split; [by exists demo.leaf_b|].
      intros i Hi Hne.
      do 17 (destruct i as [|i]; [done|]). lia.
    + lia.
    + reflexivity.
    + left. split; [discriminate|reflexivity].
    + apply (H' [6; 16] (ValueNode [x62]) (new_NodeFlags 0 true)). reflexivity.
  - destruct (remove_full_collapse demo.decodeNode 2 demo.stored
                (<[5 := HashNode [xaa]]> (<[3 := demo.leaf_a]> (replicate 17 NIL)))
                (new_NodeFlags 0 false) [3; 4; 16] 0 3 demo.leaf_a NIL)
      as (_ & H & _); [reflexivity..|].
    destruct (H 5 (HashNode [xaa]) demo.leaf) as [H' _].
    + split; [lia|]. split; [by exists (HashNode [xaa])|].
      intros i Hi Hne.
      do 17 (destruct i as [|i]; [done|]). lia.
    + lia.
    + reflexivity.
    + right. by exists [xaa], demo.store, [x01].
    + apply (H' [1; 2; 16] (ValueNode [x2a]) (new_NodeFlags 0 false)). reflexivity.
Defined.

(** ** The root lifecycle beyond [open] *)

Lemma open_resulting_root (t : Trie) (arg : root_arg) :
  open t arg
  = match resulting_root t arg with
    | None => Ret t
    | Some r =>
        if negb (bool_decide (r = emptyRoot t)) then
          assert (bool_decide (length r = Hash.size (hash t)));;
          match db t with
          | None => Throw (Error "Cannot use root without database.")
          | Some store =>
              if negb (DB.has store r) then
                throw_MissingNodeError
                  (JObject [("rootHash", JBuffer r); ("nodeHash", JBuffer r)]%string)
              else Ret (opened t r)
          end
        else Ret t
    end.
Proof.
  unfold open, resulting_root, given_root, opened, hashNode.
  destruct arg; [destruct (db t) as [store|]; [cbn; destruct (DB.get store STATE_KEY)|] | |];
    reflexivity.
Qed.

Section lifecycle.

Variable encode : node → Buffer.
Variable decodeNode : Buffer → Hash.t → outcome node.
Variable Hasher_hashRoot :
  Hash.t → nat → nat → node → option Batch.t → bool → Buffer * node * Batch.t.

(** X1: after [close()] the trie is empty whatever it held: every [get]
    returns null and changes nothing, [rootHash()] is the empty root, and
    [originalRoot] and [cacheGen] are reset. *)
Theorem close_empties (t : Trie) :
  (∀ fuel key, get decodeNode (S fuel) (close t) key = Ret (None, close t))
  ∧ rootHash Hasher_hashRoot (close t) None = (Raw (emptyRoot t), close t)
  ∧ originalRoot (close t) = emptyRoot t ∧ cacheGen (close t) = 0.
Proof.
  split; [|done]. intros fuel key. unfold get. cbn [_get close root].
  by rewrite assert_true by lia.
Qed.

(** X2: the constructor, [close], a successful [open] (of a trie that was
    so), [inject] and [snapshot] all leave the trie rooted at
    [originalRoot]: [root] is Null when [originalRoot] is the empty root
    and [Hash(originalRoot)] otherwise. *)
Theorem lifecycle_rooted (t : Trie) (arg : root_arg) (t' : Trie) :
  (∀ h d limit, rooted (new_Trie encode h d limit))
  ∧ rooted (close t)
  ∧ (rooted t → open t arg = Ret t' → rooted t')
  ∧ (inject t arg = Ret t' → rooted t')
  ∧ (snapshot encode t arg = Ret t' → rooted t').
Proof.
  assert (Hinject : ∀ t0 a, inject t0 a = Ret t' → rooted t').
  { intros t0 a H. unfold inject in H. bind_inv H. clear H0.
    case_bool_decide as Hr; cbn in H; injection H as <-.
    - by left.
    - right. by split. }
  split; [by left|]. split; [by left|]. split; [|split].
  - intros Ht H. rewrite open_resulting_root in H.
    destruct (resulting_root t arg) as [r|]; [|by injection H as <-].
    case_bool_decide as Hr; cbn in H; [by injection H as <-|].
    bind_inv H. clear H0. destruct (db t) as [store|]; [|discriminate].
    destruct (DB.has store r); cbn in H; [|discriminate].
    injection H as <-. right. by split.
  - apply Hinject.
  - unfold snapshot. destruct (db t); [|discriminate]. apply Hinject.
Qed.

(** X3: [snapshot] fails with the database error on a trie without a
    store, whatever the root; with a store, for a root of the digest
    length that is the empty root or that the store has, it returns what
    [open(root)] returns on a newly constructed trie over the same hash,
    store and cache limit. *)
Theorem snapshot_open (t : Trie) :
  (db t = None →
   ∀ arg, snapshot encode t arg = Throw (Error "Cannot snapshot without database."))
  ∧ (∀ store r,
       db t = Some store →
       length r = Hash.size (hash t) →
       r = common_emptyRoot encode (hash t) ∨ DB.has store r = true →
       snapshot encode t (RootBuffer r)
       = open (new_Trie encode (hash t) (db t) (Some (cacheLimit t))) (RootBuffer r)).
Proof.
  split.
  - intros Hdb arg. unfold snapshot. by rewrite Hdb.
  - intros store r Hdb Hlen Hr. unfold snapshot, inject, open. rewrite Hdb.
    cbn. rewrite !(bool_decide_true (length r = _)) by done. cbn.
    case_bool_decide as Hempty; cbn; [done|].
    destruct Hr as [->|Hhas]; [done|]. by rewrite Hhas.
Qed.

(** X4: [inject] never asks the store: a root that has not the digest
    length fails the assertion, and any root of the digest length, whether
    the store holds it or not and whether there is a store or not, gives
    the same trie with [originalRoot] the root, [root] Null for the empty
    root and [Hash(root)] for any other, [cacheGen] 0 and the hash, the
    store and the cache limit kept; [inject(emptyRoot)] is [close()]. *)
Theorem inject_without_store (t : Trie) (r : Buffer) :
  (length r ≠ Hash.size (hash t) →
   inject t (RootBuffer r) = Throw AssertionError)
  ∧ (length r = Hash.size (hash t) →
     inject t (RootBuffer r)
     = Ret {| hash := hash t; emptyRoot := emptyRoot t; db := db t;
              originalRoot := r;
              root := if bool_decide (r = emptyRoot t) then NIL else HashNode r;
              cacheGen := 0; cacheLimit := cacheLimit t |}
     ∧ (r = emptyRoot t → inject t (RootBuffer r) = Ret (close t))).
Proof.
  unfold inject. split; intros Hlen.
  - by rewrite (bool_decide_false (length r = _)).
  - rewrite (bool_decide_true (length r = _)) by done. cbn.
    case_bool_decide as Hr; cbn; [by subst|done].
Qed.

(** X5: on a trie whose root is a Hash placeholder and that has no store
    (as [inject] leaves it), [get], [insert] and [remove] fail with the
    database error, for every key. *)
Theorem hash_root_without_store fuel (t : Trie) data key value :
  db t = None → root t = HashNode data →
  let e := Error "Cannot resolve hash without database." in
  get decodeNode (S fuel) t key = Throw e
  ∧ insert decodeNode (S fuel) t key value = Throw e
  ∧ remove decodeNode (S fuel) t key = Throw e.
Proof.
  intros Hdb Hroot e.
  assert (Hres : ∀ k p, resolveHash decodeNode t data k p = Throw e).
  { intros k p. unfold resolveHash. by rewrite Hdb. }
  unfold get, insert, remove. rewrite Hroot. cbn [_get _insert _remove].
  rewrite !assert_true by lia. cbn -[resolveHash]. rewrite !Hres.
  by rewrite bool_decide_false by (rewrite toNibbles_length; lia).
Qed.

End lifecycle.

(** ** Lookups and the nodes they resolve *)

Section lookups.

Variable decodeNode : Buffer → Hash.t → outcome node.

(** A walk that returned keeps its result with more fuel. *)
Lemma _get_fuel_mono fuel :
  ∀ fuel' (t : Trie) n key pos x,
    fuel ≤ fuel' →
    _get decodeNode fuel t n key pos = Ret x →
    _get decodeNode fuel' t n key pos = Ret x.
Proof.
  induction fuel as [|fuel IH]; intros fuel' t n key pos x Hle H; [discriminate|].
  destruct fuel' as [|fuel']; [lia|]. cbn [_get] in H |- *.
  destruct (assert _) as [[]| |]; cbn in H |- *; try discriminate.
  destruct n as [|data|k c fl|l fl|data]; try done.
  - destruct (resolveHash decodeNode t data key pos) as [child| |];
      cbn in H |- *; try discriminate.
    destruct (_get decodeNode fuel t child key pos) as [y| |] eqn:Hget;
      try discriminate.
    by rewrite (IH fuel' t child key pos y ltac:(lia) Hget).
  - destruct (negb _); [done|].
    destruct (_get decodeNode fuel t c key (pos + length k)) as [y| |] eqn:Hget;
      try discriminate.
    by rewrite (IH fuel' t c key _ y ltac:(lia) Hget).
  - destruct (key !! pos ≫= _) as [[i c]|]; [|done].
    destruct (_get decodeNode fuel t c key (pos + 1)) as [y| |] eqn:Hget;
      try discriminate.
    by rewrite (IH fuel' t c key _ y ltac:(lia) Hget).
Qed.

(** A walk that reports no resolution has not used the trie's store:
    it goes the same way on any trie. *)
Lemma _get_unresolved fuel :
  ∀ (t t2 : Trie) n key pos val nn,
    _get decodeNode fuel t n key pos = Ret (val, nn, false) →
    _get decodeNode fuel t2 n key pos = Ret (val, nn, false).
Proof.
  induction fuel as [|fuel IH]; intros t t2 n key pos val nn H; [discriminate|].
  cbn [_get] in H |- *.
  destruct (assert _) as [[]| |] eqn:Hassert; cbn in H |- *; try discriminate.
  destruct n as [|data|k c fl|l fl|data]; try done.
  - destruct (resolveHash decodeNode t data key pos) as [child| |];
      cbn in H; try discriminate.
    destruct (_get decodeNode fuel t child key pos) as [[[val' nn'] res']| |];
      cbn in H; discriminate.
  - destruct (negb _); [done|].
    destruct (_get decodeNode fuel t c key (pos + length k))
      as [[[val' nn'] res']| |] eqn:Hget; cbn in H; try discriminate.
    destruct res'; [discriminate|]. by rewrite (IH _ t2 _ _ _ _ _ Hget).
  - destruct (key !! pos ≫= _) as [[i c]|]; [|done].
    destruct (_get decodeNode fuel t c key (pos + 1))
      as [[[val' nn'] res']| |] eqn:Hget; cbn in H; try discriminate.
    destruct res'; [discriminate|]. by rewrite (IH _ t2 _ _ _ _ _ Hget).
Qed.

(** The node a lookup hands back answers the same lookup without any
    resolution, on any trie. *)
Lemma _get_again fuel :
  ∀ (t t2 : Trie) n key pos val nn res,
    _get decodeNode fuel t n key pos = Ret (val, nn, res) →
    _get decodeNode fuel t2 nn key pos = Ret (val, nn, false).
Proof.
  induction fuel as [|fuel IH]; intros t t2 n key pos val nn res H; [discriminate|].
  cbn [_get] in H |- *.
  destruct (assert _) as [[]| |] eqn:Hassert; cbn in H |- *; try discriminate.
  destruct n as [|data|k c fl|l fl|data].
  - injection H as <- <- <-. done.
  - (* Hash *)
    destruct (resolveHash decodeNode t data key pos) as [child| |];
      cbn in H; try discriminate.
    destruct (_get decodeNode fuel t child key pos) as [[[val' nn'] res']| |] eqn:Hget;
      cbn in H; try discriminate.
    injection H as <- <- <-.
    apply (IH _ t2) in Hget. apply (_get_fuel_mono fuel (S fuel)) in Hget; [|lia].
    cbn [_get] in Hget. by rewrite Hassert in Hget.
  - (* Short *)
    destruct (common.startsWith key k pos) eqn:Hsw; cbn in H.
    + destruct (_get decodeNode fuel t c key (pos + length k))
        as [[[val' nn'] res']| |] eqn:Hget; cbn in H; try discriminate.
      injection H as <- <- <-. destruct res'.
      * rewrite Hsw. cbn. by rewrite (IH _ t2 _ _ _ _ _ _ Hget).
      * rewrite Hsw. cbn. by rewrite (_get_unresolved _ _ t2 _ _ _ _ _ Hget).
    + injection H as <- <- <-. by rewrite Hsw.
  - (* Full *)
    destruct (key !! pos) as [i|] eqn:Hi; cbn in H.
    2: { unfold undefined_node in H;
         destruct (assert (bool_decide (pos + 1 ≤ length key))) as [[]| |]; cbn in H; discriminate. }
    destruct (l !! i) as [c|] eqn:Hc; cbn in H;
      [|unfold undefined_node in H;
         destruct (assert (bool_decide (pos + 1 ≤ length key))) as [[]| |]; cbn in H; discriminate].
    destruct (_get decodeNode fuel t c key (pos + 1))
      as [[[val' nn'] res']| |] eqn:Hget; cbn in H; try discriminate.
    injection H as <- <- <-. destruct res'.
    + cbn. rewrite list_lookup_insert_eq by (by eapply lookup_lt_Some).
      cbn. by rewrite (IH _ t2 _ _ _ _ _ _ Hget).
    + cbn. rewrite Hc. cbn. by rewrite (_get_unresolved _ _ t2 _ _ _ _ _ Hget).
  - injection H as <- <- <-. done.
Qed.

(** X6: a second [get] of the same key returns the same value and leaves
    the trie as the first [get] left it, and it resolves nothing: what
    the first lookup read from the store stays in the tree, so any trie
    with that root, whatever its store, gives the answer. *)
Theorem get_twice fuel (t : Trie) key val t' :
  get decodeNode fuel t key = Ret (val, t') →
  ∀ t2, root t2 = root t' → get decodeNode fuel t2 key = Ret (val, t2).
Proof.
  intros H t2 Hroot. unfold get in H |- *. bind_inv H.
  destruct a as [[val' r] res]. rewrite Hroot. destruct res; injection H as <- <-.
  - cbn. by rewrite (_get_again _ _ t2 _ _ _ _ _ _ H0).
  - by rewrite (_get_unresolved _ _ t2 _ _ _ _ _ H0).
Qed.

End lookups.

(** ** Operations that have nothing to do *)

Section nothing_to_do.

Variable decodeNode : Buffer → Hash.t → outcome node.

(** A remove that reports [found] withdrew an answer. *)
Lemma _remove_found_present (t : Trie) fuel :
  db t = None →
  ∀ b n key pos s n',
    wf_at decodeNode t b n → path_at b s → drop pos key = s →
    pos ≤ length key →
    _remove decodeNode fuel t n key pos = Ret (true, n') →
    ∃ v, maps n s v.
Proof.
  intros Hdb.
  induction fuel as [|fuel IH]; intros b n key pos s n' Hwf Hpath Hs Hpos H;
    [discriminate|].
  assert (Hlen : length key - pos = length s) by (by rewrite <- Hs, length_drop).
  cbn [_remove] in H. rewrite assert_true in H by done. cbn in H.
  destruct b; cbn in Hwf, Hpath.
  - destruct Hwf as [->|Hv]; [discriminate|]. destruct n; try done.
    exists data. rewrite Hpath. constructor.
  - destruct n as [|data|k c fl|l fl|data].
    + discriminate.
    + by apply wf_not_hash in Hwf.
    + unfold common.prefixLen in H. rewrite Hs, Hlen in H.
      destruct (common_len_spec s k) as (p & s2 & k2 & Hsp & Hkp & Hml & Hdiff).
      revert Hs; subst s; intros Hs.
      rewrite Hml in H.
      destruct (decide (length p < length k)) as [Hlt|Hge].
      { rewrite bool_decide_true in H by done. discriminate. }
      rewrite bool_decide_false in H by done.
      assert (k2 = []) as ->.
      { subst k. rewrite length_app in Hge. destruct k2; [done|cbn in Hge; lia]. }
      rewrite app_nil_r in Hkp. subst p.
      destruct (short_child decodeNode t k c fl s2 Hwf Hpath) as (b' & Hc & Hr & Hk & _).
      destruct (drop_app_inv key pos k s2 Hpos Hs) as [Hdrop Hle].
      destruct (decide (length k = length (k ++ s2))) as [Hexact|Hmore].
      * assert (s2 = []) as ->.
        { rewrite length_app in Hexact. destruct s2; [done|cbn in Hexact; lia]. }
        destruct b'; cbn in Hc, Hr; [|by apply key_path_nonempty in Hr].
        apply wf_short_inv in Hwf as [(body & d0 & -> & _ & ->)|(_ & Hall & _)].
        -- exists d0. rewrite maps_short_iff. exists []. split; [done|constructor].
        -- rewrite app_nil_r in Hpath. by apply key_path_ext in Hpath.
      * rewrite bool_decide_false in H by done.
        destruct (_remove decodeNode fuel t c key (pos + length k))
          as [[[] nn]| |] eqn:Hrem; cbn in H; try discriminate.
        destruct (IH b' c key (pos + length k) s2 nn Hc Hr Hdrop Hle Hrem) as [v Hv].
        exists v. rewrite maps_short_iff. eauto.
    + destruct s as [|x s']; [by apply key_path_nonempty in Hpath|].
      destruct (drop_cons_inv _ _ _ _ Hs) as (Hx & Hdrop & Hlt & Hlen').
      apply wf_full_inv in Hwf as [Hl Hslots].
      apply path_at_child in Hpath as [Hx16 Hpath'].
      destruct (Hslots x Hx16) as (c & Hc & Hcwf).
      rewrite Hx in H. cbn in H. rewrite Hc in H. cbn in H.
      destruct (_remove decodeNode fuel t c key (pos + 1))
        as [[[] nn]| |] eqn:Hrem; cbn in H; try discriminate.
      destruct (IH _ c key (pos + 1) s' nn Hcwf Hpath' Hdrop ltac:(lia) Hrem) as [v Hv].
      exists v. rewrite maps_full_iff. eauto 6.
    + by apply wf_not_value in Hwf.
Qed.

Lemma run_app fuel (t : Trie) ops ops' :
  run decodeNode fuel t (ops ++ ops')
  = t' ← run decodeNode fuel t ops; run decodeNode fuel t' ops'.
Proof.
  revert t. induction ops as [|o ops IH]; intros t; [done|].
  cbn. destruct (apply_op decodeNode fuel t o); cbn; [apply IH|done|done].
Qed.

(** X7: on a trie built from the empty one without a store, inserting
    the value a key already has, and removing a key that is not there,
    leave the trie exactly as it was: running the sequence with such an
    operation appended gives the trie the sequence alone gives. *)
Theorem nothing_to_do encode (h : Hash.t) (limit : option nat)
    (ops : list op) (k v : Buffer) (fuel : nat) :
  Forall (λ o, walk_fuel (op_key o) ≤ fuel) ops →
  walk_fuel k ≤ fuel →
  let t0 := new_Trie encode h None limit in
  (last_write k ops None = Some v →
   run decodeNode fuel t0 (ops ++ [Insert k v]) = run decodeNode fuel t0 ops)
  ∧ (last_write k ops None = None →
     run decodeNode fuel t0 (ops ++ [Remove k]) = run decodeNode fuel t0 ops).
Proof.
  intros Hops Hk t0. unfold walk_fuel in Hk.
  destruct (run_spec decodeNode fuel ops t0 (λ _, None))
    as (t' & Hrun & Hdb & Hwf & Hm); [done|constructor| |done|].
  { intros k' d. cbn. rewrite maps_NIL. naive_solver. }
  rewrite !run_app, Hrun. cbn. split; intros Hlast.
  - apply Hm in Hlast.
    destruct (_get_spec decodeNode t' Hdb fuel false (root t')
                (common.toNibbles k) 0 (common.toNibbles k))
      as (o & Hget & Ho);
      [done|apply toNibbles_key_path|done|lia|rewrite toNibbles_length; lia|].
    apply Ho in Hlast. subst o.
    destruct (_insert_found decodeNode t' fuel false (root t')
                (common.toNibbles k) 0 (common.toNibbles k) v (root t') false)
      as (n' & Hins & _ & Hsame);
      [done|apply toNibbles_key_path|done|lia|done|].
    unfold insert, valueNode. rewrite Hins. cbn.
    rewrite Hsame, set_root_root; [done|].
    destruct (root t'); try done. by apply wf_not_hash in Hwf.
  - destruct (_remove_spec decodeNode t' Hdb fuel false (root t')
                (common.toNibbles k) 0 (common.toNibbles k))
      as (d & n' & Hrem & _ & Hsame & _);
      [done|apply toNibbles_key_path|done|lia|rewrite toNibbles_length; lia|].
    unfold remove. rewrite Hrem. cbn. destruct d.
    + destruct (_remove_found_present t' fuel Hdb false (root t')
                  (common.toNibbles k) 0 (common.toNibbles k) n')
        as [v' Hv']; [done|apply toNibbles_key_path|done|lia|done|].
      apply Hm in Hv'. congruence.
    + by rewrite Hsame, set_root_root.
Qed.

End nothing_to_do.

(** ** The canonical shape *)

Lemma shaped_not_null n : shaped n → isNull n = false.
Proof. by inversion 1. Qed.

Lemma shaped_short_inv k c fl :
  shaped (ShortNode k c fl) →
  k ≠ [] ∧ ((∃ d, c = ValueNode d) ∨ (∃ l fl', c = FullNode l fl' ∧ shaped c)).
Proof. inversion 1; subst; split; eauto 6. Qed.

Lemma shaped_short k c fl :
  k ≠ [] → (∃ d, c = ValueNode d) ∨ (∃ l fl', c = FullNode l fl' ∧ shaped c) →
  shaped (ShortNode k c fl).
Proof. intros Hk [[d ->]|(l & fl' & -> & Hc)]; by constructor. Qed.

Lemma shaped_inhabited n : shaped n → ∃ s d, maps n s d.
Proof.
  induction 1 as [k d fl Hk|k l fl' fl Hk _ (s & d & Hm)
                 |l fl Hlen (a & b & Ha & Hb & Hab & (ca & Hca & Hna) & _) _ IH Hlast].
  - exists (k ++ []), d. repeat constructor.
  - exists (k ++ s), d. by constructor.
  - destruct (decide (a = 16)) as [->|Ha16].
    + destruct (Hlast ca Hca) as [->|Hv]; [done|]. destruct ca; try done.
      exists [16], data. econstructor; [done|constructor].
    + destruct (IH a ca) as (s & d & Hm); [lia|done|by intros ->|].
      exists (a :: s), d. by econstructor.
Qed.

(** Reassigning a slot with a node that is not Null keeps two slots
    occupied. *)
Lemma several_occupants_insert l x nn :
  several_occupants l → isNull nn = false → several_occupants (<[x := nn]> l).
Proof.
  intros (a & b & Ha & Hb & Hab & (ca & Hca & Hna) & (cb & Hcb & Hnb)) Hnn.
  assert (Hocc : ∀ i c, l !! i = Some c → isNull c = false →
                        occupied (<[x := nn]> l) i).
  { intros i c Hc Hn. destruct (decide (x = i)) as [->|Hxi].
    - exists nn. split; [|done]. apply list_lookup_insert_eq. by eapply lookup_lt_Some.
    - exists c. by rewrite list_lookup_insert_ne. }
  exists a, b. eauto 8.
Qed.

Section shaped_walks.

Variable decodeNode : Buffer → Hash.t → outcome node.
Variable t : Trie.
Hypothesis no_db : db t = None.

#[local] Abbreviation wf := (wf decodeNode t).
#[local] Abbreviation wf_at := (wf_at decodeNode t).

(** The child of a Short node of the shape, read with what [wf] says. *)
Lemma shaped_child k c fl :
  wf (ShortNode k c fl) → shaped (ShortNode k c fl) →
  isNull c = false
  ∧ (wf c → ∃ l fl', c = FullNode l fl' ∧ shaped c).
Proof.
  intros Hwf [Hk [[d ->]|(l & fl' & -> & Hc)]]%shaped_short_inv.
  - split; [done|]. by intros ?%wf_not_value.
  - split; [done|]. eauto.
Qed.

(** What a split keeps of a Short node fits the slot it goes to. *)
Lemma split_child_shaped p y k2 c fl :
  wf (ShortNode (p ++ y :: k2) c fl) → shaped (ShortNode (p ++ y :: k2) c fl) →
  let n1 := if bool_decide (length k2 = 0) then c else shortNode t k2 c in
  isNull n1 = false ∧ (y < 16 → shaped n1) ∧ (y = 16 → isValue n1 = true).
Proof.
  intros Hwf Hshaped n1.
  destruct (shaped_child _ c fl Hwf Hshaped) as [Hcnull Hcfull].
  destruct (tail_child decodeNode t p y k2 c fl Hwf) as (Hy & Hn1 & _ & Hp & Hinner).
  fold n1 in Hn1.
  assert (Hnull : isNull n1 = false).
  { unfold n1. by destruct (bool_decide (length k2 = 0)). }
  split; [done|]. split.
  - intros Hy16. rewrite bool_decide_false in Hn1 by lia. unfold n1 in *.
    destruct (decide (length k2 = 0)) as [Hk2|Hk2].
    + rewrite bool_decide_true in Hn1 |- * by done.
      by destruct (Hcfull Hn1) as (? & ? & -> & ?).
    + rewrite bool_decide_false by done.
      apply shaped_short; [by destruct k2|].
      by apply shaped_short_inv in Hshaped as [_ ?].
  - intros ->. rewrite bool_decide_true in Hn1 by done. cbn in Hn1.
    destruct Hn1 as [Hn|Hn]; [by rewrite Hn in Hnull|done].
Qed.

(** The leaf for the rest of the new key fits the slot it goes to. *)
Lemma split_value_shaped x s2 v :
  key_path (x :: s2) →
  let n2 := if bool_decide (length s2 = 0) then ValueNode v
            else shortNode t s2 (ValueNode v) in
  isNull n2 = false ∧ (x < 16 → shaped n2) ∧ (x = 16 → isValue n2 = true).
Proof.
  intros [[-> ->]|[Hx Hs2]]%key_path_cons n2; unfold n2.
  - cbn. split; [done|]. split; [lia|done].
  - rewrite bool_decide_false
      by (destruct s2; [by apply key_path_nonempty in Hs2|done]).
    split; [done|]. split; [|lia]. intros _.
    apply shaped_leaf. by apply key_path_nonempty.
Qed.

Lemma branch_shaped x y n1 n2 fl :
  x ≠ y → x ≤ 16 → y ≤ 16 →
  isNull n1 = false ∧ (y < 16 → shaped n1) ∧ (y = 16 → isValue n1 = true) →
  isNull n2 = false ∧ (x < 16 → shaped n2) ∧ (x = 16 → isValue n2 = true) →
  shaped (FullNode (<[x := n2]> (<[y := n1]> (replicate 17 NIL))) fl).
Proof.
  intros Hxy Hx Hy (Hn1 & Hs1 & Hv1) (Hn2 & Hs2 & Hv2). constructor.
  - by rewrite !length_insert, length_replicate.
  - exists x, y. repeat split; [lia|lia|done| |].
    + exists n2. split; [|done]. apply list_lookup_insert_eq.
      rewrite length_insert, length_replicate. lia.
    + exists n1. split; [|done]. rewrite list_lookup_insert_ne by done.
      apply list_lookup_insert_eq. rewrite length_replicate. lia.
  - intros i c0 Hi [(-> & ->)|[(-> & ->)| ->]]%branch_lookup Hc0; [auto|auto|done].
  - intros c0 [(<- & ->)|[(<- & ->)| ->]]%branch_lookup; [right; auto|right; auto|by left].
Qed.

(** An insert keeps the canonical shape, and a Full node stays one. *)
Lemma _insert_shaped fuel :
  ∀ b n key pos s v d n',
    wf_at b n → path_at b s → drop pos key = s → pos ≤ length key →
    length s < fuel →
    canonical n →
    _insert decodeNode fuel t n key pos (ValueNode v) = Ret (d, n') →
    b = false →
    shaped n' ∧ (∀ l fl, n = FullNode l fl → ∃ l' fl', n' = FullNode l' fl').
Proof.
  induction fuel as [|fuel IH];
    intros b n key pos s v d n' Hwf Hpath Hs Hpos Hfuel Hcan H ->; [lia|].
  assert (Hlen : length key - pos = length s) by (by rewrite <- Hs, length_drop).
  cbn in Hwf, Hpath.
  cbn [_insert] in H. rewrite assert_true in H by done. cbn in H. rewrite Hlen in H.
  rewrite bool_decide_false in H
    by (destruct s; [by apply key_path_nonempty in Hpath | done]).
  destruct n as [|data|k c fl|l fl|data].
  - (* Null *)
    injection H as <- <-. split; [|done]. unfold shortNode, common.slice_from.
    rewrite Hs. constructor. by apply key_path_nonempty.
  - by apply wf_not_hash in Hwf.
  - (* Short *)
    destruct Hcan as [|Hshaped]; [done|].
    destruct (shaped_child k c fl Hwf Hshaped) as [Hcnull Hcfull].
    split; [|done].
    unfold common.prefixLen in H. rewrite Hs in H.
    destruct (common_len_spec s k) as (p & s2 & k2 & Hsp & Hkp & Hml & Hdiff).
    revert Hs; subst s; intros Hs.
    rewrite Hml in H.
    destruct (decide (length p = length k)) as [Hfull|Hfull].
    + (* the key runs through the node's key *)
      rewrite bool_decide_true in H by done.
      assert (k2 = []) as ->.
      { subst k. rewrite length_app in Hfull. destruct k2; [done|cbn in Hfull; lia]. }
      rewrite app_nil_r in Hkp. subst p.
      destruct (short_child decodeNode t k c fl s2 Hwf Hpath) as (b' & Hc & Hr & Hk & _).
      destruct (drop_app_inv key pos k s2 Hpos Hs) as [Hdrop Hle].
      assert (Hfuel' : length s2 < fuel).
      { rewrite length_app in Hfuel. destruct k; [done|]. cbn in Hfuel. lia. }
      destruct (_insert decodeNode fuel t c key (pos + length k) (ValueNode v))
        as [[d0 nn]| |] eqn:Hins; cbn in H; try discriminate.
      destruct d0; cbn in H; injection H as <- <-; [|done].
      apply shaped_short; [done|]. destruct b'; cbn in Hc.
      * destruct (_insert_spec decodeNode t no_db fuel true c key (pos + length k) s2 v)
          as (d1 & n1 & Hins1 & _ & Hval & _); [done..|].
        rewrite Hins in Hins1. injection Hins1 as <- <-. left. eauto.
      * destruct (Hcfull Hc) as (l & fl' & -> & Hcs).
        destruct (IH false _ key (pos + length k) s2 v true nn Hc Hr Hdrop Hle Hfuel')
          as [Hnn Hnnfull]; [by right|done|done|].
        destruct (Hnnfull l fl' eq_refl) as (l' & fl'' & ->). right. eauto.
    + (* the key leaves the node's key: split *)
      rewrite bool_decide_false in H by done.
      destruct k2 as [|y k2].
      { rewrite app_nil_r in Hkp. by subst. }
      subst k.
      destruct (tail_child decodeNode t p y k2 c fl Hwf) as (Hy & Hn1 & _ & Hp & Hinner).
      destruct s2 as [|x s2].
      { rewrite app_nil_r in Hpath. destruct Hpath as (body & -> & _).
        rewrite <- app_assoc in Hwf. cbn in Hwf.
        destruct (tail_child decodeNode t body 16 (y :: k2) c fl Hwf)
          as (_ & _ & _ & _ & Hlt).
        specialize (Hlt ltac:(done)). lia. }
      apply key_path_app in Hpath; [|done].
      pose proof (split_child_shaped p y k2 c fl Hwf Hshaped) as Hslot1.
      pose proof (split_value_shaped x s2 v Hpath) as Hslot2.
      apply path_at_child in Hpath as [Hx _].
      destruct (drop_app_inv (p ++ y :: k2) 0 p (y :: k2) (Nat.le_0_l _) eq_refl)
        as [Hd1 _]; cbn [Nat.add] in Hd1.
      destruct (drop_cons_inv _ _ _ _ Hd1) as (Hky & Hkdrop & Hklt & Hklen).
      destruct (drop_app_inv key pos p _ Hpos Hs) as [Hd2 _].
      destruct (drop_cons_inv _ _ _ _ Hd2) as (Hkx & Hsdrop & Hslt & Hslen).
      destruct fuel as [|fuel']; [rewrite length_app in Hfuel; cbn in Hfuel; lia|].
      rewrite !_insert_NIL in H by lia. cbn in H.
      rewrite Hky, Hkx, Hkdrop, Hsdrop in H. cbn in H.
      replace (length (p ++ y :: k2) - (length p + 1)) with (length k2) in H by lia.
      replace (length key - (pos + length p + 1)) with (length s2) in H by lia.
      cbn zeta in Hslot1, Hslot2.
      pose proof (branch_shaped x y _ _ (flags t) Hdiff Hx Hy Hslot1 Hslot2) as Hbranch.
      unfold common.slice in H.
      replace (pos + length p - pos) with (length p) in H by lia.
      rewrite Hs, take_app_length in H.
      destruct (decide (length p = 0)) as [Hp0|Hp0].
      * rewrite bool_decide_true in H by done. injection H as <- <-.
        exact Hbranch.
      * rewrite bool_decide_false in H by done. injection H as <- <-.
        apply shaped_ext; [by intros ->|exact Hbranch].
  - (* Full *)
    destruct Hcan as [|Hshaped]; [done|].
    destruct s as [|x s']; [by apply key_path_nonempty in Hpath|].
    destruct (drop_cons_inv _ _ _ _ Hs) as (Hx & Hdrop & Hlt & Hlen').
    pose proof Hwf as [Hl Hslots]%wf_full_inv.
    apply path_at_child in Hpath as [Hx16 Hpath'].
    destruct (Hslots x Hx16) as (c & Hc & Hcwf).
    rewrite Hx in H. cbn in H. rewrite Hc in H. cbn in H.
    destruct (_insert decodeNode fuel t c key (pos + 1) (ValueNode v))
      as [[d0 nn]| |] eqn:Hins; cbn in H; try discriminate.
    destruct d0; cbn in H; injection H as <- <-; [|eauto].
    split; [|eauto].
    inversion_clear Hshaped as [| |? ? _ Hseveral Hinner Hlast].
    assert (Hnn : (x = 16 → isValue nn = true) ∧ (x < 16 → shaped nn)).
    { split.
      - intros ->. cbn in Hcwf, Hpath'.
        destruct (_insert_spec decodeNode t no_db fuel true c key (pos + 1) s' v Hcwf Hpath')
          as (d1 & n1 & Hins1 & _ & Hval & _); [done|lia|cbn in Hfuel; lia|].
        rewrite Hins in Hins1. injection Hins1 as <- <-. by rewrite Hval.
      - intros Hx'. rewrite bool_decide_false in Hcwf, Hpath' by lia.
        destruct (IH false c key (pos + 1) s' v true nn Hcwf Hpath')
          as [Hnn _]; [done|lia|cbn in Hfuel; lia| |done|done|done].
        destruct (isNull c) eqn:Hcn; [apply isNull_true in Hcn as ->; by left|].
        right. apply (Hinner x); [lia|done|by intros ->]. }
    destruct Hnn as [Hnnv Hnns].
    constructor.
    + by rewrite length_insert.
    + apply several_occupants_insert; [done|].
      destruct (decide (x = 16)) as [Hx'|Hx'].
      * specialize (Hnnv Hx'). by destruct nn.
      * apply shaped_not_null, Hnns. lia.
    + intros i c0 Hi Hc0 Hc0n.
      apply list_lookup_insert_Some in Hc0 as [(-> & -> & _)|[Hix Hc0]]; [auto|].
      by apply (Hinner i).
    + intros c0 Hc0.
      apply list_lookup_insert_Some in Hc0 as [(Hx' & -> & _)|[Hix Hc0]];
        [right; by apply Hnnv|by apply Hlast].
  - by apply wf_not_value in Hwf.
Qed.

(** A Short node put above a node of the shape, merged with it when it
    is a Short, has the shape. *)
Lemma merge_shaped k nn :
  k ≠ [] → shaped nn →
  shaped (match nn with
          | ShortNode nk nv _ => shortNode t (common.concat k nk) nv
          | _ => shortNode t k nn
          end).
Proof.
  intros Hk Hnn. unfold shortNode, common.concat.
  destruct nn as [|data|nk nv nfl|l nfl|data]; try by inversion Hnn.
  - apply shaped_short_inv in Hnn as [Hnk Hnv].
    apply shaped_short; [by destruct k|done].
  - by apply shaped_ext.
Qed.

(** A remove keeps the canonical shape; a Full node does not become
    empty. *)
Lemma _remove_shaped fuel :
  ∀ b n key pos s d n',
    wf_at b n → path_at b s → drop pos key = s → pos ≤ length key →
    (b = false → canonical n) →
    _remove decodeNode fuel t n key pos = Ret (d, n') →
    (b = true → n' = NIL)
    ∧ (b = false → canonical n' ∧ (∀ l fl, n = FullNode l fl → shaped n')).
Proof.
  induction fuel as [|fuel IH];
    intros b n key pos s d n' Hwf Hpath Hs Hpos Hcan H; [discriminate|].
  assert (Hlen : length key - pos = length s) by (by rewrite <- Hs, length_drop).
  cbn [_remove] in H. rewrite assert_true in H by done. cbn in H.
  destruct b; cbn in Hwf, Hpath.
  { split; [intros _|done].
    destruct Hwf as [->|Hv]; [by injection H as <- <-|].
    destruct n; try done. by injection H as <- <-. }
  split; [done|intros _]. specialize (Hcan eq_refl).
  destruct n as [|data|k c fl|l fl|data].
  - injection H as <- <-. split; [by left|done].
  - by apply wf_not_hash in Hwf.
  - (* Short *)
    split; [|done].
    destruct Hcan as [|Hshaped]; [done|].
    destruct (shaped_child k c fl Hwf Hshaped) as [Hcnull Hcfull].
    unfold common.prefixLen in H. rewrite Hs, Hlen in H.
    destruct (common_len_spec s k) as (p & s2 & k2 & Hsp & Hkp & Hml & Hdiff).
    revert Hs; subst s; intros Hs.
    rewrite Hml in H.
    destruct (decide (length p < length k)) as [Hlt|Hge].
    { rewrite bool_decide_true in H by done. injection H as <- <-. by right. }
    rewrite bool_decide_false in H by done.
    assert (k2 = []) as ->.
    { subst k. rewrite length_app in Hge. destruct k2; [done|cbn in Hge; lia]. }
    rewrite app_nil_r in Hkp. subst p.
    destruct (decide (length k = length (k ++ s2))) as [Hexact|Hmore].
    { rewrite bool_decide_true in H by done. injection H as <- <-. by left. }
    rewrite bool_decide_false in H by done.
    destruct (short_child decodeNode t k c fl s2 Hwf Hpath) as (b' & Hc & Hr & Hk & _).
    destruct (drop_app_inv key pos k s2 Hpos Hs) as [Hdrop Hle].
    destruct b'; cbn in Hc, Hr.
    { subst s2. by rewrite app_nil_r in Hmore. }
    destruct (Hcfull Hc) as (l & fl' & -> & Hcs).
    destruct (_remove decodeNode fuel t (FullNode l fl') key (pos + length k))
      as [[d0 nn]| |] eqn:Hrem; cbn in H; try discriminate.
    destruct (IH false _ key (pos + length k) s2 d0 nn Hc Hr Hdrop Hle) as [_ Hnn];
      [by right|done|].
    destruct (Hnn eq_refl) as [_ Hnns]. specialize (Hnns l fl' eq_refl).
    destruct d0; cbn in H.
    + right.
      assert (n' = match nn with
                   | ShortNode nk nv _ => shortNode t (common.concat k nk) nv
                   | _ => shortNode t k nn
                   end) as -> by (destruct nn; by injection H as <- <-).
      by apply merge_shaped.
    + injection H as <- <-. by right.
  - (* Full *)
    destruct Hcan as [|Hshaped]; [done|].
    destruct s as [|x s']; [by apply key_path_nonempty in Hpath|].
    destruct (drop_cons_inv _ _ _ _ Hs) as (Hx & Hdrop & Hlt & Hlen').
    pose proof Hwf as [Hl Hslots]%wf_full_inv.
    apply path_at_child in Hpath as [Hx16 Hpath'].
    destruct (Hslots x Hx16) as (c & Hc & Hcwf).
    rewrite Hx in H. cbn in H. rewrite Hc in H. cbn in H.
    destruct (_remove decodeNode fuel t c key (pos + 1))
      as [[d0 nn]| |] eqn:Hrem; cbn in H; try discriminate.
    inversion_clear Hshaped as [| |? ? _ Hseveral Hinner Hlast].
    assert (Hcan_c : x < 16 → canonical c).
    { intros Hx'. destruct (isNull c) eqn:Hcn; [apply isNull_true in Hcn as ->; by left|].
      right. apply (Hinner x); [done|done|by intros ->]. }
    assert (Hnn : (x = 16 → nn = NIL) ∧ (x < 16 → canonical nn)).
    { split.
      - intros ->. cbn in Hcwf, Hpath'.
        destruct (IH true c key (pos + 1) s' d0 nn Hcwf Hpath') as [Hnn _];
          [done|lia|done|done|by apply Hnn].
      - intros Hx'. rewrite bool_decide_false in Hcwf, Hpath' by lia.
        destruct (IH false c key (pos + 1) s' d0 nn Hcwf Hpath') as [_ Hnn];
          [done|lia|by intros _; apply Hcan_c|done|].
        by apply Hnn. }
    destruct d0; cbn in H; [|injection H as <- <-; split; [right|intros]; by constructor].
    destruct Hnn as [Hnnv Hnns].
    set (cs := <[x := nn]> l) in *.
    assert (Hcslen : length cs = 17) by (unfold cs; by rewrite length_insert).
    assert (Hcsinner : ∀ i c0, i < 16 → cs !! i = Some c0 → c0 ≠ NIL → shaped c0).
    { intros i c0 Hi Hc0 Hc0n. unfold cs in Hc0.
      apply list_lookup_insert_Some in Hc0 as [(-> & -> & _)|[Hix Hc0]].
      - by destruct (Hnns Hi).
      - by apply (Hinner i). }
    assert (Hcslast : ∀ c0, cs !! 16 = Some c0 → c0 = NIL ∨ isValue c0 = true).
    { intros c0 Hc0. unfold cs in Hc0.
      apply list_lookup_insert_Some in Hc0 as [(Hx' & <- & _)|[Hix Hc0]].
      - left. by apply Hnnv.
      - by apply Hlast. }
    destruct (scan_slots cs Hcslen) as (r & Hscan & Hcase). rewrite Hscan in H.
    cbn in H.
    destruct Hcase as [[-> Hnone]|[[-> Hcsseveral]|(j & -> & Hsole)]].
    + (* every slot empty: the node had two occupied slots *)
      exfalso.
      destruct Hseveral as (a & b & Ha & Hb & Hab & (ca & Hca & Hna) & (cb & Hcb & Hnb)).
      destruct (decide (a = x)) as [->|Hax].
      * specialize (Hnone b Hb). unfold cs in Hnone.
        rewrite list_lookup_insert_ne in Hnone by done. by simplify_eq.
      * specialize (Hnone a Ha). unfold cs in Hnone.
        rewrite list_lookup_insert_ne in Hnone by done. by simplify_eq.
    + rewrite bool_decide_false in H by lia. injection H as <- <-.
      assert (shaped (FullNode cs (touch fl))) by (by constructor).
      split; [by right|done].
    + rewrite bool_decide_true in H by lia. rewrite Nat2Z.id in H.
      pose proof Hsole as (Hj & (slot & Hslot & Hnull) & _).
      rewrite Hslot in H.
      assert (Hn' : shaped n'); [|split; [by right|done]].
      destruct (decide (j = 16)) as [->|Hj16].
      * cbn in H. injection H as <- <-.
        destruct (Hcslast slot Hslot) as [->|Hv]; [done|].
        destruct slot; try done. by apply shaped_leaf.
      * rewrite bool_decide_false in H by done. cbn in H.
        assert (Hslots' : shaped slot).
        { apply (Hcsinner j); [lia|done|by intros ->]. }
        assert (n' = match slot with
                     | ShortNode nk nv _ => shortNode t (common.concat [j] nk) nv
                     | _ => shortNode t [j] slot
                     end) as ->.
        { destruct slot; try (by inversion Hslots'); cbn in H; by injection H as <- <-. }
        by apply merge_shaped.
  - by apply wf_not_value in Hwf.
Qed.

End shaped_walks.

Section canonical_runs.

Variable decodeNode : Buffer → Hash.t → outcome node.

(** Operations on a trie without a store keep the canonical shape, and
    every path the trie answers is the nibble path of a key. *)
Lemma run_canonical fuel ops :
  ∀ (t t' : Trie),
    db t = None →
    wf decodeNode t (root t) →
    canonical (root t) →
    (∀ s d, maps (root t) s d → ∃ k, s = common.toNibbles k) →
    Forall (λ o, walk_fuel (op_key o) ≤ fuel) ops →
    run decodeNode fuel t ops = Ret t' →
    canonical (root t')
    ∧ (∀ s d, maps (root t') s d → ∃ k, s = common.toNibbles k)
    ∧ emptyRoot t' = emptyRoot t.
Proof.
  induction ops as [|o ops IH]; intros t t' Hdb Hwf Hcan Hkeys Hfuel Hrun.
  - cbn in Hrun. by injection Hrun as <-.
  - apply Forall_cons in Hfuel as [Ho Hfuel]. unfold walk_fuel in Ho.
    destruct o as [k0 v|k0]; cbn [run apply_op op_key] in *.
    + destruct (_insert_spec decodeNode t Hdb fuel false (root t)
                  (common.toNibbles k0) 0 (common.toNibbles k0) v)
        as (d & n' & Hins & Hn' & _ & _ & Hmaps);
        [done|apply toNibbles_key_path|done|lia|rewrite toNibbles_length; lia|].
      destruct (_insert_shaped decodeNode t Hdb fuel false (root t)
                  (common.toNibbles k0) 0 (common.toNibbles k0) v d n')
        as [Hshaped _];
        [done|apply toNibbles_key_path|done|lia|rewrite toNibbles_length; lia
        |done|done|done|].
      unfold insert, valueNode in Hrun. rewrite Hins in Hrun. cbn in Hrun.
      destruct (IH (set_root t n') t') as (? & ? & ?); [done| | | |done|done|done].
      * by apply (wf_agree decodeNode t).
      * by right.
      * intros s d' [[-> _]|[_ ?]]%Hmaps; [by eexists|by eapply Hkeys].
    + destruct (_remove_spec decodeNode t Hdb fuel false (root t)
                  (common.toNibbles k0) 0 (common.toNibbles k0))
        as (d & n' & Hrem & Hn' & _ & Hmaps);
        [done|apply toNibbles_key_path|done|lia|rewrite toNibbles_length; lia|].
      destruct (_remove_shaped decodeNode t Hdb fuel false (root t)
                  (common.toNibbles k0) 0 (common.toNibbles k0) d n')
        as [_ Hshaped];
        [done|apply toNibbles_key_path|done|lia|done|done|].
      destruct (Hshaped eq_refl) as [Hcan' _].
      unfold remove in Hrun. rewrite Hrem in Hrun. cbn in Hrun.
      destruct (IH (set_root t n') t') as (? & ? & ?); [done| |done| |done|done|done].
      * by apply (wf_agree decodeNode t).
      * intros s d' [_ ?]%Hmaps. by eapply Hkeys.
Qed.

(** X8: every trie built from the empty one without a store has the
    canonical shape: no Short node with an empty key, no Short node right
    above another, two or more occupied slots in every Full node, and a
    value only as the child of a leaf or in slot 16. *)
Theorem canonical_shape encode (h : Hash.t) (limit : option nat)
    (ops : list op) (fuel : nat) :
  Forall (λ o, walk_fuel (op_key o) ≤ fuel) ops →
  ∃ t', run decodeNode fuel (new_Trie encode h None limit) ops = Ret t'
        ∧ canonical (root t').
Proof.
  intros Hops.
  destruct (run_spec decodeNode fuel ops (new_Trie encode h None limit) (λ _, None))
    as (t' & Hrun & _); [done|constructor| |done|].
  { intros k' d. cbn. rewrite maps_NIL. naive_solver. }
  exists t'. split; [done|].
  eapply (run_canonical fuel ops (new_Trie encode h None limit) t');
    [done|constructor|by left| |done|done].
  intros s d. cbn. by rewrite maps_NIL.
Qed.

End canonical_runs.

(** ** A trie is determined by what it holds *)

Lemma shaped_full_two_paths l fl :
  shaped (FullNode l fl) →
  ∃ i j s s' d d', i ≠ j ∧ maps (FullNode l fl) (i :: s) d
                   ∧ maps (FullNode l fl) (j :: s') d'.
Proof.
  intros Hsh. inversion_clear Hsh as [| |? ? Hlen Hseveral Hinner Hlast].
  assert (Hin : ∀ a, a < 17 → occupied l a → ∃ s d, maps (FullNode l fl) (a :: s) d).
  { intros a Ha (c & Hc & Hn).
    destruct (decide (a = 16)) as [->|Ha16].
    - destruct (Hlast c Hc) as [->|Hv]; [done|]. destruct c; try done.
      exists [], data. econstructor; [done|constructor].
    - destruct (shaped_inhabited c) as (s & d & Hm).
      { apply (Hinner a); [lia|done|by intros ->]. }
      exists s, d. by econstructor. }
  destruct Hseveral as (a & b & Ha & Hb & Hab & Hoa & Hob).
  destruct (Hin a Ha Hoa) as (s & d & Hm), (Hin b Hb Hob) as (s' & d' & Hm').
  by exists a, b, s, s', d, d'.
Qed.

Lemma maps_leaf_iff k v fl s d :
  maps (ShortNode k (ValueNode v) fl) s d ↔ s = k ∧ d = v.
Proof.
  rewrite maps_short_iff. split.
  - intros (r & -> & [-> ->]%maps_value_iff). by rewrite app_nil_r.
  - intros [-> ->]. exists []. by rewrite app_nil_r, maps_value_iff.
Qed.

(** Two canonical subtrees that answer the same paths with the same
    values are the same apart from the cache flags. *)
Lemma canonical_unique n1 :
  shaped n1 → ∀ n2, shaped n2 →
  (∀ s d, maps n1 s d ↔ maps n2 s d) → content n1 = content n2.
Proof.
  induction 1 as [k d fl Hk|k l fl' fl Hk Hfull IH
                 |l fl Hlen Hseveral Hinner IH Hlast];
    intros n2 Hn2 Hsame.
  - (* leaf *)
    destruct Hn2 as [k2 d2 fl2 Hk2|k2 l2 fl2' fl2 Hk2 Hfull2|l2 fl2 Hfull2].
    + assert (Hm : maps (ShortNode k2 (ValueNode d2) fl2) k2 d2) by (by apply maps_leaf_iff).
      by apply Hsame, maps_leaf_iff in Hm as [-> ->].
    + destruct (shaped_full_two_paths _ _ Hfull2) as (i & j & s & s' & d1 & d2 & Hij & Hi & Hj).
      assert (H1 : maps (ShortNode k2 (FullNode l2 fl2') fl2) (k2 ++ i :: s) d1) by (by constructor).
      assert (H2 : maps (ShortNode k2 (FullNode l2 fl2') fl2) (k2 ++ j :: s') d2) by (by constructor).
      apply Hsame, maps_leaf_iff in H1 as [H1 _]. apply Hsame, maps_leaf_iff in H2 as [H2 _].
      rewrite <- H2 in H1. apply app_inv_head in H1. congruence.
    + destruct (shaped_full_two_paths l2 fl2) as (i & j & s & s' & d1 & d2 & Hij & Hi & Hj);
        [by constructor|].
      apply Hsame, maps_leaf_iff in Hi as [Hi _]. apply Hsame, maps_leaf_iff in Hj as [Hj _].
      congruence.
  - (* extension *)
    destruct (shaped_full_two_paths _ _ Hfull) as (i & j & s & s' & d1 & d2 & Hij & Hi & Hj).
    assert (H1 : maps (ShortNode k (FullNode l fl') fl) (k ++ i :: s) d1) by (by constructor).
    assert (H2 : maps (ShortNode k (FullNode l fl') fl) (k ++ j :: s') d2) by (by constructor).
    destruct Hn2 as [k2 d2' fl2 Hk2|k2 l2 fl2' fl2 Hk2 Hfull2|l2 fl2 Hfull2].
    + apply Hsame, maps_leaf_iff in H1 as [H1 _]. apply Hsame, maps_leaf_iff in H2 as [H2 _].
      rewrite <- H2 in H1. apply app_inv_head in H1. congruence.
    + destruct (shaped_full_two_paths _ _ Hfull2)
        as (i2 & j2 & s2 & s2' & e1 & e2 & Hij2 & Hi2 & Hj2).
      assert (H3 : maps (ShortNode k2 (FullNode l2 fl2') fl2) (k2 ++ i2 :: s2) e1)
        by (by constructor).
      assert (H4 : maps (ShortNode k2 (FullNode l2 fl2') fl2) (k2 ++ j2 :: s2') e2)
        by (by constructor).
      apply Hsame, maps_short_iff in H1 as (r1 & H1 & _).
      apply Hsame, maps_short_iff in H2 as (r2 & H2 & _).
      apply Hsame, maps_short_iff in H3 as (r3 & H3 & _).
      apply Hsame, maps_short_iff in H4 as (r4 & H4 & _).
      assert (k = k2) as <-.
      { clear -H1 H2 H3 H4 Hij Hij2.
        revert k2 H1 H2 H3 H4. induction k as [|x k IHk]; intros k2 H1 H2 H3 H4.
        - destruct k2 as [|y k2]; [done|]. cbn in *. congruence.
        - destruct k2 as [|y k2]; [cbn in *; congruence|].
          cbn in *. simplify_eq. f_equal. by apply IHk. }
      cbn. f_equal. apply (IH (FullNode l2 fl2')); [done|].
      intros s0 d0. split; intros Hm.
      * assert (Hm' : maps (ShortNode k (FullNode l fl') fl) (k ++ s0) d0) by (by constructor).
        apply Hsame, maps_short_iff in Hm' as (r & Hr & Hm'). by apply app_inv_head in Hr as ->.
      * assert (Hm' : maps (ShortNode k (FullNode l2 fl2') fl2) (k ++ s0) d0) by (by constructor).
        apply Hsame, maps_short_iff in Hm' as (r & Hr & Hm'). by apply app_inv_head in Hr as ->.
    + destruct (shaped_full_two_paths l2 fl2)
        as (i2 & j2 & s2 & s2' & e1 & e2 & Hij2 & Hi2 & Hj2); [by constructor|].
      apply Hsame, maps_short_iff in Hi2 as (r1 & Hi2 & _).
      apply Hsame, maps_short_iff in Hj2 as (r2 & Hj2 & _).
      destruct k; [done|]. cbn in *. congruence.
  - (* full *)
    destruct (shaped_full_two_paths l fl) as (i & j & s & s' & d1 & d2 & Hij & Hi & Hj);
      [by constructor|].
    destruct Hn2 as [k2 d2' fl2 Hk2|k2 l2 fl2' fl2 Hk2 Hfull2
                    |l2 fl2 Hlen2 Hseveral2 Hinner2 Hlast2].
    + apply Hsame, maps_leaf_iff in Hi as [Hi _]. apply Hsame, maps_leaf_iff in Hj as [Hj _].
      congruence.
    + apply Hsame, maps_short_iff in Hi as (r1 & Hi & _).
      apply Hsame, maps_short_iff in Hj as (r2 & Hj & _).
      destruct k2; [done|]. cbn in *. congruence.
    + cbn. f_equal. apply list_eq. intros x. rewrite !list_lookup_fmap.
      destruct (decide (x < 17)) as [Hx|Hx];
        [|by rewrite !lookup_ge_None_2 by lia].
      destruct (lookup_lt_is_Some_2 l x) as [c Hc]; [lia|].
      destruct (lookup_lt_is_Some_2 l2 x) as [c2 Hc2]; [lia|].
      rewrite Hc, Hc2. cbn. f_equal.
      assert (Hchild : ∀ r d, maps c r d ↔ maps c2 r d).
      { intros r d. split; intros Hm.
        - assert (Hm' : maps (FullNode l fl) (x :: r) d) by (by econstructor).
          apply Hsame, maps_full_iff in Hm' as (? & ? & ? & [= <- <-] & ? & ?).
          by simplify_eq.
        - assert (Hm' : maps (FullNode l2 fl2) (x :: r) d) by (by econstructor).
          apply Hsame, maps_full_iff in Hm' as (? & ? & ? & [= <- <-] & ? & ?).
          by simplify_eq. }
      destruct (decide (x = 16)) as [->|Hx16].
      * destruct (Hlast c Hc) as [->|Hv], (Hlast2 c2 Hc2) as [->|Hv2]; [done| | |].
        -- destruct c2; try done.
           exfalso. apply (maps_NIL [] data), Hchild. constructor.
        -- destruct c; try done.
           exfalso. apply (maps_NIL [] data), Hchild. constructor.
        -- destruct c as [| | | |v], c2 as [| | | |v2]; try done.
           pose proof (maps_value v) as Hm.
           by apply Hchild, maps_value_iff in Hm as [_ ->].
      * destruct (isNull c) eqn:Hcn, (isNull c2) eqn:Hcn2.
        -- by apply isNull_true in Hcn as ->, Hcn2 as ->.
        -- destruct (shaped_inhabited c2) as (r & d & Hm).
           { apply (Hinner2 x); [lia|done|by intros ->]. }
           apply isNull_true in Hcn as ->. by apply Hchild, maps_NIL in Hm.
        -- destruct (shaped_inhabited c) as (r & d & Hm).
           { apply (Hinner x); [lia|done|by intros ->]. }
           apply isNull_true in Hcn2 as ->. by apply Hchild, maps_NIL in Hm.
        -- apply (IH x); [lia|done|by intros ->| |done].
           apply (Hinner2 x); [lia|done|by intros ->].
Qed.

Section contents.

Variable encode : node → Buffer.
Variable decodeNode : Buffer → Hash.t → outcome node.

(** What a run from the empty trie without a store ends with: a
    canonical root that answers exactly the last writes. *)
Lemma run_contents (h : Hash.t) (limit : option nat) (ops : list op) (fuel : nat) :
  Forall (λ o, walk_fuel (op_key o) ≤ fuel) ops →
  ∃ t', run decodeNode fuel (new_Trie encode h None limit) ops = Ret t'
        ∧ canonical (root t')
        ∧ emptyRoot t' = common_emptyRoot encode h
        ∧ ∀ s d, maps (root t') s d
                 ↔ ∃ k, s = common.toNibbles k ∧ last_write k ops None = Some d.
Proof.
  intros Hops.
  destruct (run_spec decodeNode fuel ops (new_Trie encode h None limit) (λ _, None))
    as (t' & Hrun & _ & _ & Hm); [done|constructor| |done|].
  { intros k' d. cbn. rewrite maps_NIL. naive_solver. }
  destruct (run_canonical decodeNode fuel ops (new_Trie encode h None limit) t')
    as (Hcan & Hkeys & Hempty); [done|constructor|by left| |done|done|].
  { intros s d. cbn. by rewrite maps_NIL. }
  exists t'. split; [done|]. split; [done|]. split; [done|].
  intros s d. split.
  - intros Hs. destruct (Hkeys s d Hs) as [k ->]. exists k. split; [done|]. by apply Hm.
  - intros (k & -> & Hk). by apply Hm.
Qed.

(** X9: once every key that was inserted has been removed again, the
    trie is back at the Null root and [rootHash()] returns the empty root
    [hash(encode(Null))], as on a new trie. *)
Theorem emptied_trie Hasher_hashRoot (h : Hash.t) (limit : option nat)
    (ops : list op) (fuel : nat) (enc : option string) :
  Forall (λ o, walk_fuel (op_key o) ≤ fuel) ops →
  (∀ k, last_write k ops None = None) →
  ∃ t', run decodeNode fuel (new_Trie encode h None limit) ops = Ret t'
        ∧ root t' = NIL
        ∧ rootHash Hasher_hashRoot t' enc
          = (encode_digest enc (Hash.digest h (encode NIL)), t').
Proof.
  intros Hops Hnone.
  destruct (run_contents h limit ops fuel Hops) as (t' & Hrun & Hcan & Hempty & Hm).
  exists t'. split; [done|].
  assert (Hroot : root t' = NIL).
  { destruct Hcan as [|Hsh]; [done|].
    destruct (shaped_inhabited _ Hsh) as (s & d & (k & _ & Hk)%Hm).
    by rewrite Hnone in Hk. }
  split; [done|].
  unfold rootHash, hashRoot. rewrite Hroot. cbn. rewrite Hempty.
  f_equal. destruct t'. cbn in *. by subst.
Qed.

(** X10: the tree depends on what the trie holds and not on how it got
    there: two sequences of inserts and removes after which every key has
    the same value leave the same nodes, the cache flags apart. *)
Theorem history_independence (h : Hash.t) (limit1 limit2 : option nat)
    (ops1 ops2 : list op) (fuel1 fuel2 : nat) :
  Forall (λ o, walk_fuel (op_key o) ≤ fuel1) ops1 →
  Forall (λ o, walk_fuel (op_key o) ≤ fuel2) ops2 →
  (∀ k, last_write k ops1 None = last_write k ops2 None) →
  ∃ t1 t2,
    run decodeNode fuel1 (new_Trie encode h None limit1) ops1 = Ret t1
    ∧ run decodeNode fuel2 (new_Trie encode h None limit2) ops2 = Ret t2
    ∧ content (root t1) = content (root t2).
Proof.
  intros Hops1 Hops2 Hsame.
  destruct (run_contents h limit1 ops1 fuel1 Hops1) as (t1 & Hrun1 & Hcan1 & _ & Hm1).
  destruct (run_contents h limit2 ops2 fuel2 Hops2) as (t2 & Hrun2 & Hcan2 & _ & Hm2).
  exists t1, t2. split; [done|]. split; [done|].
  assert (Hmaps : ∀ s d, maps (root t1) s d ↔ maps (root t2) s d).
  { intros s d. rewrite Hm1, Hm2. by setoid_rewrite Hsame. }
  destruct Hcan1 as [Hn1|Hs1], Hcan2 as [Hn2|Hs2].
  - by rewrite Hn1, Hn2.
  - destruct (shaped_inhabited _ Hs2) as (s & d & Hm). apply Hmaps in Hm.
    rewrite Hn1 in Hm. by apply maps_NIL in Hm.
  - destruct (shaped_inhabited _ Hs1) as (s & d & Hm). apply Hmaps in Hm.
    rewrite Hn2 in Hm. by apply maps_NIL in Hm.
  - by apply canonical_unique.
Qed.

End contents.

(** ** The further properties at work on small tries *)

Lemma lifecycle_rooted_witness : rooted demo.loaded.
Proof.
  destruct (lifecycle_rooted demo.encode demo.stored (RootBuffer [xaa]) demo.loaded)
    as (_ & _ & H & _).
  apply H; [by left|reflexivity].
Defined.

Lemma snapshot_open_witness :
  snapshot demo.encode demo.fresh RootAbsent
  = Throw (Error "Cannot snapshot without database.")
  ∧ snapshot demo.encode demo.stored (RootBuffer [xaa])
    = open demo.stored (RootBuffer [xaa]).
Proof.
  split.
  - apply (snapshot_open demo.encode demo.fresh). reflexivity.
  - apply (snapshot_open demo.encode demo.stored) with (store := demo.store).
    + reflexivity.
    + reflexivity.
    + right. reflexivity.
Defined.

Lemma inject_without_store_witness :
  inject demo.stored (RootBuffer [xaa; xaa]) = Throw AssertionError
  ∧ inject demo.stored (RootBuffer [xbb])
    = Ret {| hash := demo.h; emptyRoot := [x01]; db := Some demo.store;
             originalRoot := [xbb]; root := HashNode [xbb];
             cacheGen := 0; cacheLimit := 4 |}
  ∧ DB.has demo.store [xbb] = false.
Proof.
  split; [|split].
  - apply (inject_without_store demo.stored [xaa; xaa]). cbn. lia.
  - apply (inject_without_store demo.stored [xbb]). reflexivity.
  - reflexivity.
Defined.

Lemma hash_root_without_store_witness :
  get demo.decodeNode 1 (opened demo.fresh [xaa]) [x12]
  = Throw (Error "Cannot resolve hash without database.").
Proof.
  apply (hash_root_without_store demo.decodeNode 0 (opened demo.fresh [xaa])
           [xaa] [x12] []); reflexivity.
Defined.

Lemma get_twice_witness :
  get demo.decodeNode 3 (set_root demo.fresh demo.leaf) [x12]
  = Ret (Some [x2a], set_root demo.fresh demo.leaf).
Proof.
  apply (get_twice demo.decodeNode 3 demo.loaded [x12] (Some [x2a])
           (set_root demo.loaded demo.leaf)); reflexivity.
Defined.

Lemma nothing_to_do_witness :
  run demo.decodeNode 4 demo.fresh [Insert [x12] [x01]; Insert [x12] [x01]]
  = run demo.decodeNode 4 demo.fresh [Insert [x12] [x01]].
Proof.
  apply (nothing_to_do demo.decodeNode demo.encode demo.h None
           [Insert [x12] [x01]] [x12] [x01] 4).
  - repeat constructor; cbn; lia.
  - cbn; lia.
  - reflexivity.
Defined.

Lemma canonical_shape_witness :
  ∃ t', run demo.decodeNode 6 demo.fresh
          [Insert [x12] [x01]; Insert [x12; x34] [x02]; Remove [x12]] = Ret t'
        ∧ canonical (root t').
Proof.
  apply (canonical_shape demo.decodeNode demo.encode demo.h None
           [Insert [x12] [x01]; Insert [x12; x34] [x02]; Remove [x12]] 6).
  repeat constructor; cbn; lia.
Defined.

Lemma emptied_trie_witness :
  ∃ t', run demo.decodeNode 4 demo.fresh [Insert [x12] [x01]; Remove [x12]] = Ret t'
        ∧ root t' = NIL
        ∧ rootHash demo.Hasher_hashRoot t' None = (Raw [x01], t').
Proof.
  apply (emptied_trie demo.encode demo.decodeNode demo.Hasher_hashRoot demo.h None
           [Insert [x12] [x01]; Remove [x12]] 4 None).
  - repeat constructor; cbn; lia.
  - intros k. cbn. by case_bool_decide.
Defined.

Lemma history_independence_witness :
  ∃ t1 t2,
    run demo.decodeNode 4 demo.fresh [Insert [x12] [x01]; Insert [x34] [x02]] = Ret t1
    ∧ run demo.decodeNode 4 demo.fresh [Insert [x34] [x02]; Insert [x12] [x01]] = Ret t2
    ∧ content (root t1) = content (root t2).
Proof.
  apply (history_independence demo.encode demo.decodeNode demo.h None None
           [Insert [x12] [x01]; Insert [x34] [x02]]
           [Insert [x34] [x02]; Insert [x12] [x01]] 4 4).
  - repeat constructor; cbn; lia.
  - repeat constructor; cbn; lia.
  - intros k. cbn. repeat case_bool_decide; by simplify_eq.
Defined.

(** ** Reading back what was written, with or without a store *)

Section answers_facts.

Variable decodeNode : Buffer → Hash.t → outcome node.

#[local] Abbreviation answers := (answers decodeNode).

Lemma answers_mono fuel fuel' (t : Trie) n key pos o :
  fuel ≤ fuel' → answers fuel t n key pos o → answers fuel' t n key pos o.
Proof.
  intros Hle (nn & res & H). exists nn, res.
  by apply (_get_fuel_mono decodeNode fuel fuel').
Qed.

Lemma answers_nil fuel (t : Trie) key pos :
  pos ≤ length key → answers (S fuel) t NIL key pos None.
Proof. intros Hpos. eexists _, _. cbn [_get]. by rewrite assert_true. Qed.

Lemma answers_value fuel (t : Trie) v key pos :
  pos ≤ length key → answers (S fuel) t (ValueNode v) key pos (Some v).
Proof. intros Hpos. eexists _, _. cbn [_get]. by rewrite assert_true. Qed.

Lemma answers_short_miss fuel (t : Trie) k c fl key pos :
  pos ≤ length key → common.startsWith key k pos = false →
  answers (S fuel) t (ShortNode k c fl) key pos None.
Proof.
  intros Hpos Hsw. eexists _, _. cbn [_get]. rewrite assert_true by done. cbn.
  by rewrite Hsw.
Qed.

Lemma answers_short fuel (t : Trie) k c fl key pos o :
  pos ≤ length key → common.startsWith key k pos = true →
  answers fuel t c key (pos + length k) o →
  answers (S fuel) t (ShortNode k c fl) key pos o.
Proof.
  intros Hpos Hsw (nn & res & H). eexists _, _. cbn [_get].
  rewrite assert_true by done. cbn. rewrite Hsw. cbn. by rewrite H.
Qed.

Lemma answers_full fuel (t : Trie) cs fl key pos i c o :
  pos ≤ length key → key !! pos = Some i → cs !! i = Some c →
  answers fuel t c key (pos + 1) o →
  answers (S fuel) t (FullNode cs fl) key pos o.
Proof.
  intros Hpos Hi Hc (nn & res & H). eexists _, _. cbn [_get].
  rewrite assert_true by done. cbn. rewrite Hi. cbn. rewrite Hc. cbn. by rewrite H.
Qed.

Lemma answers_hash fuel (t : Trie) data rn key pos o :
  pos ≤ length key → resolveHash decodeNode t data key pos = Ret rn →
  answers fuel t rn key pos o →
  answers (S fuel) t (HashNode data) key pos o.
Proof.
  intros Hpos Hrn (nn & res & H). eexists _, _. cbn [_get].
  rewrite assert_true by done. cbn. rewrite Hrn. cbn. by rewrite H.
Qed.

Lemma common_len_whole a b :
  common.common_len a b = length b → ∃ r, a = b ++ r.
Proof.
  revert a. induction b as [|y b IH]; intros a H; [by exists a|].
  destruct a as [|x a]; [done|]. cbn in H.
  case_bool_decide as Hxy; [|done]. subst y.
  destruct (IH a) as [r ->]; [lia|]. by exists r.
Qed.

Lemma common_len_le a b : common.common_len a b ≤ length a ∧ common.common_len a b ≤ length b.
Proof.
  revert b. induction a as [|x a IH]; intros [|y b]; cbn; try lia.
  case_bool_decide; [|lia]. specialize (IH b). lia.
Qed.

Lemma startsWith_slice key pos ml :
  ml ≤ length key - pos →
  common.startsWith key (common.slice key pos (pos + ml)) pos = true.
Proof.
  intros Hml. apply startsWith_true. unfold common.slice.
  exists (drop ml (drop pos key)). replace (pos + ml - pos) with ml by lia.
  by rewrite take_drop.
Qed.

(** After an insert returned, a lookup of the key finds the value: in
    the node handed back and, when the insert reports no change, in the
    node it was given. *)
Lemma _insert_then_get fuel :
  ∀ (t : Trie) n key pos v d nn,
    Forall (λ x, x < 17) key →
    _insert decodeNode fuel t n key pos (ValueNode v) = Ret (d, nn) →
    answers (fuel + 2) t nn key pos (Some v)
    ∧ (d = false → answers (fuel + 2) t n key pos (Some v)).
Proof.
  induction fuel as [|fuel IH]; intros t n key pos v d nn Hkey H; [discriminate|].
  cbn [_insert] in H. bind_inv H. apply assert_Ret, bool_decide_eq_true in H0.
  rename H0 into Hpos. clear a. change (S fuel + 2) with (S (fuel + 2)).
  destruct (decide (length key - pos = 0)) as [Hend|Hmore].
  { rewrite bool_decide_true in H by done.
    destruct n as [|data|k c fl|l fl|data]; cbn in H; injection H as <- <-;
      try (split; [by apply answers_value|done]).
    split; [by apply answers_value|].
    intros ->%negb_false_iff%bool_decide_eq_true. by apply answers_value. }
  rewrite bool_decide_false in H by done.
  destruct n as [|data|k c fl|l fl|data].
  - (* Null *)
    injection H as <- <-. split; [|done].
    apply answers_short; [done|apply startsWith_true; exists []; by rewrite app_nil_r|].
    replace (fuel + 2) with (S (fuel + 1)) by lia.
    apply answers_value. unfold common.slice_from. rewrite length_drop. lia.
  - (* Hash *)
    bind_inv H. rename a into rn, H0 into Hrn. bind_inv H. destruct a as [d' nn'].
    destruct (IH _ _ _ _ _ _ _ Hkey H0) as [Hnn Hrn'].
    destruct d'; cbn in H; injection H as <- <-.
    + split; [|done]. eapply answers_mono; [|done]. lia.
    + specialize (Hrn' eq_refl). split.
      * eapply answers_mono; [|done]. lia.
      * intros _. by eapply answers_hash.
  - (* Short *)
    cbn zeta in H. unfold common.prefixLen in H.
    pose proof (common_len_le (drop pos key) k) as [Hml1 Hml2].
    rewrite length_drop in Hml1.
    set (ml := common.common_len (drop pos key) k) in *.
    destruct (decide (ml = length k)) as [Hfull|Hpart].
    + rewrite bool_decide_true in H by done.
      bind_inv H. destruct a as [d' nn'].
      destruct (IH _ _ _ _ _ _ _ Hkey H0) as [Hnn Hc].
      assert (Hsw : common.startsWith key k pos = true).
      { apply startsWith_true. by apply common_len_whole. }
      rewrite Hfull in *.
      destruct d'; cbn in H; injection H as <- <-.
      * split; [|done]. by apply answers_short.
      * specialize (Hc eq_refl). split; [|intros _]; by apply answers_short.
    + rewrite bool_decide_false in H by done.
      bind_inv H. destruct a as [d1 n1]. bind_inv H. destruct a as [d2 n2].
      destruct fuel as [|fuel]; [discriminate|].
      cbn [_insert] in H1. bind_inv H1. apply assert_Ret, bool_decide_eq_true in H2.
      rename H2 into Hpos2. clear a.
      destruct (lookup_lt_is_Some_2 k ml) as [x Hx]; [lia|].
      destruct (lookup_lt_is_Some_2 key (pos + ml)) as [y Hy]; [lia|].
      assert (Hy17 : y < 17) by exact (Forall_lookup_1 _ key (pos + ml) y Hkey Hy).
      rewrite Hx, Hy in H. unfold fullNode, new_FullNode, set_child in H.
      assert (Hn2 : answers (fuel + 2) t n2 key (pos + ml + 1) (Some v)).
      { destruct (decide (length key - (pos + ml + 1) = 0)) as [Hend2|Hend2];
          [rewrite bool_decide_true in H1 by done|rewrite bool_decide_false in H1 by done];
          injection H1 as <- <-.
        - eapply answers_mono; [|by apply (answers_value 0)]. lia.
        - eapply answers_mono; [|apply (answers_short 1)]; [lia|done| |].
          + apply startsWith_true. exists []. by rewrite app_nil_r.
          + apply answers_value. unfold common.slice_from. rewrite length_drop. lia. }
      assert (Hbranch : ∀ fl',
        answers (fuel + 3) t
          (FullNode (<[y:=n2]> (<[x:=n1]> (replicate 17 NIL))) fl') key (pos + ml) (Some v)).
      { intros fl'. replace (fuel + 3) with (S (fuel + 2)) by lia.
        eapply answers_full; [lia|done| |done].
        apply list_lookup_insert_eq. by rewrite length_insert, length_replicate. }
      destruct (decide (ml = 0)) as [Hml0|Hml0];
        [rewrite bool_decide_true in H by done|rewrite bool_decide_false in H by done];
        injection H as <- <-; (split; [|done]).
      * rewrite Hml0, Nat.add_0_r in Hbranch.
        eapply answers_mono; [|apply Hbranch]. lia.
      * replace (S (S fuel + 2)) with (S (fuel + 3)) by lia.
        apply answers_short; [done|by apply startsWith_slice|].
        unfold common.slice. rewrite length_take, length_drop.
        replace (pos + (pos + ml - pos) `min` (length key - pos)) with (pos + ml) by lia.
        apply Hbranch.
  - (* Full *)
    destruct (key !! pos) as [i|] eqn:Hi; cbn in H;
      [|unfold undefined_node in H; bind_inv H; discriminate].
    destruct (l !! i) as [c|] eqn:Hc; cbn in H;
      [|unfold undefined_node in H; bind_inv H; discriminate].
    bind_inv H. destruct a as [d' nn'].
    destruct (IH _ _ _ _ _ _ _ Hkey H0) as [Hnn Hc'].
    destruct d'; cbn in H; injection H as <- <-.
    + split; [|done]. eapply answers_full; [done|done| |done].
      apply list_lookup_insert_eq. by eapply lookup_lt_Some.
    + specialize (Hc' eq_refl). split; [|intros _]; by eapply answers_full.
  - discriminate.
Qed.

(** X11: read your writes, with or without a store: whenever
    [insert(key, value)] returns, a [get(key)] that follows returns the
    value. *)
Theorem insert_then_get fuel (t : Trie) key value t1 :
  insert decodeNode fuel t key value = Ret t1 →
  ∃ t2, get decodeNode (fuel + 2) t1 key = Ret (Some value, t2).
Proof.
  intros H. unfold insert, valueNode in H. bind_inv H. destruct a as [d r].
  injection H as <-.
  destruct (_insert_then_get fuel t (root t) (common.toNibbles key) 0 value d r)
    as [(nn & res & Hget) _]; [|done|].
  { destruct (toNibbles_key_path key) as (body & -> & Hbody).
    apply Forall_app. split; [|repeat constructor].
    eapply Forall_impl; [done|]. cbn. lia. }
  unfold get. cbn. rewrite _get_set_root, Hget. cbn. by eexists.
Qed.

Lemma answers_fuel (t : Trie) n key pos o :
  ¬ answers 0 t n key pos o.
Proof. by intros (nn & res & H). Qed.

Lemma answers_pos fuel (t : Trie) n key pos o :
  answers fuel t n key pos o → pos ≤ length key.
Proof.
  intros (nn & res & H). destruct fuel; [done|]. cbn [_get] in H.
  bind_inv H. by apply assert_Ret, bool_decide_eq_true in H0.
Qed.

Lemma answers_short_inv fuel (t : Trie) k c fl key pos o :
  answers (S fuel) t (ShortNode k c fl) key pos o →
  (common.startsWith key k pos = false ∧ o = None)
  ∨ (common.startsWith key k pos = true ∧ answers fuel t c key (pos + length k) o).
Proof.
  intros (nn & res & H). cbn [_get] in H. bind_inv H. clear H0.
  destruct (common.startsWith key k pos); cbn in H.
  - right. split; [done|]. bind_inv H. destruct a0 as [[val nn'] res'].
    injection H as <- _ _. by exists nn', res'.
  - left. by injection H as <- _ _.
Qed.

Lemma answers_hash_inv fuel (t : Trie) data key pos o :
  answers (S fuel) t (HashNode data) key pos o →
  ∃ rn, resolveHash decodeNode t data key pos = Ret rn ∧ answers fuel t rn key pos o.
Proof.
  intros (nn & res & H). cbn [_get] in H. bind_inv H. clear H0.
  bind_inv H. rename a0 into rn. exists rn. split; [done|].
  bind_inv H. destruct a0 as [[val nn'] res']. injection H as <- _ _.
  by exists nn', res'.
Qed.

Lemma startsWith_app key k nk pos :
  common.startsWith key k pos = true →
  common.startsWith key (k ++ nk) pos = common.startsWith key nk (pos + length k).
Proof.
  intros [r1 Hr1]%startsWith_true.
  assert (Hdrop : drop (pos + length k) key = r1).
  { by rewrite <- drop_drop, Hr1, drop_app_length. }
  destruct (common.startsWith key nk (pos + length k)) eqn:Hnk.
  - apply startsWith_true in Hnk as [r2 Hr2]. apply startsWith_true. exists r2.
    rewrite Hr1, <- Hdrop, Hr2. by rewrite app_assoc.
  - destruct (common.startsWith key (k ++ nk) pos) eqn:Hsw; [|done].
    apply startsWith_true in Hsw as [r Hr]. rewrite <- Hnk. symmetry.
    apply startsWith_true. exists r. rewrite Hdrop.
    rewrite Hr1, <- app_assoc in Hr. by apply app_inv_head in Hr.
Qed.

Lemma startsWith_byte key pos i j :
  key !! pos = Some i →
  common.startsWith key [j] pos = bool_decide (i = j).
Proof.
  intros Hi. apply (drop_S key i pos) in Hi as Hdrop.
  case_bool_decide as Hij.
  - subst j. apply startsWith_true. by exists (drop (S pos) key).
  - destruct (common.startsWith key [j] pos) eqn:Hsw; [|done].
    apply startsWith_true in Hsw as [r Hr]. rewrite Hdrop in Hr. by simplify_eq/=.
Qed.

(** A Short node merged with the Short node below it answers what the
    lower one answered. *)
Lemma answers_merge fuel (t : Trie) k nk nv fl fl' key pos o :
  pos ≤ length key → common.startsWith key k pos = true →
  answers fuel t (ShortNode nk nv fl) key (pos + length k) o →
  answers fuel t (ShortNode (k ++ nk) nv fl') key pos o.
Proof.
  intros Hpos Hsw H. destruct fuel as [|fuel]; [by apply answers_fuel in H|].
  apply answers_short_inv in H as [[Hnk ->]|[Hnk H]].
  - apply answers_short_miss; [done|]. by rewrite startsWith_app.
  - apply answers_short; [done|by rewrite startsWith_app|].
    by rewrite length_app, Nat.add_assoc.
Qed.

(** After a remove returned, a lookup of the key finds nothing: in the
    node handed back and, when the remove reports no change, in the node
    it was given. *)
Lemma _remove_then_get fuel :
  ∀ (t : Trie) n key pos d nn,
    _remove decodeNode fuel t n key pos = Ret (d, nn) →
    answers fuel t nn key pos None
    ∧ (d = false → answers fuel t n key pos None).
Proof.
  induction fuel as [|fuel IH]; intros t n key pos d nn H; [discriminate|].
  cbn [_remove] in H. bind_inv H. apply assert_Ret, bool_decide_eq_true in H0.
  rename H0 into Hpos. clear a.
  destruct n as [|data|k c fl|l fl|data].
  - injection H as <- <-. split; [|intros _]; by apply answers_nil.
  - (* Hash *)
    bind_inv H. rename a into rn, H0 into Hrn. bind_inv H. destruct a as [d' nn'].
    destruct (IH _ _ _ _ _ _ H0) as [Hnn Hrn'].
    destruct d'; cbn in H; injection H as <- <-.
    + split; [|done]. eapply answers_mono; [|done]. lia.
    + specialize (Hrn' eq_refl). split.
      * eapply answers_mono; [|done]. lia.
      * intros _. by eapply answers_hash.
  - (* Short *)
    cbn zeta in H. unfold common.prefixLen in H.
    pose proof (common_len_le (drop pos key) k) as [Hml1 Hml2].
    rewrite length_drop in Hml1.
    destruct (decide (common.common_len (drop pos key) k < length k)) as [Hlt|Hge].
    { rewrite bool_decide_true in H by done. injection H as <- <-.
      assert (common.startsWith key k pos = false).
      { destruct (common.startsWith key k pos) eqn:Hsw; [|done].
        apply startsWith_true in Hsw as [r Hr]. rewrite Hr, common_len_prefix in Hlt. lia. }
      split; [|intros _]; by apply answers_short_miss. }
    rewrite bool_decide_false in H by done.
    assert (Hsw : common.startsWith key k pos = true).
    { apply startsWith_true, common_len_whole. lia. }
    case_bool_decide as Hend; [injection H as <- <-; split; [by apply answers_nil|done]|].
    bind_inv H. destruct a as [d' nn'].
    destruct (IH _ _ _ _ _ _ H0) as [Hnn Hc].
    destruct d'; cbn in H.
    + split; [|destruct nn'; by injection H as <- _].
      destruct nn' as [|data|nk nv nfl|l nfl|data]; injection H as _ <-;
        try (by apply answers_short).
      eapply answers_mono; [|by eapply answers_merge]. lia.
    + injection H as <- <-. specialize (Hc eq_refl).
      split; [|intros _]; by apply answers_short.
  - (* Full *)
    destruct (key !! pos) as [i|] eqn:Hi; cbn in H;
      [|unfold undefined_node in H; bind_inv H; discriminate].
    destruct (l !! i) as [c|] eqn:Hc; cbn in H;
      [|unfold undefined_node in H; bind_inv H; discriminate].
    bind_inv H. destruct a as [d' nn'].
    destruct (IH _ _ _ _ _ _ H0) as [Hnn Hc'].
    destruct d'; cbn in H.
    2: { injection H as <- <-. specialize (Hc' eq_refl).
         split; [|intros _]; by eapply answers_full. }
    bind_inv H. rename a into index.
    assert (Hcs : <[i:=nn']> l !! i = Some nn').
    { apply list_lookup_insert_eq. by eapply lookup_lt_Some. }
    case_bool_decide as Hindex.
    2: { injection H as <- <-. split; [|done]. by eapply answers_full. }
    destruct (<[i:=nn']> l !! Z.to_nat index) as [slot|] eqn:Hslot; [|discriminate].
    set (j := Z.to_nat index) in *.
    assert (Hbyte : common.startsWith key [j] pos = bool_decide (i = j))
      by (by apply startsWith_byte).
    assert (Hone : ∀ fl', answers (S fuel) t (ShortNode [j] slot fl') key pos None).
    { intros fl'. destruct (decide (i = j)) as [Hij|Hij].
      - rewrite bool_decide_true in Hbyte by done.
        apply answers_short; [done|done|]. cbn. subst j. rewrite <- Hij in Hslot.
        by simplify_eq.
      - rewrite bool_decide_false in Hbyte by done. by apply answers_short_miss. }
    assert (d = true) as ->.
    { destruct (negb _); [|by injection H].
      bind_inv H. destruct a; by injection H. }
    split; [|done].
    destruct (negb (bool_decide (j = 16))); cbn in H;
      [|injection H as <-; apply Hone].
    bind_inv H. rename a into child.
    destruct child as [|cd|ck cv cfl|cl cfl|cd]; injection H as <-; try apply Hone.
    unfold shortNode, common.concat, common.byte.
    destruct (decide (i = j)) as [Hij|Hij].
    2: { rewrite bool_decide_false in Hbyte by done.
         apply answers_short_miss; [done|].
         destruct (common.startsWith key ([j] ++ ck) pos) eqn:Hsw; [|done].
         apply startsWith_true in Hsw as [r Hr].
         assert (common.startsWith key [j] pos = true); [|congruence].
         apply startsWith_true. exists (ck ++ r). by rewrite Hr, <- app_assoc. }
    rewrite bool_decide_true in Hbyte by done.
    assert (slot = nn') as -> by (subst j; rewrite <- Hij in Hslot; by simplify_eq).
    eapply answers_mono; [|eapply (answers_merge fuel t [j] ck cv cfl); [done|done|]]; [lia|].
    cbn [length]. unfold resolve in H2.
    destruct nn' as [|data|nk nv nfl|nl nfl|data]; try (by simplify_eq).
    (* the slot holds a Hash node *)
    destruct fuel as [|fuel]; [by apply answers_fuel in Hnn|].
    apply answers_hash_inv in Hnn as (rn & Hrn & Hnn).
    apply resolveHash_Ret in Hrn, H2.
    rewrite (decoded_from_store_fun decodeNode t _ _ _ H2 Hrn).
    eapply answers_mono; [|done]. lia.
  - injection H as <- <-. split; [by apply answers_nil|done].
Qed.

(** X12: whenever [remove(key)] returns, with or without a store, a
    [get(key)] that follows returns null. *)
Theorem remove_then_get fuel (t : Trie) key t1 :
  remove decodeNode fuel t key = Ret t1 →
  ∃ t2, get decodeNode fuel t1 key = Ret (None, t2).
Proof.
  intros H. unfold remove in H. bind_inv H. destruct a as [d r].
  injection H as <-.
  destruct (_remove_then_get fuel t (root t) (common.toNibbles key) 0 d r)
    as [(nn & res & Hget) _]; [done|].
  unfold get. cbn. rewrite _get_set_root, Hget. cbn. by eexists.
Qed.

Lemma answers_full_inv fuel (t : Trie) l fl key pos o :
  answers (S fuel) t (FullNode l fl) key pos o →
  ∃ i c, key !! pos = Some i ∧ l !! i = Some c ∧ answers fuel t c key (pos + 1) o.
Proof.
  intros (nn & res & H). cbn [_get] in H. bind_inv H. clear H0.
  destruct (key !! pos) as [i|] eqn:Hi; cbn in H;
    [|unfold undefined_node in H; bind_inv H; discriminate].
  destruct (l !! i) as [c|] eqn:Hc; cbn in H;
    [|unfold undefined_node in H; bind_inv H; discriminate].
  bind_inv H. destruct a0 as [[val nn'] res']. injection H as <- _ _.
  exists i, c. split; [done|]. split; [done|]. by exists nn', res'.
Qed.

(** What a lookup hands back is the node it was given, with the Hash
    nodes on its way resolved. *)
Lemma _get_resolved fuel :
  ∀ (t : Trie) n key pos val nn res,
    _get decodeNode fuel t n key pos = Ret (val, nn, res) →
    resolved decodeNode t n nn.
Proof.
  induction fuel as [|fuel IH]; intros t n key pos val nn res H; [discriminate|].
  cbn [_get] in H. bind_inv H. clear H0 a.
  destruct n as [|data|k c fl|l fl|data].
  - injection H as <- <- <-. constructor.
  - bind_inv H. rename a into rn. bind_inv H. destruct a as [[val' nn'] res'].
    injection H as <- <- <-. apply resolveHash_Ret in H0.
    eapply resolved_hash; [done|]. by eapply IH.
  - destruct (negb _); [injection H as <- <- <-; constructor|].
    bind_inv H. destruct a as [[val' nn'] res']. injection H as <- <- <-.
    destruct res'; [|constructor]. constructor. by eapply IH.
  - destruct (key !! pos) as [i|] eqn:Hi; cbn in H;
      [|unfold undefined_node in H; bind_inv H; discriminate].
    destruct (l !! i) as [c|] eqn:Hc; cbn in H;
      [|unfold undefined_node in H; bind_inv H; discriminate].
    bind_inv H. destruct a as [[val' nn'] res']. injection H as <- <- <-.
    destruct res'; [|constructor]. econstructor; [done|]. by eapply IH.
  - injection H as <- <- <-. constructor.
Qed.

(** Resolving Hash nodes does not change what a lookup answers. *)
Lemma resolved_answers (t : Trie) n n' :
  resolved decodeNode t n n' →
  ∀ fuel key pos o, answers fuel t n key pos o → answers fuel t n' key pos o.
Proof.
  induction 1 as [n|data rn n' Hrn _ IH|k c c' fl _ IH|l i c c' fl Hc _ IH];
    intros fuel key pos o H; [done|..];
    (destruct fuel as [|fuel]; [by apply answers_fuel in H|]);
    pose proof (answers_pos _ _ _ _ _ _ H) as Hpos.
  - apply answers_hash_inv in H as (rn' & Hrn' & H). apply resolveHash_Ret in Hrn'.
    rewrite (decoded_from_store_fun decodeNode t _ _ _ Hrn' Hrn) in H.
    eapply answers_mono; [|by apply IH]. lia.
  - apply answers_short_inv in H as [[Hsw ->]|[Hsw H]].
    + by apply answers_short_miss.
    + apply answers_short; [done|done|by apply IH].
  - apply answers_full_inv in H as (i2 & c2 & Hi2 & Hc2 & H).
    destruct (decide (i2 = i)) as [->|Hne].
    + eapply answers_full; [done|done| |apply IH; by simplify_eq].
      apply list_lookup_insert_eq. by eapply lookup_lt_Some.
    + eapply answers_full; [done|done| |done]. by rewrite list_lookup_insert_ne.
Qed.

(** X13: a [get] changes nothing that a [get] can see: whatever a lookup
    of any key returned on the trie before [get(key)], it returns on the
    trie that [get(key)] leaves. *)
Theorem get_read_only fuel (t : Trie) key val t' :
  get decodeNode fuel t key = Ret (val, t') →
  ∀ fuel2 key2 val2 t2,
    get decodeNode fuel2 t key2 = Ret (val2, t2) →
    ∃ t2', get decodeNode fuel2 t' key2 = Ret (val2, t2').
Proof.
  intros H fuel2 key2 val2 t2 H2. unfold get in H. bind_inv H.
  destruct a as [[val' r] res]. destruct res; injection H as <- <-; [|by eexists].
  apply _get_resolved in H0.
  unfold get in H2 |- *. bind_inv H2. destruct a as [[val2' r2] res2].
  injection H2 as <- _.
  destruct (resolved_answers t _ _ H0 fuel2 (common.toNibbles key2) 0 val2')
    as (nn & res' & Hget); [by eexists _, _|].
  cbn. rewrite _get_set_root, Hget. cbn. by eexists.
Qed.

(** ** Other keys *)

Lemma answers_nil_inv fuel (t : Trie) key pos o :
  answers fuel t NIL key pos o → o = None.
Proof.
  intros (nn & res & H). destruct fuel; [done|]. cbn [_get] in H.
  bind_inv H. by injection H as <- _ _.
Qed.

Lemma drop_at (key : nibbles) pos a b :
  drop pos key = a ++ b → drop (pos + length a) key = b.
Proof. intros H. by rewrite <- drop_drop, H, drop_app_length. Qed.

Lemma lookup_at (key : nibbles) pos a x b :
  drop pos key = a ++ x :: b → key !! (pos + length a) = Some x.
Proof. intros H. by rewrite <- lookup_drop, H, list_lookup_middle. Qed.

Lemma length_at (key : nibbles) pos a b :
  pos ≤ length key → drop pos key = a ++ b →
  pos + length a + length b = length key.
Proof.
  intros Hpos H. apply (f_equal length) in H.
  rewrite length_drop, length_app in H. lia.
Qed.

Lemma apart_app k s s2 : apart (k ++ s) (k ++ s2) → apart s s2.
Proof.
  intros [H1 H2]. split; intros [r ->].
  - apply H1. exists r. by rewrite app_assoc.
  - apply H2. exists r. by rewrite app_assoc.
Qed.

(** An insert leaves what every other key answers. *)
Lemma _insert_other fuel :
  ∀ (t : Trie) n key pos v d nn key2 s s2 f2 o,
    Forall (λ x, x < 17) key → Forall (λ x, x < 17) key2 →
    drop pos key = s → drop pos key2 = s2 → apart s s2 →
    _insert decodeNode fuel t n key pos (ValueNode v) = Ret (d, nn) →
    answers f2 t n key2 pos o →
    answers (f2 + 2) t nn key2 pos o.
Proof.
  induction fuel as [|fuel IH];
    intros t n key pos v d nn key2 s s2 f2 o Hkey Hkey2 Hs Hs2 Hapart H Hget;
    [discriminate|].
  cbn [_insert] in H. bind_inv H. apply assert_Ret, bool_decide_eq_true in H0.
  rename H0 into Hpos. clear a.
  pose proof (answers_pos _ _ _ _ _ _ Hget) as Hpos2.
  destruct (decide (length key - pos = 0)) as [Hend|Hmore].
  { exfalso. apply (proj1 Hapart). exists s2.
    assert (s = []) as -> by (apply length_zero_iff_nil; rewrite <- Hs, length_drop; lia).
    done. }
  rewrite bool_decide_false in H by done.
  destruct n as [|data|k c fl|l fl|data].
  - (* Null *)
    injection H as <- <-. apply answers_nil_inv in Hget as ->.
    replace (f2 + 2) with (S (f2 + 1)) by lia.
    apply answers_short_miss; [done|].
    destruct (common.startsWith _ _ _) eqn:Hsw; [|done].
    apply startsWith_true in Hsw as [r Hr]. unfold common.slice_from in Hr.
    destruct (proj1 Hapart). exists r. congruence.
  - (* Hash *)
    bind_inv H. rename a into rn, H0 into Hrn. bind_inv H. destruct a as [d' nn'].
    destruct f2 as [|f2]; [by apply answers_fuel in Hget|].
    apply answers_hash_inv in Hget as (rn' & Hrn' & Hget).
    apply resolveHash_Ret in Hrn, Hrn'.
    rewrite (decoded_from_store_fun decodeNode t _ _ _ Hrn' Hrn) in Hget.
    destruct d'; cbn in H; injection H as <- <-.
    + pose proof (IH _ _ _ _ _ _ _ key2 s s2 f2 o Hkey Hkey2 Hs Hs2 Hapart H0 Hget) as Hnn.
      eapply answers_mono; [|done]. lia.
    + eapply answers_mono; [|done]. lia.
  - (* Short *)
    cbn zeta in H. unfold common.prefixLen in H. rewrite Hs in H.
    destruct (common_len_spec s k) as (p & a' & b' & Hsp & Hkp & Hml & Hdiff).
    rewrite Hml in H.
    destruct f2 as [|f2]; [by apply answers_fuel in Hget|].
    destruct (decide (length p = length k)) as [Hfull|Hpart].
    + rewrite bool_decide_true in H by done.
      assert (b' = []) as ->.
      { subst k. rewrite length_app in Hfull. destruct b'; [done|cbn in Hfull; lia]. }
      rewrite app_nil_r in Hkp. subst p.
      bind_inv H. destruct a as [d' nn'].
      destruct d'; cbn in H; injection H as <- <-;
        [|eapply answers_mono; [|done]; lia].
      apply answers_short_inv in Hget as [[Hsw ->]|[Hsw Hget]].
      * replace (S f2 + 2) with (S (f2 + 2)) by lia. by apply answers_short_miss.
      * replace (S f2 + 2) with (S (f2 + 2)) by lia.
        apply answers_short; [done|done|].
        apply startsWith_true in Hsw as [r2 Hr2].
        apply (IH t c key (pos + length k) v true nn' key2 a' r2 f2 o);
          [done|done| | | |done|done].
        -- apply drop_at. congruence.
        -- by apply drop_at.
        -- apply (apart_app k). congruence.
    + rewrite bool_decide_false in H by done.
      bind_inv H. destruct a as [d1 n1]. bind_inv H. destruct a as [d2 n2].
      destruct fuel as [|fuel]; [discriminate|].
      cbn [_insert] in H0, H1.
      bind_inv H0. clear H2 a. bind_inv H1. apply assert_Ret, bool_decide_eq_true in H2.
      rename H2 into Hpos3. clear a.
      destruct b' as [|x b']; [by rewrite Hkp, app_nil_r in Hpart|].
      assert (Hlen : pos + length p + length a' = length key) by (apply length_at; congruence).
      destruct a' as [|y a']; [cbn in Hlen; lia|]. cbn in Hlen.
      assert (Hx : k !! length p = Some x) by (by rewrite Hkp, list_lookup_middle).
      assert (Hy : key !! (pos + length p) = Some y) by (apply (lookup_at _ _ _ _ a'); congruence).
      assert (Hy17 : y < 17) by exact (Forall_lookup_1 _ key _ y Hkey Hy).
      rewrite Hx, Hy in H. unfold fullNode, new_FullNode, set_child, shortNode in H.
      assert (Hk1 : length k - (length p + 1) = length b').
      { rewrite Hkp, length_app. cbn. lia. }
      assert (Hdk : drop (length p + 1) k = b').
      { rewrite Hkp. rewrite <- drop_drop, drop_app_length. done. }
      assert (Hdkey : drop (pos + length p + 1) key = a').
      { rewrite <- Nat.add_assoc. rewrite <- (drop_drop key), Hs, Hsp.
        by rewrite <- drop_drop, drop_app_length. }
      rewrite Hk1 in H0. unfold common.slice_from, shortNode in H0, H1.
      rewrite Hdk in H0. rewrite Hdkey in H1.
      replace (length key - (pos + length p + 1)) with (length a') in H1 by lia.
      set (branch := FullNode (<[y:=n2]> (<[x:=n1]> (replicate 17 NIL))) (flags t)) in *.
      assert (Hslice : common.slice key pos (pos + length p) = p).
      { unfold common.slice. replace (pos + length p - pos) with (length p) by lia.
        by rewrite Hs, Hsp, take_app_length. }
      rewrite Hslice in H.
      (* what the branch answers the other key, below the common part *)
      assert (Hbranch : ∀ r2, s2 = p ++ r2 → answers (f2 + 2) t branch key2 (pos + length p) o).
      { intros r2 Hr2. rewrite Hr2 in Hs2.
        assert (Hlen2 : pos + length p + length r2 = length key2) by (by apply length_at).
        destruct r2 as [|z r2].
        { destruct (proj2 Hapart). exists (y :: a'). by rewrite Hr2, app_nil_r. }
        cbn in Hlen2.
        assert (Hz : key2 !! (pos + length p) = Some z) by (by apply (lookup_at _ _ _ _ r2)).
        assert (Hz17 : z < 17) by exact (Forall_lookup_1 _ key2 _ z Hkey2 Hz).
        assert (Hdkey2 : drop (pos + length p + 1) key2 = r2).
        { rewrite <- Nat.add_assoc. rewrite <- (drop_drop key2), Hs2.
          by rewrite <- drop_drop, drop_app_length. }
        replace (f2 + 2) with (S (f2 + 1)) by lia.
        destruct (decide (z = y)) as [->|Hzy].
        { (* the slot of the inserted key *)
          eapply answers_full; [lia|done| |].
          { apply list_lookup_insert_eq. by rewrite length_insert, length_replicate. }
          assert (o = None ∧ answers (f2 + 1) t n2 key2 (pos + length p + 1) None)
            as [-> ?]; [|done].
          assert (Ho : o = None).
          { apply answers_short_inv in Hget as [[_ ->]|[Hsw _]]; [done|].
            apply startsWith_true in Hsw as [r Hr]. rewrite Hs2, Hkp in Hr.
            rewrite <- app_assoc in Hr. apply app_inv_head in Hr. by simplify_eq/=. }
          split; [done|].
          destruct a' as [|y' a'].
          - destruct (proj1 Hapart). exists r2. by rewrite Hr2, Hsp, <- app_assoc.
          - cbn in H1. injection H1 as _ <-.
            replace (f2 + 1) with (S f2) by lia.
            apply answers_short_miss; [lia|].
            destruct (common.startsWith _ _ _) eqn:Hsw; [|done].
            apply startsWith_true in Hsw as [r Hr]. rewrite Hdkey2 in Hr.
            destruct (proj1 Hapart). exists r. rewrite Hr2, Hsp, Hr.
            by rewrite <- !app_assoc. }
        destruct (decide (z = x)) as [->|Hzx].
        { (* the slot of the node that was there *)
          assert (x ≠ y) by done.
          eapply answers_full; [lia|done| |].
          { rewrite list_lookup_insert_ne by done.
            apply list_lookup_insert_eq. by rewrite length_replicate. }
          apply answers_short_inv in Hget as [[Hsw ->]|[Hsw Hget]].
          - destruct b' as [|x' b']; cbn in H0; injection H0 as _ <-.
            + assert (common.startsWith key2 k pos = true); [|congruence].
              apply startsWith_true. exists r2. by rewrite Hs2, Hkp, <- app_assoc.
            + replace (f2 + 1) with (S f2) by lia.
              apply answers_short_miss; [lia|].
              destruct (common.startsWith key2 (x' :: b') _) eqn:Hsw'; [|done].
              apply startsWith_true in Hsw' as [r Hr]. rewrite Hdkey2 in Hr.
              assert (common.startsWith key2 k pos = true); [|congruence].
              apply startsWith_true. exists r. rewrite Hs2, Hkp, Hr.
              by rewrite <- !app_assoc.
          - apply startsWith_true in Hsw as [r Hr]. rewrite Hs2, Hkp in Hr.
            rewrite <- app_assoc in Hr. apply app_inv_head in Hr.
            injection Hr as Hr.
            assert (Hposk : pos + length k = pos + length p + 1 + length b').
            { rewrite Hkp, length_app. cbn. lia. }
            rewrite Hposk in Hget.
            destruct b' as [|x' b']; cbn in H0; injection H0 as _ <-.
            + cbn in Hget. rewrite Nat.add_0_r in Hget.
              eapply answers_mono; [|done]. lia.
            + replace (f2 + 1) with (S f2) by lia.
              apply answers_short; [lia| |done].
              apply startsWith_true. exists r. by rewrite Hdkey2. }
        (* an empty slot *)
        assert (o = None) as ->.
        { apply answers_short_inv in Hget as [[_ ->]|[Hsw _]]; [done|].
          apply startsWith_true in Hsw as [r Hr]. rewrite Hs2, Hkp in Hr.
          rewrite <- app_assoc in Hr. apply app_inv_head in Hr. by simplify_eq/=. }
        eapply (answers_full _ _ _ _ _ _ _ NIL); [lia|done| |].
        { rewrite !list_lookup_insert_ne by done. apply lookup_replicate_2. lia. }
        replace (f2 + 1) with (S f2) by lia. apply answers_nil. lia. }
      destruct (decide (length p = 0)) as [Hp0|Hp0];
        [rewrite bool_decide_true in H by done|rewrite bool_decide_false in H by done];
        injection H as <- <-.
      * apply length_zero_iff_nil in Hp0 as Hp. rewrite Hp in *. cbn in Hbranch.
        rewrite Nat.add_0_r in Hbranch.
        eapply answers_mono; [|by apply (Hbranch s2)]. lia.
      * replace (S f2 + 2) with (S (f2 + 2)) by lia.
        destruct (common.startsWith key2 p pos) eqn:Hswp.
        -- apply answers_short; [done|done|].
           apply startsWith_true in Hswp as [r2 Hr2]. apply (Hbranch r2). congruence.
        -- assert (o = None) as ->; [|by apply answers_short_miss].
           apply answers_short_inv in Hget as [[_ ->]|[Hsw _]]; [done|].
           apply startsWith_true in Hsw as [r Hr].
           assert (common.startsWith key2 p pos = true); [|congruence].
           apply startsWith_true. exists (x :: b' ++ r). rewrite Hr, Hkp.
           by rewrite <- app_assoc.
  - (* Full *)
    destruct (key !! pos) as [i|] eqn:Hi; cbn in H;
      [|unfold undefined_node in H; bind_inv H; discriminate].
    destruct (l !! i) as [c|] eqn:Hc; cbn in H;
      [|unfold undefined_node in H; bind_inv H; discriminate].
    bind_inv H. destruct a as [d' nn'].
    destruct d'; cbn in H; injection H as <- <-;
      [|eapply answers_mono; [|done]; lia].
    destruct f2 as [|f2]; [by apply answers_fuel in Hget|].
    apply answers_full_inv in Hget as (z & c2 & Hz & Hc2 & Hget).
    replace (S f2 + 2) with (S (f2 + 2)) by lia.
    destruct (decide (z = i)) as [->|Hzi].
    + eapply answers_full; [done|done| |].
      { apply list_lookup_insert_eq. by eapply lookup_lt_Some. }
      assert (c2 = c) as -> by congruence.
      apply (drop_S key i pos) in Hi as Hdi. apply (drop_S key2 i pos) in Hz as Hdz.
      apply (IH t c key (pos + 1) v true nn' key2 (drop (S pos) key) (drop (S pos) key2) f2 o);
        [done|done|by rewrite Nat.add_1_r|by rewrite Nat.add_1_r| |done|done].
      apply (apart_app [i]). cbn. congruence.
    + eapply answers_full; [done|done| |eapply answers_mono; [|done]; lia].
      by rewrite list_lookup_insert_ne.
  - discriminate.
Qed.

Lemma key_path_apart a b : key_path a → key_path b → a ≠ b → apart a b.
Proof.
  assert (Hhalf : ∀ a b, key_path a → key_path b → a ≠ b → ¬ ∃ r, b = a ++ r).
  { clear. intros a b (body & -> & _) Hb Hab [r ->].
    apply key_path_leaf in Hb as ->. by rewrite app_nil_r in Hab. }
  intros Ha Hb Hab. split; by apply Hhalf.
Qed.

Lemma toNibbles_bounded key : Forall (λ x, x < 17) (common.toNibbles key).
Proof.
  destruct (toNibbles_key_path key) as (body & -> & Hbody).
  apply Forall_app. split; [|repeat constructor].
  eapply Forall_impl; [done|]. cbn. lia.
Qed.

(** X14: an [insert] that returns, with or without a store, leaves every
    other key with the value a [get] returned for it before. *)
Theorem insert_keeps_others fuel (t : Trie) key value t1 :
  insert decodeNode fuel t key value = Ret t1 →
  ∀ fuel2 key2 val2 t2,
    key2 ≠ key →
    get decodeNode fuel2 t key2 = Ret (val2, t2) →
    ∃ t2', get decodeNode (fuel2 + 2) t1 key2 = Ret (val2, t2').
Proof.
  intros H fuel2 key2 val2 t2 Hne H2.
  unfold insert, valueNode in H. bind_inv H. destruct a as [d r]. injection H as <-.
  unfold get in H2. bind_inv H2. destruct a as [[val2' r2] res2]. injection H2 as <- _.
  destruct (_insert_other fuel t (root t) (common.toNibbles key) 0 value d r
              (common.toNibbles key2) (common.toNibbles key) (common.toNibbles key2)
              fuel2 val2') as (nn & res & Hget);
    [apply toNibbles_bounded|apply toNibbles_bounded|done|done| |done|by eexists _, _|].
  { apply key_path_apart; [apply toNibbles_key_path..|].
    intros Heq%toNibbles_inj. by subst. }
  unfold get. cbn. rewrite _get_set_root, Hget. cbn. by eexists.
Qed.

(** A remove leaves what every other key answers, on a subtree that
    keeps the terminator discipline. *)
Lemma _remove_other fuel :
  ∀ (t : Trie) b n key pos d nn key2 s s2 f2 o,
    wf_at decodeNode t b n → path_at b s →
    drop pos key = s → drop pos key2 = s2 → apart s s2 →
    _remove decodeNode fuel t n key pos = Ret (d, nn) →
    answers f2 t n key2 pos o →
    answers f2 t nn key2 pos o.
Proof.
  induction fuel as [|fuel IH];
    intros t b n key pos d nn key2 s s2 f2 o Hwf Hpath Hs Hs2 Hapart H Hget;
    [discriminate|].
  cbn [_remove] in H. bind_inv H. apply assert_Ret, bool_decide_eq_true in H0.
  rename H0 into Hpos. clear a.
  pose proof (answers_pos _ _ _ _ _ _ Hget) as Hpos2.
  destruct b; cbn in Hwf, Hpath.
  { exfalso. apply (proj1 Hapart). exists s2. by rewrite Hpath. }
  destruct n as [|data|k c fl|l fl|data].
  - by injection H as <- <-.
  - (* Hash *)
    bind_inv H. rename a into rn, H0 into Hrn. bind_inv H. destruct a as [d' nn'].
    destruct f2 as [|f2]; [by apply answers_fuel in Hget|].
    apply answers_hash_inv in Hget as (rn' & Hrn' & Hget).
    apply resolveHash_Ret in Hrn, Hrn'.
    rewrite (decoded_from_store_fun decodeNode t _ _ _ Hrn' Hrn) in Hget.
    assert (Hwfrn : wf decodeNode t rn).
    { inversion_clear Hwf as [| | | |? rn0 Hrn0 Hwf0].
      by rewrite (decoded_from_store_fun decodeNode t _ _ _ Hrn Hrn0). }
    destruct d'; cbn in H; injection H as <- <-.
    + pose proof (IH t false rn key pos true nn' key2 s s2 f2 o
                    Hwfrn Hpath Hs Hs2 Hapart H0 Hget) as Hnn.
      eapply answers_mono; [|done]. lia.
    + eapply answers_mono; [|done]. lia.
  - (* Short *)
    cbn zeta in H. unfold common.prefixLen in H. rewrite Hs in H.
    assert (Hlen : length key - pos = length s) by (by rewrite <- Hs, length_drop).
    rewrite Hlen in H.
    destruct (common_len_spec s k) as (p & a' & b' & Hsp & Hkp & Hml & Hdiff).
    rewrite Hml in H.
    destruct (decide (length p < length k)) as [Hlt|Hge].
    { rewrite bool_decide_true in H by done. by injection H as <- <-. }
    rewrite bool_decide_false in H by done.
    assert (b' = []) as ->.
    { subst k. rewrite length_app in Hge. destruct b'; [done|cbn in Hge; lia]. }
    rewrite app_nil_r in Hkp. subst p.
    destruct f2 as [|f2]; [by apply answers_fuel in Hget|].
    destruct (decide (length k = length s)) as [Hexact|Hmore].
    { rewrite bool_decide_true in H by done. injection H as <- <-.
      assert (a' = []) as ->.
      { rewrite Hsp, length_app in Hexact. destruct a'; [done|cbn in Hexact; lia]. }
      rewrite app_nil_r in Hsp.
      apply answers_short_inv in Hget as [[_ ->]|[Hsw _]]; [by apply answers_nil|].
      apply startsWith_true in Hsw as [r Hr]. destruct (proj1 Hapart). exists r. congruence. }
    rewrite bool_decide_false in H by done.
    bind_inv H. destruct a as [d' nn'].
    destruct d'; cbn in H; [|by injection H as <- <-].
    assert (Hnn : nn = match nn' with
                       | ShortNode nk nv _ => shortNode t (common.concat k nk) nv
                       | _ => shortNode t k nn'
                       end) by (destruct nn'; by injection H as _ <-).
    clear H. unfold shortNode, common.concat in Hnn.
    rewrite Hsp in Hpath.
    destruct (short_child decodeNode t k c fl a' Hwf Hpath) as (b' & Hc & Hr & Hk & _).
    apply answers_short_inv in Hget as [[Hsw ->]|[Hsw Hget]].
    + assert (∀ nk, common.startsWith key2 (k ++ nk) pos = false) as Hmiss.
      { intros nk. destruct (common.startsWith key2 (k ++ nk) pos) eqn:Hsw'; [|done].
        apply startsWith_true in Hsw' as [r Hr'].
        assert (common.startsWith key2 k pos = true); [|congruence].
        apply startsWith_true. exists (nk ++ r). by rewrite Hr', <- app_assoc. }
      destruct nn'; subst nn; apply answers_short_miss; done || apply Hmiss.
    + apply startsWith_true in Hsw as Hsw'. destruct Hsw' as [r2 Hr2].
      assert (Hnn' : answers f2 t nn' key2 (pos + length k) o).
      { apply (IH t b' c key (pos + length k) true nn' key2 a' r2 f2 o);
          [done|done| | | |done|done].
        - apply drop_at. congruence.
        - by apply drop_at.
        - apply (apart_app k). congruence. }
      destruct nn' as [|data|nk nv nfl|nl nfl|data]; subst nn;
        try (by apply answers_short).
      eapply answers_mono; [|by eapply answers_merge]. lia.
  - (* Full *)
    destruct s as [|x s']; [by apply key_path_nonempty in Hpath|].
    destruct (drop_cons_inv _ _ _ _ Hs) as (Hx & Hdrop & Hlt & Hlen').
    pose proof Hwf as [Hl Hslots]%wf_full_inv.
    apply path_at_child in Hpath as [Hx16 Hpath'].
    destruct (Hslots x Hx16) as (c & Hc & Hcwf).
    rewrite Hx in H. cbn in H. rewrite Hc in H. cbn in H.
    bind_inv H. destruct a as [d' nn'].
    destruct d'; cbn in H; [|by injection H as <- <-].
    destruct f2 as [|f2]; [by apply answers_fuel in Hget|].
    apply answers_full_inv in Hget as (z & c2 & Hz & Hc2 & Hget).
    set (cs := <[x:=nn']> l) in *.
    assert (Hcslen : length cs = 17) by (unfold cs; by rewrite length_insert).
    assert (Hz17 : z < 17) by (rewrite <- Hl; by eapply lookup_lt_Some).
    assert (Hcs : ∃ c2', cs !! z = Some c2' ∧ answers f2 t c2' key2 (pos + 1) o).
    { destruct (decide (z = x)) as [->|Hzx].
      - exists nn'. split; [apply list_lookup_insert_eq; lia|].
        assert (c2 = c) as -> by congruence.
        apply (drop_S key2 x pos) in Hz as Hdz.
        apply (IH t (bool_decide (x = 16)) c key (pos + 1) true nn' key2 s'
                 (drop (S pos) key2) f2 o);
          [done|done|done|by rewrite Nat.add_1_r| |done|done].
        apply (apart_app [x]). cbn. congruence.
      - exists c2. split; [|done]. unfold cs. by rewrite list_lookup_insert_ne. }
    destruct Hcs as (c2' & Hc2' & Hget').
    destruct (scan_slots cs Hcslen) as (r & Hscan & Hcase). rewrite Hscan in H.
    cbn in H.
    destruct Hcase as [[-> Hnone]|[[-> _]|(j & -> & Hsole)]].
    + rewrite bool_decide_false in H by lia. injection H as <- <-.
      by eapply answers_full.
    + rewrite bool_decide_false in H by lia. injection H as <- <-.
      by eapply answers_full.
    + rewrite bool_decide_true in H by lia. rewrite Nat2Z.id in H.
      pose proof Hsole as (Hj & (slot & Hslot & Hnull) & Hothers).
      rewrite Hslot in H.
      assert (Hbyte : common.startsWith key2 [j] pos = bool_decide (z = j))
        by (by apply startsWith_byte).
      destruct (decide (z = j)) as [->|Hzj].
      2: { (* the other key went through a slot that was empty *)
           rewrite bool_decide_false in Hbyte by done.
           rewrite (Hothers z Hz17 Hzj) in Hc2'. injection Hc2' as <-.
           apply answers_nil_inv in Hget' as ->.
           assert (Hmiss : ∀ ck, common.startsWith key2 ([j] ++ ck) pos = false).
           { intros ck. destruct (common.startsWith key2 ([j] ++ ck) pos) eqn:Hsw'; [|done].
             apply startsWith_true in Hsw' as [r Hr'].
             assert (common.startsWith key2 [j] pos = true); [|congruence].
             apply startsWith_true. exists (ck ++ r). by rewrite Hr', <- app_assoc. }
           destruct (negb (bool_decide (j = 16))); cbn in H.
           - bind_inv H. destruct a; injection H as _ <-;
               apply answers_short_miss; done || apply Hmiss.
           - injection H as _ <-. by apply answers_short_miss. }
      rewrite bool_decide_true in Hbyte by done.
      assert (slot = c2') as -> by congruence.
      assert (Hone : ∀ fl', answers (S f2) t (ShortNode [j] c2' fl') key2 pos o).
      { intros fl'. by apply answers_short. }
      destruct (negb (bool_decide (j = 16))); cbn in H;
        [|injection H as _ <-; apply Hone].
      bind_inv H. rename a into child.
      destruct child as [|cd|ck cv cfl|cl cfl|cd]; injection H as _ <-; try apply Hone.
      unfold shortNode, common.concat, common.byte.
      eapply answers_mono; [|eapply (answers_merge f2 t [j] ck cv cfl); [done|done|]]; [lia|].
      cbn [length]. unfold resolve in H1.
      destruct c2' as [|data|nk nv nfl|nl nfl|data]; try (by simplify_eq).
      destruct f2 as [|f2]; [by apply answers_fuel in Hget'|].
      apply answers_hash_inv in Hget' as (rn & Hrn & Hget').
      apply resolveHash_Ret in Hrn, H1.
      rewrite (decoded_from_store_fun decodeNode t _ _ _ H1 Hrn).
      eapply answers_mono; [|done]. lia.
  - by apply wf_not_value in Hwf.
Qed.

(** X15: a [remove] that returns, on a trie that keeps the terminator
    discipline (through its store, when it has one), leaves every other
    key with the value a [get] returned for it before. *)
Theorem remove_keeps_others fuel (t : Trie) key t1 :
  wf decodeNode t (root t) →
  remove decodeNode fuel t key = Ret t1 →
  ∀ fuel2 key2 val2 t2,
    key2 ≠ key →
    get decodeNode fuel2 t key2 = Ret (val2, t2) →
    ∃ t2', get decodeNode fuel2 t1 key2 = Ret (val2, t2').
Proof.
  intros Hwf H fuel2 key2 val2 t2 Hne H2.
  unfold remove in H. bind_inv H. destruct a as [d r]. injection H as <-.
  unfold get in H2. bind_inv H2. destruct a as [[val2' r2] res2]. injection H2 as <- _.
  destruct (_remove_other fuel t false (root t) (common.toNibbles key) 0 d r
              (common.toNibbles key2) (common.toNibbles key) (common.toNibbles key2)
              fuel2 val2') as (nn & res & Hget);
    [done|apply toNibbles_key_path|done|done| |done|by eexists _, _|].
  { apply key_path_apart; [apply toNibbles_key_path..|].
    intros Heq%toNibbles_inj. by subst. }
  unfold get. cbn. rewrite _get_set_root, Hget. cbn. by eexists.
Qed.

(** ** The terminator discipline over a store *)

(** An insert that returns keeps the terminator discipline. *)
Lemma _insert_wf fuel :
  ∀ (t : Trie) b n key pos s v d nn,
    wf_at decodeNode t b n → path_at b s → drop pos key = s → pos ≤ length key →
    _insert decodeNode fuel t n key pos (ValueNode v) = Ret (d, nn) →
    wf_at decodeNode t b nn ∧ (b = true → nn = ValueNode v).
Proof.
  induction fuel as [|fuel IH]; intros t b n key pos s v d nn Hwf Hpath Hs Hpos H;
    [discriminate|].
  assert (Hlen : length key - pos = length s) by (by rewrite <- Hs, length_drop).
  cbn [_insert] in H. rewrite assert_true in H by done. cbn in H. rewrite Hlen in H.
  destruct b; cbn in Hwf, Hpath.
  - rewrite Hpath in H. cbn in H.
    assert (nn = ValueNode v) as ->.
    { destruct Hwf as [->|Hv]; [by injection H as _ <-|].
      destruct n; try done. by injection H as _ <-. }
    split; [by right|done].
  - split; [|done].
    rewrite bool_decide_false in H
      by (destruct s; [by apply key_path_nonempty in Hpath | done]).
    destruct n as [|data|k c fl|l fl|data].
    + (* Null *)
      injection H as _ <-. unfold common.slice_from. rewrite Hs.
      destruct Hpath as (body & -> & Hbody). by constructor.
    + (* Hash *)
      bind_inv H. rename a into rn, H0 into Hrn. bind_inv H. destruct a as [d' nn'].
      apply resolveHash_Ret in Hrn.
      assert (Hwfrn : wf decodeNode t rn).
      { inversion_clear Hwf as [| | | |? rn0 Hrn0 Hwf0].
        by rewrite (decoded_from_store_fun decodeNode t _ _ _ Hrn Hrn0). }
      destruct d'; cbn in H; injection H as _ <-; [|done].
      by destruct (IH t false rn key pos s v true nn' Hwfrn Hpath Hs Hpos H0).
    + (* Short *)
      unfold common.prefixLen in H. rewrite Hs in H.
      destruct (common_len_spec s k) as (p & s2 & k2 & Hsp & Hkp & Hml & Hdiff).
      rewrite Hsp in Hpath, Hs.
      rewrite Hml in H. destruct (decide (length p = length k)) as [Hfull|Hpart].
      * rewrite bool_decide_true in H by done.
        assert (k2 = []) as ->.
        { subst k. rewrite length_app in Hfull. destruct k2; [done|cbn in Hfull; lia]. }
        rewrite app_nil_r in Hkp. subst p.
        destruct (short_child decodeNode t k c fl s2 Hwf Hpath) as (b' & Hc & Hr & Hk & Hback).
        destruct (drop_app_inv key pos k s2 Hpos Hs) as [Hdrop Hle].
        bind_inv H. destruct a as [d' nn'].
        destruct (IH t b' c key (pos + length k) s2 v d' nn' Hc Hr Hdrop Hle H0)
          as [Hnn Hval].
        destruct d'; cbn in H; injection H as _ <-; [|done].
        apply Hback; [done|]. intros ->. by rewrite Hval.
      * rewrite bool_decide_false in H by done.
        destruct k2 as [|y k2].
        { rewrite app_nil_r in Hkp. by subst. }
        subst k.
        destruct (tail_child decodeNode t p y k2 c fl Hwf) as (Hy & Hn1 & _ & Hp & Hinner).
        destruct s2 as [|x s2].
        { rewrite app_nil_r in Hpath. destruct Hpath as (body & -> & _).
          rewrite <- app_assoc in Hwf. cbn in Hwf.
          destruct (tail_child decodeNode t body 16 (y :: k2) c fl Hwf) as (_ & _ & _ & _ & Hlt).
          specialize (Hlt ltac:(done)). lia. }
        apply key_path_app in Hpath; [|done].
        destruct (tail_value decodeNode t x s2 v Hpath) as (Hn2 & _).
        apply path_at_child in Hpath as [Hx _].
        destruct (drop_app_inv (p ++ y :: k2) 0 p (y :: k2) (Nat.le_0_l _) eq_refl) as [Hd1 _].
        cbn [Nat.add] in Hd1.
        destruct (drop_cons_inv _ _ _ _ Hd1) as (Hky & Hkdrop & Hklt & Hklen).
        destruct (drop_app_inv key pos p (x :: s2) Hpos Hs) as [Hd2 _].
        destruct (drop_cons_inv _ _ _ _ Hd2) as (Hkx & Hsdrop & Hslt & Hslen).
        destruct fuel as [|fuel']; [discriminate|].
        rewrite !_insert_NIL in H by lia. cbn in H.
        rewrite Hky, Hkx, Hkdrop, Hsdrop in H. cbn in H.
        replace (length (p ++ y :: k2) - (length p + 1)) with (length k2) in H by lia.
        replace (length key - (pos + length p + 1)) with (length s2) in H by lia.
        set (n1 := if bool_decide (length k2 = 0) then c else shortNode t k2 c) in *.
        set (n2 := if bool_decide (length s2 = 0) then ValueNode v
                   else shortNode t s2 (ValueNode v)) in *.
        set (branch := FullNode (<[x := n2]> (<[y := n1]> (replicate 17 NIL))) (flags t)) in *.
        assert (Hbranch : wf decodeNode t branch) by (by apply branch_wf).
        destruct (decide (length p = 0)) as [Hp0|Hp0];
          [rewrite bool_decide_true in H by done|rewrite bool_decide_false in H by done];
          injection H as _ <-; [exact Hbranch|].
        unfold common.slice. replace (pos + length p - pos) with (length p) by lia.
        rewrite Hs, take_app_length.
        apply wf_ext; [by destruct p|done|exact Hbranch].
    + (* Full *)
      destruct s as [|x s']; [by apply key_path_nonempty in Hpath|].
      destruct (drop_cons_inv _ _ _ _ Hs) as (Hx & Hdrop & Hlt & Hlen').
      pose proof Hwf as [Hl Hslots]%wf_full_inv.
      apply path_at_child in Hpath as [Hx16 Hpath'].
      destruct (Hslots x Hx16) as (c & Hc & Hcwf).
      rewrite Hx in H. cbn in H. rewrite Hc in H. cbn in H.
      bind_inv H. destruct a as [d' nn'].
      destruct (IH t _ c key (pos + 1) s' v d' nn' Hcwf Hpath' Hdrop ltac:(lia) H0)
        as [Hnn _].
      destruct d'; cbn in H; injection H as _ <-; [|done].
      by eapply full_update_wf.
    + by apply wf_not_value in Hwf.
Qed.

(** A remove that returns keeps the terminator discipline. *)
Lemma _remove_wf fuel :
  ∀ (t : Trie) b n key pos s d nn,
    wf_at decodeNode t b n → path_at b s → drop pos key = s → pos ≤ length key →
    _remove decodeNode fuel t n key pos = Ret (d, nn) →
    wf_at decodeNode t b nn.
Proof.
  induction fuel as [|fuel IH]; intros t b n key pos s d nn Hwf Hpath Hs Hpos H;
    [discriminate|].
  assert (Hlen : length key - pos = length s) by (by rewrite <- Hs, length_drop).
  cbn [_remove] in H. rewrite assert_true in H by done. cbn in H.
  destruct b; cbn in Hwf, Hpath.
  - destruct Hwf as [->|Hv]; [injection H as _ <-; by left|].
    destruct n; try done. injection H as _ <-. by left.
  - destruct n as [|data|k c fl|l fl|data].
    + by injection H as _ <-.
    + (* Hash *)
      bind_inv H. rename a into rn, H0 into Hrn. bind_inv H. destruct a as [d' nn'].
      apply resolveHash_Ret in Hrn.
      assert (Hwfrn : wf decodeNode t rn).
      { inversion_clear Hwf as [| | | |? rn0 Hrn0 Hwf0].
        by rewrite (decoded_from_store_fun decodeNode t _ _ _ Hrn Hrn0). }
      destruct d'; cbn in H; injection H as _ <-; [|done].
      apply (IH t false rn key pos s true nn' Hwfrn Hpath Hs Hpos H0).
    + (* Short *)
      unfold common.prefixLen in H. rewrite Hs, Hlen in H.
      destruct (common_len_spec s k) as (p & s2 & k2 & Hsp & Hkp & Hml & Hdiff).
      rewrite Hsp in Hpath, Hs.
      rewrite Hml in H. destruct (decide (length p < length k)) as [Hshort|Hshort].
      { rewrite bool_decide_true in H by done. by injection H as _ <-. }
      rewrite bool_decide_false in H by done.
      assert (k2 = []) as ->.
      { subst k. rewrite length_app in Hshort. destruct k2; [done|cbn in Hshort; lia]. }
      rewrite app_nil_r in Hkp. subst p.
      destruct (short_child decodeNode t k c fl s2 Hwf Hpath) as (b' & Hc & Hr & Hk & _).
      destruct (decide (length k = length s)) as [Hexact|Hexact].
      { rewrite bool_decide_true in H by done. injection H as _ <-. constructor. }
      rewrite bool_decide_false in H by done.
      destruct b'; cbn in Hc, Hr.
      { subst s2. by rewrite Hsp, app_nil_r in Hexact. }
      assert (Hall : Forall (λ x, x < 16) k).
      { apply wf_short_inv in Hwf as [(body & d0 & -> & _ & _)|(_ & ? & _)]; [|done].
        by apply key_path_leaf, key_path_nonempty in Hpath. }
      destruct (drop_app_inv key pos k s2 Hpos Hs) as [Hdrop Hle].
      bind_inv H. destruct a as [d' nn'].
      pose proof (IH t false c key (pos + length k) s2 d' nn' Hc Hr Hdrop Hle H0) as Hnn.
      cbn in Hnn.
      destruct d'; cbn in H; [|by injection H as _ <-].
      assert (nn = match nn' with
                   | ShortNode nk nv _ => shortNode t (common.concat k nk) nv
                   | _ => shortNode t k nn'
                   end) as -> by (destruct nn'; by injection H as _ <-).
      by apply merge_wf.
    + (* Full *)
      destruct s as [|x s']; [by apply key_path_nonempty in Hpath|].
      destruct (drop_cons_inv _ _ _ _ Hs) as (Hx & Hdrop & Hlt & Hlen').
      pose proof Hwf as [Hl Hslots]%wf_full_inv.
      apply path_at_child in Hpath as [Hx16 Hpath'].
      destruct (Hslots x Hx16) as (c & Hc & Hcwf).
      rewrite Hx in H. cbn in H. rewrite Hc in H. cbn in H.
      bind_inv H. destruct a as [d' nn'].
      pose proof (IH t _ c key (pos + 1) s' d' nn' Hcwf Hpath' Hdrop ltac:(lia) H0) as Hnn.
      destruct d'; cbn in H; [|by injection H as _ <-].
      set (cs := <[x := nn']> l) in *.
      assert (Hcs : wf decodeNode t (FullNode cs (touch fl))) by (by eapply full_update_wf).
      assert (Hcslen : length cs = 17) by (unfold cs; by rewrite length_insert).
      destruct (scan_slots cs Hcslen) as (r & Hscan & Hcase). rewrite Hscan in H.
      cbn in H.
      destruct Hcase as [[-> _]|[[-> _]|(j & -> & Hsole)]].
      * rewrite bool_decide_false in H by lia. by injection H as _ <-.
      * rewrite bool_decide_false in H by lia. by injection H as _ <-.
      * rewrite bool_decide_true in H by lia. rewrite Nat2Z.id in H.
        pose proof Hsole as (Hj & (slot & Hslot & Hnull) & _).
        rewrite Hslot in H.
        pose proof Hcs as [_ Hcsslots]%wf_full_inv.
        destruct (Hcsslots j) as (slot' & Hslot' & Hslotwf); [lia|]. simplify_eq.
        destruct (decide (j = 16)) as [->|Hj16].
        -- cbn in H, Hslotwf. injection H as _ <-.
           destruct Hslotwf as [->|Hv]; [done|]. destruct slot; try done.
           apply (wf_leaf _ _ []). constructor.
        -- rewrite bool_decide_false in H, Hslotwf by done. cbn in H, Hslotwf.
           bind_inv H. rename a into child.
           assert (Hj1 : Forall (λ x, x < 16) [j]) by (constructor; [lia|done]).
           assert (Hchild : wf decodeNode t child).
           { unfold resolve in H1. destruct slot; try (by injection H1 as <-).
             apply resolveHash_Ret in H1.
             inversion_clear Hslotwf as [| | | |? rn0 Hrn0 Hwf0].
             by rewrite (decoded_from_store_fun decodeNode t _ _ _ H1 Hrn0). }
           destruct child as [|cd|ck cv cfl|cl cfl|cd]; injection H as _ <-;
             try (apply wf_ext; done).
           by apply (merge_wf decodeNode t [j] (ShortNode ck cv cfl)).
    + by apply wf_not_value in Hwf.
Qed.

(** ** Map semantics over a store *)

Lemma answers_set_root fuel (t : Trie) r n key pos o :
  answers fuel (set_root t r) n key pos o ↔ answers fuel t n key pos o.
Proof.
  split; intros (nn & res & H); exists nn, res;
    [by rewrite _get_set_root in H|by rewrite _get_set_root].
Qed.

Lemma get_answers fuel (t : Trie) key o :
  (∃ t', get decodeNode fuel t key = Ret (o, t'))
  ↔ answers fuel t (root t) (common.toNibbles key) 0 o.
Proof.
  unfold get. split.
  - intros [t' H]. bind_inv H. destruct a as [[val r] res]. injection H as <- _.
    by exists r, res.
  - intros (nn & res & H). rewrite H. cbn. by eexists.
Qed.

(** One operation that returns: the discipline is kept, the key of the
    operation answers what was written, every other key what it answered
    before. *)
Lemma apply_op_step fuel (t : Trie) o t1 :
  wf decodeNode t (root t) →
  apply_op decodeNode fuel t o = Ret t1 →
  wf decodeNode t1 (root t1)
  ∧ (∀ x, answers (fuel + 2) t1 (root t1) (common.toNibbles (op_key o)) 0
            (last_write (op_key o) [o] x))
  ∧ (∀ k f x, k ≠ op_key o →
       answers f t (root t) (common.toNibbles k) 0 x →
       answers (f + 2) t1 (root t1) (common.toNibbles k) 0 (last_write k [o] x)).
Proof.
  intros Hwf H. destruct o as [k0 v|k0]; cbn [apply_op op_key] in *.
  - unfold insert, valueNode in H. bind_inv H. destruct a as [d r]. injection H as <-.
    cbn [root set_root].
    destruct (_insert_wf fuel t false (root t) (common.toNibbles k0) 0
                (common.toNibbles k0) v d r) as [Hr _];
      [done|apply toNibbles_key_path|done|lia|done|].
    split; [by apply (wf_agree decodeNode t)|]. split.
    + intros x. cbn. rewrite bool_decide_true by done. apply answers_set_root.
      by destruct (_insert_then_get fuel t (root t) (common.toNibbles k0) 0 v d r
                     (toNibbles_bounded k0) H0).
    + intros k f x Hne Hx. cbn. rewrite bool_decide_false by done.
      apply answers_set_root.
      apply (_insert_other fuel t (root t) (common.toNibbles k0) 0 v d r
               (common.toNibbles k) (common.toNibbles k0) (common.toNibbles k));
        [apply toNibbles_bounded|apply toNibbles_bounded|done|done| |done|done].
      apply key_path_apart; [apply toNibbles_key_path..|].
      intros Heq%toNibbles_inj. by subst.
  - unfold remove in H. bind_inv H. destruct a as [d r]. injection H as <-.
    cbn [root set_root].
    pose proof (_remove_wf fuel t false (root t) (common.toNibbles k0) 0
                  (common.toNibbles k0) d r Hwf (toNibbles_key_path k0) eq_refl
                  ltac:(lia) H0) as Hr.
    split; [by apply (wf_agree decodeNode t)|]. split.
    + intros x. cbn. rewrite bool_decide_true by done. apply answers_set_root.
      eapply answers_mono; [|by apply (_remove_then_get fuel t (root t) _ 0 d r)]. lia.
    + intros k f x Hne Hx. cbn. rewrite bool_decide_false by done.
      apply answers_set_root. eapply answers_mono; [|
      apply (_remove_other fuel t false (root t) (common.toNibbles k0) 0 d r
               (common.toNibbles k) (common.toNibbles k0) (common.toNibbles k) f x);
        [done|apply toNibbles_key_path|done|done| |done|done]]; [lia|].
      apply key_path_apart; [apply toNibbles_key_path..|].
      intros Heq%toNibbles_inj. by subst.
Qed.

Lemma last_write_cons k o ops x :
  last_write k (o :: ops) x = last_write k ops (last_write k [o] x).
Proof. done. Qed.

(** What a key answers, through a run that returns. *)
Lemma run_keeps fuel ops :
  ∀ (t t' : Trie) k f x,
    wf decodeNode t (root t) →
    run decodeNode fuel t ops = Ret t' →
    answers f t (root t) (common.toNibbles k) 0 x →
    answers (f `max` fuel + 2 * length ops) t' (root t') (common.toNibbles k) 0
      (last_write k ops x).
Proof.
  induction ops as [|o ops IH]; intros t t' k f x Hwf Hrun Hx.
  - injection Hrun as <-. eapply answers_mono; [|done]. lia.
  - cbn [run] in Hrun. bind_inv Hrun. rename a into t1.
    destruct (apply_op_step fuel t o t1 Hwf Hrun0) as (Hwf1 & Hown & Hothers).
    rewrite last_write_cons.
    destruct (decide (k = op_key o)) as [->|Hne].
    + eapply answers_mono; [|apply (IH t1 t' _ (fuel + 2)); [done|done|apply Hown]].
      cbn [length]. lia.
    + eapply answers_mono; [|apply (IH t1 t' _ (f + 2)); [done|done|by apply Hothers]].
      cbn [length]. lia.
Qed.

Lemma run_touched fuel ops :
  ∀ (t t' : Trie) k x,
    wf decodeNode t (root t) →
    run decodeNode fuel t ops = Ret t' →
    k ∈ op_key <$> ops →
    answers (fuel + 2 * length ops) t' (root t') (common.toNibbles k) 0
      (last_write k ops x).
Proof.
  induction ops as [|o ops IH]; intros t t' k x Hwf Hrun Hk; [by apply elem_of_nil in Hk|].
  cbn [run] in Hrun. bind_inv Hrun. rename a into t1.
  destruct (apply_op_step fuel t o t1 Hwf Hrun0) as (Hwf1 & Hown & Hothers).
  rewrite last_write_cons.
  destruct (decide (k = op_key o)) as [->|Hne].
  - eapply answers_mono; [|apply (run_keeps fuel ops t1 t' _ (fuel + 2)); [done|done|apply Hown]].
    cbn [length]. lia.
  - rewrite fmap_cons in Hk. apply elem_of_cons in Hk as [?|Hk]; [done|].
    eapply answers_mono; [|by apply (IH t1 t')]. cbn [length]. lia.
Qed.

(** X16: map semantics over a store.  On a trie that keeps the
    terminator discipline (through its store, when it has one), after any
    sequence of inserts and removes that returns, [get(key)] returns: for
    a key the sequence wrote, the value of its last insert that no later
    remove follows (null when there is none); for any other key, what
    [get(key)] returned before. *)
Theorem stored_map_semantics fuel (t : Trie) ops t' :
  wf decodeNode t (root t) →
  run decodeNode fuel t ops = Ret t' →
  ∀ key,
    (∀ f0 o0 t0,
       get decodeNode f0 t key = Ret (o0, t0) →
       ∃ t'', get decodeNode (f0 `max` fuel + 2 * length ops) t' key
              = Ret (last_write key ops o0, t''))
    ∧ (key ∈ op_key <$> ops →
       ∀ o0, ∃ t'', get decodeNode (fuel + 2 * length ops) t' key
                    = Ret (last_write key ops o0, t'')).
Proof.
  intros Hwf Hrun key. split.
  - intros f0 o0 t0 H0. apply get_answers. apply (run_keeps fuel ops t); [done|done|].
    apply get_answers. by exists t0.
  - intros Hkey o0. apply get_answers. by apply (run_touched fuel ops t).
Qed.

End answers_facts.

(** ** The store-backed properties at work on a small trie *)

Lemma loaded_wf : wf demo.decodeNode demo.loaded (root demo.loaded).
Proof.
  apply (wf_hash _ _ [xaa] demo.leaf).
  - by exists [xaa], demo.store, [x01].
  - apply (wf_leaf _ _ [1; 2]). repeat constructor; lia.
Qed.

Lemma insert_then_get_witness :
  ∃ t1, insert demo.decodeNode 4 demo.loaded [x34] [x02] = Ret t1
        ∧ ∃ t2, get demo.decodeNode (4 + 2) t1 [x34] = Ret (Some [x02], t2).
Proof.
  eexists. split; [reflexivity|].
  apply (insert_then_get demo.decodeNode 4 demo.loaded [x34] [x02]). reflexivity.
Defined.

Lemma remove_then_get_witness :
  ∃ t1, remove demo.decodeNode 3 demo.loaded [x12] = Ret t1
        ∧ ∃ t2, get demo.decodeNode 3 t1 [x12] = Ret (None, t2).
Proof.
  eexists. split; [reflexivity|].
  apply (remove_then_get demo.decodeNode 3 demo.loaded [x12]). reflexivity.
Defined.

Lemma get_read_only_witness :
  ∃ t2, get demo.decodeNode 3 (set_root demo.loaded demo.leaf) [x34] = Ret (None, t2).
Proof.
  apply (get_read_only demo.decodeNode 3 demo.loaded [x12] (Some [x2a])
           (set_root demo.loaded demo.leaf) eq_refl 3 [x34] None
           (set_root demo.loaded demo.leaf)).
  reflexivity.
Defined.

Lemma insert_keeps_others_witness :
  ∃ t1, insert demo.decodeNode 4 demo.loaded [x34] [x02] = Ret t1
        ∧ ∃ t2, get demo.decodeNode (3 + 2) t1 [x12] = Ret (Some [x2a], t2).
Proof.
  eexists. split; [reflexivity|].
  apply (insert_keeps_others demo.decodeNode 4 demo.loaded [x34] [x02] _ eq_refl
           3 [x12] (Some [x2a]) (set_root demo.loaded demo.leaf)).
  - discriminate.
  - reflexivity.
Defined.

Lemma remove_keeps_others_witness :
  ∃ t1, remove demo.decodeNode 3 demo.loaded [x34] = Ret t1
        ∧ ∃ t2, get demo.decodeNode 3 t1 [x12] = Ret (Some [x2a], t2).
Proof.
  eexists. split; [reflexivity|].
  apply (remove_keeps_others demo.decodeNode 3 demo.loaded [x34] _ loaded_wf eq_refl
           3 [x12] (Some [x2a]) (set_root demo.loaded demo.leaf)).
  - discriminate.
  - reflexivity.
Defined.

Lemma stored_map_semantics_witness :
  ∃ t', run demo.decodeNode 4 demo.loaded [Insert [x34] [x02]; Remove [x12]] = Ret t'
        ∧ (∃ t2, get demo.decodeNode (4 + 2 * 2) t' [x34] = Ret (Some [x02], t2))
        ∧ (∃ t2, get demo.decodeNode (4 + 2 * 2) t' [x12] = Ret (None, t2)).
Proof.
  eexists. split; [reflexivity|]. split.
  - destruct (stored_map_semantics demo.decodeNode 4 demo.loaded
                [Insert [x34] [x02]; Remove [x12]] _ loaded_wf eq_refl [x34]) as [_ H].
    apply (H ltac:(repeat constructor) None).
  - destruct (stored_map_semantics demo.decodeNode 4 demo.loaded
                [Insert [x34] [x02]; Remove [x12]] _ loaded_wf eq_refl [x12]) as [H _].
    apply (H 3 (Some [x2a]) (set_root demo.loaded demo.leaf)). reflexivity.
Defined.

(** ** Missing nodes at the public operations *)

Section missing_nodes.

Variable decodeNode : Buffer → Hash.t → outcome node.

(** X17: a node that the store lacks surfaces as a TypeError at every
    public operation that meets it, not as a MissingNodeError: [open] of
    a root that the store has not, and [get], [insert] and [remove] on a
    trie whose root is a Hash placeholder that the store cannot resolve. *)
Theorem missing_node_surfaces (t : Trie) store :
  db t = Some store →
  (∀ arg r,
     resulting_root t arg = Some r → r ≠ emptyRoot t →
     length r = Hash.size (hash t) → DB.has store r = false →
     open t arg = Throw TypeError)
  ∧ (∀ fuel data key value,
       root t = HashNode data → DB.get store data = None →
       get decodeNode (S fuel) t key = Throw TypeError
       ∧ insert decodeNode (S fuel) t key value = Throw TypeError
       ∧ remove decodeNode (S fuel) t key = Throw TypeError).
Proof.
  intros Hdb. split.
  - intros arg r Hr Hne Hlen Hhas. rewrite open_resulting_root, Hr.
    rewrite bool_decide_false by done. cbn.
    rewrite (bool_decide_true (length r = _)) by done. cbn.
    by rewrite Hdb, Hhas.
  - intros fuel data key value Hroot Hget.
    assert (Hres : ∀ k p, resolveHash decodeNode t data k p = Throw TypeError).
    { intros k p. unfold resolveHash. by rewrite Hdb, Hget. }
    unfold get, insert, remove. rewrite Hroot. cbn [_get _insert _remove].
    rewrite !assert_true by lia. cbn -[resolveHash]. rewrite !Hres.
    by rewrite bool_decide_false by (rewrite toNibbles_length; lia).
Qed.

End missing_nodes.

Lemma missing_node_surfaces_witness :
  open demo.stored (RootBuffer [xbb]) = Throw TypeError
  ∧ get demo.decodeNode 1 (opened demo.stored [xbb]) [x12] = Throw TypeError.
Proof.
  split.
  - destruct (missing_node_surfaces demo.decodeNode demo.stored demo.store eq_refl)
      as [H _].
    apply (H (RootBuffer [xbb]) [xbb]); [reflexivity|discriminate|reflexivity|reflexivity].
  - destruct (missing_node_surfaces demo.decodeNode (opened demo.stored [xbb])
                demo.store eq_refl) as [_ H].
    apply (H 0 [xbb] [x12] []); reflexivity.
Defined.

(** ** The flags on a modified path *)

Section flags.

Variable decodeNode : Buffer → Hash.t → outcome node.

Lemma _insert_unchanged fuel (t : Trie) n key pos v nn :
  _insert decodeNode fuel t n key pos (ValueNode v) = Ret (false, nn) →
  same_subtree decodeNode t n nn.
Proof.
  destruct fuel as [|fuel]; [discriminate|].
  cbn [_insert]. intros H. bind_inv H. clear H0 a.
  case_bool_decide as Hend.
  { destruct n; cbn in H; try discriminate.
    injection H as Hd <-. apply negb_false_iff, bool_decide_eq_true in Hd as ->.
    by left. }
  destruct n as [|data|k c fl|l fl|data]; try discriminate.
  - bind_inv H. bind_inv H. destruct a0 as [[] nn']; cbn in H; [discriminate|].
    injection H as <-. right. by apply (resolveHash_Ret decodeNode t data key pos).
  - cbn zeta in H. case_bool_decide.
    + bind_inv H. destruct a as [[] nn']; cbn in H; [discriminate|].
      injection H as <-. by left.
    + bind_inv H. destruct a as [d1 n1]. bind_inv H. destruct a as [d2 n2].
      by case_bool_decide.
  - destruct (key !! pos ≫= _) as [[i c]|];
      [|unfold undefined_node in H; bind_inv H; discriminate].
    bind_inv H. destruct a as [[] nn']; cbn in H; [discriminate|].
    injection H as <-. by left.
Qed.

Lemma _remove_unchanged fuel (t : Trie) n key pos nn :
  _remove decodeNode fuel t n key pos = Ret (false, nn) →
  same_subtree decodeNode t n nn.
Proof.
  destruct fuel as [|fuel]; [discriminate|].
  cbn [_remove]. intros H. bind_inv H. clear H0 a.
  destruct n as [|data|k c fl|l fl|data]; try discriminate.
  - injection H as <-. by left.
  - bind_inv H. bind_inv H. destruct a0 as [[] nn']; cbn in H; [discriminate|].
    injection H as <-. right. by apply (resolveHash_Ret decodeNode t data key pos).
  - cbn zeta in H. case_bool_decide; [injection H as <-; by left|].
    case_bool_decide; [discriminate|].
    bind_inv H. destruct a as [[] nn']; cbn in H; [by destruct nn'|].
    injection H as <-. by left.
  - destruct (key !! pos ≫= _) as [[i c]|];
      [|unfold undefined_node in H; bind_inv H; discriminate].
    bind_inv H. destruct a as [[] nn']; cbn in H; [|injection H as <-; by left].
    bind_inv H. case_bool_decide; [|discriminate].
    destruct (_ !! Z.to_nat a) as [slot|]; [|discriminate].
    destruct (negb _); [|discriminate].
    cbn in H. bind_inv H. by destruct a0.
Qed.

(** An insert that reports a change hands back a node whose path for
    the key is dirty. *)
Lemma _insert_dirty fuel :
  ∀ (t : Trie) n key pos v nn,
    _insert decodeNode fuel t n key pos (ValueNode v) = Ret (true, nn) →
    dirty_path key pos nn.
Proof.
  induction fuel as [|fuel IH]; intros t n key pos v nn H; [discriminate|].
  cbn [_insert] in H. bind_inv H. clear H0 a.
  destruct (decide (length key - pos = 0)) as [Hend|Hmore].
  { rewrite bool_decide_true in H by done.
    assert (nn = ValueNode v) as -> by (destruct n; cbn in H; congruence).
    constructor. }
  rewrite bool_decide_false in H by done.
  destruct n as [|data|k c fl|l fl|data]; try discriminate.
  - injection H as <-. constructor; [done|done|constructor].
  - bind_inv H. bind_inv H. destruct a0 as [[] nn']; cbn in H; [|discriminate].
    injection H as <-. by eapply IH.
  - cbn zeta in H. set (ml := common.prefixLen key k pos) in *.
    case_bool_decide as Hfull.
    + bind_inv H. destruct a as [[] nn']; cbn in H; [|discriminate].
      injection H as <-. constructor; [done|done|]. intros _.
      rewrite <- Hfull. by eapply IH.
    + bind_inv H. destruct a as [d1 n1]. bind_inv H. destruct a as [d2 n2].
      assert (Hn2 : dirty_path key (pos + ml + 1) n2).
      { destruct fuel as [|fuel]; [discriminate|]. cbn [_insert] in H1.
        bind_inv H1. clear H2 a.
        destruct (bool_decide (length key - (pos + ml + 1) = 0));
          injection H1 as _ <-; constructor; (done || constructor). }
      assert (Hbranch : ∀ q, q = pos + ml → dirty_path key q
                (set_child (set_child (fullNode t) (k !! ml) n1) (key !! (pos + ml)) n2)).
      { intros q ->. assert (∃ cs, set_child (fullNode t) (k !! ml) n1 = FullNode cs (flags t))
          as [cs ->] by (destruct (k !! ml); by eexists).
        destruct (key !! (pos + ml)) as [y|] eqn:Hy; cbn;
          (constructor; [done|done|]); intros i c' Hi Hc'; [|congruence].
        assert (i = y) as -> by congruence.
        apply list_lookup_insert_Some in Hc' as [(_ & <- & _)|[? _]]; done. }
      case_bool_decide as Hml0; injection H as <-.
      * apply Hbranch. lia.
      * constructor; [done|done|]. intros _. apply Hbranch. f_equal.
        unfold common.slice. rewrite length_take, length_drop.
        pose proof (common_len_le (drop pos key) k) as [Hle _].
        rewrite length_drop in Hle. unfold ml, common.prefixLen. lia.
  - destruct (key !! pos) as [i|] eqn:Hi; cbn in H;
      [|unfold undefined_node in H; bind_inv H; discriminate].
    destruct (l !! i) as [c|] eqn:Hc; cbn in H;
      [|unfold undefined_node in H; bind_inv H; discriminate].
    bind_inv H. destruct a as [[] nn']; cbn in H; [|discriminate].
    injection H as <-. constructor; [done|done|].
    intros i' c' Hi' Hc'. assert (i' = i) as -> by congruence.
    rewrite list_lookup_insert_eq in Hc' by (by eapply lookup_lt_Some).
    injection Hc' as <-. by eapply IH.
Qed.

Lemma dirty_short_inv key pos k c fl :
  dirty_path key pos (ShortNode k c fl) →
  common.startsWith key k pos = true → dirty_path key (pos + length k) c.
Proof. by inversion 1. Qed.

Lemma dirty_merge (t : Trie) key pos k nn :
  common.startsWith key k pos = true →
  dirty_path key (pos + length k) nn →
  dirty_path key pos (match nn with
                      | ShortNode nk nv _ => shortNode t (common.concat k nk) nv
                      | _ => shortNode t k nn
                      end).
Proof.
  intros Hsw Hnn. unfold shortNode, common.concat.
  destruct nn as [|data|nk nv nfl|l nfl|data]; try (by constructor).
  constructor; [done|done|]. intros Hsw'. rewrite startsWith_app in Hsw' by done.
  rewrite length_app, Nat.add_assoc. by apply (dirty_short_inv _ _ nk nv nfl).
Qed.

(** A remove that reports a change hands back a node whose path for
    the key is dirty. *)
Lemma _remove_dirty fuel :
  ∀ (t : Trie) n key pos nn,
    _remove decodeNode fuel t n key pos = Ret (true, nn) →
    dirty_path key pos nn.
Proof.
  induction fuel as [|fuel IH]; intros t n key pos nn H; [discriminate|].
  cbn [_remove] in H. bind_inv H. clear H0 a.
  destruct n as [|data|k c fl|l fl|data]; try discriminate.
  - bind_inv H. bind_inv H. destruct a0 as [[] nn']; cbn in H; [|discriminate].
    injection H as <-. by eapply IH.
  - cbn zeta in H. unfold common.prefixLen in H.
    pose proof (common_len_le (drop pos key) k) as [_ Hle].
    destruct (decide (common.common_len (drop pos key) k < length k)) as [Hlt|Hge].
    { by rewrite bool_decide_true in H by done. }
    rewrite bool_decide_false in H by done.
    assert (Hsw : common.startsWith key k pos = true).
    { apply startsWith_true, common_len_whole. lia. }
    case_bool_decide; [injection H as <-; constructor|].
    bind_inv H. destruct a as [[] nn']; cbn in H; [|discriminate].
    assert (nn = match nn' with
                 | ShortNode nk nv _ => shortNode t (common.concat k nk) nv
                 | _ => shortNode t k nn'
                 end) as -> by (destruct nn'; by injection H as <-).
    apply dirty_merge; [done|]. by eapply IH.
  - destruct (key !! pos) as [i|] eqn:Hi; cbn in H;
      [|unfold undefined_node in H; bind_inv H; discriminate].
    destruct (l !! i) as [c|] eqn:Hc; cbn in H;
      [|unfold undefined_node in H; bind_inv H; discriminate].
    bind_inv H. destruct a as [[] nn']; cbn in H; [|discriminate].
    apply IH in H0. bind_inv H. rename a into index.
    assert (Hcs : <[i:=nn']> l !! i = Some nn').
    { apply list_lookup_insert_eq. by eapply lookup_lt_Some. }
    case_bool_decide as Hindex.
    2: { injection H as <-. constructor; [done|done|].
         intros i' c' Hi' Hc'. assert (i' = i) as -> by congruence. congruence. }
    destruct (<[i:=nn']> l !! Z.to_nat index) as [slot|] eqn:Hslot; [|discriminate].
    set (j := Z.to_nat index) in *.
    assert (Hbyte : common.startsWith key [j] pos = bool_decide (i = j))
      by (by apply startsWith_byte).
    assert (Hslot' : common.startsWith key [j] pos = true →
                     slot = nn' ∧ dirty_path key (pos + 1) slot).
    { intros Hsw. rewrite Hsw in Hbyte. symmetry in Hbyte.
      apply bool_decide_eq_true in Hbyte. subst j. rewrite <- Hbyte, Hcs in Hslot.
      by injection Hslot as <-. }
    assert (Hone : dirty_path key pos (shortNode t (common.byte j) slot)).
    { constructor; [done|done|]. intros Hsw. by apply Hslot'. }
    destruct (negb (bool_decide (j = 16))); cbn in H; [|by injection H as <-].
    bind_inv H. rename a into child.
    destruct child as [|cd|ck cv cfl|cl cfl|cd]; injection H as <-; try done.
    unfold shortNode, common.concat, common.byte.
    constructor; [done|done|]. intros Hsw.
    assert (Hj : common.startsWith key [j] pos = true).
    { apply startsWith_true in Hsw as [r Hr]. apply startsWith_true.
      exists (ck ++ r). by rewrite Hr. }
    destruct (Hslot' Hj) as [-> Hnn'].
    change (j :: ck) with ([j] ++ ck) in Hsw |- *.
    rewrite startsWith_app in Hsw by done.
    assert (nn' = ShortNode ck cv cfl) as ->.
    { unfold resolve in H2. destruct nn'; try congruence. by inversion Hnn'. }
    rewrite length_app, Nat.add_assoc.
    by apply (dirty_short_inv _ _ ck cv cfl).
  - injection H as <-. constructor.
Qed.

(** X18: an [insert] or a [remove] that returns has either changed
    nothing (the root is the former root, or the node that the store
    decodes for a Hash root), or it leaves every Short and Full node on
    the path of the key flagged dirty and without a cached hash, with no
    Hash placeholder on that path: no stale digest survives on a modified
    path. *)
Theorem modified_path_dirty fuel (t : Trie) key t1 :
  (∀ value,
     insert decodeNode fuel t key value = Ret t1 →
     same_subtree decodeNode t (root t) (root t1)
     ∨ dirty_path (common.toNibbles key) 0 (root t1))
  ∧ (remove decodeNode fuel t key = Ret t1 →
     same_subtree decodeNode t (root t) (root t1)
     ∨ dirty_path (common.toNibbles key) 0 (root t1)).
Proof.
  split.
  - intros value H. unfold insert, valueNode in H. bind_inv H.
    destruct a as [d r]. injection H as <-. cbn [root set_root].
    destruct d; [right; by eapply _insert_dirty|left; by eapply _insert_unchanged].
  - intros H. unfold remove in H. bind_inv H.
    destruct a as [d r]. injection H as <-. cbn [root set_root].
    destruct d; [right; by eapply _remove_dirty|left; by eapply _remove_unchanged].
Qed.

End flags.

Lemma modified_path_dirty_witness :
  ∃ t1, insert demo.decodeNode 4 demo.loaded [x34] [x02] = Ret t1
        ∧ (same_subtree demo.decodeNode demo.loaded (root demo.loaded) (root t1)
           ∨ dirty_path (common.toNibbles [x34]) 0 (root t1)).
Proof.
  eexists. split; [reflexivity|].
  match goal with
  | |- _ ∨ dirty_path _ _ (root ?t1) =>
      destruct (modified_path_dirty demo.decodeNode 4 demo.loaded [x34] t1) as [H _]
  end.
  apply (H [x02]). reflexivity.
Defined.
